(** * validate-this-path: a shallow embedding of [src/lib/pathUtils.ts]

    The library validates, normalizes and sanitizes path strings.  It is a
    thin layer over Node's [path] and [os] modules, so the embedding has
    three layers:

    - [JS]: the string primitives of ECMAScript that the code calls
      ([includes], [slice], [lastIndexOf], [toLowerCase], [match] and
      [replace] with the regular expressions of the source);
    - [NodePath]: Node's [path.posix] and [path.win32] ([normalizeString],
      [normalize], [join], [isAbsolute], and for [path.posix] also
      [resolve] and [relative]), transcribed from [lib/path.js] of
      Node 20.11 (the release of the package's [@types/node]);
    - the exported functions of [pathUtils.ts], each taking the host
      (what [os.platform()] answers) as an explicit argument;
      [getRelativePath], which also needs the working directory of the
      process, is there for POSIX hosts.

    A JavaScript string is a sequence of UTF-16 code units.  The embedding
    covers the strings whose code units are below 256 (ASCII and Latin-1),
    represented as [list ascii]; on that range [toLowerCase] acts on each
    code unit separately. *)

From Stdlib Require Import List Ascii String ZArith Bool Arith Lia.
From Stdlib Require Import Numbers.DecimalString.
Import ListNotations.

Local Open Scope char_scope.
Local Open Scope list_scope.

(** ** JavaScript strings *)

Definition jsstring : Type := list ascii.

(** A literal: [js "a/b"] is the JavaScript string ['a/b']. *)
Definition js (s : string) : jsstring := list_ascii_of_string s.

Definition jsstring_eqb (a b : jsstring) : bool :=
  if list_eq_dec ascii_dec a b then true else false.

Module JS.

(** [s.length] *)
Definition length (s : jsstring) : Z := Z.of_nat (List.length s).

(** [s.charCodeAt(i)]; [None] stands for [NaN] (index out of range). *)
Definition charCodeAt (s : jsstring) (i : Z) : option ascii :=
  if (i <? 0)%Z then None else nth_error s (Z.to_nat i).

(** [f(s.charCodeAt(i))] for a test [f] on code units; every comparison
    with [NaN] is false. *)
Definition codeAt (f : ascii -> bool) (s : jsstring) (i : Z) : bool :=
  match charCodeAt s i with
  | Some c => f c
  | None => false
  end.

(** [s.slice(b, e)] for indices [0 <= b], [0 <= e] (the only ones the
    code passes). *)
Definition slice (s : jsstring) (b e : Z) : jsstring :=
  firstn (Z.to_nat e - Z.to_nat b) (skipn (Z.to_nat b) s).

(** [s.slice(b)] *)
Definition sliceFrom (s : jsstring) (b : Z) : jsstring :=
  skipn (Z.to_nat b) s.

(** Index of the first occurrence of the code unit [c] at or after
    position [i], given that [s] is what starts at position [i]. *)
Fixpoint indexOf_from (c : ascii) (s : jsstring) (i : Z) : Z :=
  match s with
  | [] => (-1)%Z
  | d :: t => if (d =? c)%char then i else indexOf_from c t (i + 1)%Z
  end.

(** [s.lastIndexOf(c)] for a one-character string [c]; [-1] when [c]
    does not occur. *)
Fixpoint lastIndexOf_from (c : ascii) (s : jsstring) (i : Z) : Z :=
  match s with
  | [] => (-1)%Z
  | d :: t =>
      let r := lastIndexOf_from c t (i + 1)%Z in
      if (r =? -1)%Z then (if (d =? c)%char then i else (-1)%Z) else r
  end.

Definition lastIndexOf (s : jsstring) (c : ascii) : Z :=
  lastIndexOf_from c s 0%Z.

(** [s.startsWith(p)] *)
Fixpoint startsWith (s p : jsstring) : bool :=
  match p, s with
  | [], _ => true
  | _ :: _, [] => false
  | a :: p', b :: s' => (a =? b)%char && startsWith s' p'
  end.

(** [s.includes(p)] *)
Fixpoint includes (s p : jsstring) : bool :=
  startsWith s p ||
  match s with
  | [] => false
  | _ :: t => includes t p
  end.

(** [toLowerCase] on one code unit below 256: [A]-[Z] and the Latin-1
    capitals U+00C0-U+00DE (U+00D7, the multiplication sign, apart) move
    up by 32; every other code unit is its own lower case. *)
Definition lowerCode (c : ascii) : ascii :=
  let n := nat_of_ascii c in
  if ((65 <=? n) && (n <=? 90))%nat then ascii_of_nat (n + 32)
  else if ((192 <=? n) && (n <=? 222) && negb (n =? 215))%nat
       then ascii_of_nat (n + 32)
  else c.

(** [s.toLowerCase()] *)
Definition toLowerCase (s : jsstring) : jsstring := map lowerCode s.

(** The value of [s.match(re)] for a regular expression [re] with the
    [g] flag that matches one code unit of the class [cls]: [null] when
    nothing matches, else the array of all the matched substrings.  With
    the [g] flag the array has no [index] property (ECMAScript,
    [RegExp.prototype[Symbol.match]]): reading it gives [undefined]. *)
Record RegExpMatchArray : Type := {
  matches : list jsstring;
  index : option Z
}.

Definition match_global (cls : ascii -> bool) (s : jsstring)
  : option RegExpMatchArray :=
  match filter cls s with
  | [] => None
  | l => Some {| matches := map (fun c => [c]) l; index := None |}
  end.

(** [s.replace(re, '')] for such a [re]: every match is deleted. *)
Definition replace_global_empty (cls : ascii -> bool) (s : jsstring)
  : jsstring :=
  filter (fun c => negb (cls c)) s.

(** [s.replace(/\\/g, '/')] *)
Definition replace_backslashes (s : jsstring) : jsstring :=
  map (fun c => if (c =? "\")%char then "/" else c) s.

(** [s.replace(/[/\\]$/, '')]: a slash or backslash at the very end of
    the string is deleted (one at most: the expression is not global). *)
Fixpoint replace_trailing_separator (s : jsstring) : jsstring :=
  match s with
  | [] => []
  | [c] => if ((c =? "/") || (c =? "\"))%char then [] else [c]
  | c :: t => c :: replace_trailing_separator t
  end.

(** The decimal text of an integer, as a template literal prints it
    (below [10^21] in absolute value; JavaScript prints larger numbers
    with an exponent). *)
Definition numberToString (n : Z) : jsstring :=
  js (NilEmpty.string_of_int (Z.to_int n)).

End JS.

(** ** Node's [path] module ([lib/path.js])

    [pathUtils.ts] imports [path], which is [path.win32] on a Windows host
    and [path.posix] on every other one. *)

Module NodePath.

Definition CHAR_DOT : ascii := ".".
Definition CHAR_COLON : ascii := ":".
Definition CHAR_FORWARD_SLASH : ascii := "/".
Definition CHAR_BACKWARD_SLASH : ascii := "\".

Definition isPathSeparator (code : ascii) : bool :=
  (code =? CHAR_FORWARD_SLASH) || (code =? CHAR_BACKWARD_SLASH).

Definition isPosixPathSeparator (code : ascii) : bool :=
  (code =? CHAR_FORWARD_SLASH).

(** [A]-[Z] or [a]-[z] *)
Definition isWindowsDeviceRoot (code : ascii) : bool :=
  let n := nat_of_ascii code in
  ((65 <=? n) && (n <=? 90) || (97 <=? n) && (n <=? 122))%nat.

(** *** [normalizeString]: resolves [.] and [..] elements

    The local variables of the loop. *)
Record NSState : Type := {
  res : jsstring;
  lastSegmentLength : Z;
  lastSlash : Z;
  dots : Z;
  code : ascii
}.

(** What one run of a loop body ends with: [break], or the state the
    next iteration starts from (falling off the end of the body and
    [continue] both lead there). *)
Inductive Flow : Type :=
| Break
| Next (st : NSState).

Fixpoint for_loop (body : nat -> NSState -> Flow) (idx : list nat)
  (st : NSState) : NSState :=
  match idx with
  | [] => st
  | i :: rest =>
      match body i st with
      | Break => st
      | Next st' => for_loop body rest st'
      end
  end.

Section NormalizeString.

Variable path : jsstring.
Variable allowAboveRoot : bool.
Variable separator : ascii.
Variable isPathSeparator : ascii -> bool.

(** The part of the body that runs when [isPathSeparator(code)] holds
    and the segment before position [i] is [..] ([dots === 2]). *)
Definition dotdot_segment (i : Z) (st : NSState) (c : ascii) : NSState :=
  let r := res st in
  let append :=
    (* if (allowAboveRoot) { res += ...; lastSegmentLength = 2 }
       lastSlash = i; dots = 0 *)
    if allowAboveRoot
    then {| res := (if (JS.length r >? 0)%Z
                    then r ++ separator :: js ".."
                    else js "..");
            lastSegmentLength := 2;
            lastSlash := i; dots := 0; code := c |}
    else {| res := r; lastSegmentLength := lastSegmentLength st;
            lastSlash := i; dots := 0; code := c |} in
  if (JS.length r <? 2)%Z
     || negb (lastSegmentLength st =? 2)%Z
     || negb (JS.codeAt (fun d => d =? CHAR_DOT) r (JS.length r - 1))
     || negb (JS.codeAt (fun d => d =? CHAR_DOT) r (JS.length r - 2))
  then
    if (JS.length r >? 2)%Z then
      let lastSlashIndex := JS.lastIndexOf r separator in
      if (lastSlashIndex =? -1)%Z
      then {| res := []; lastSegmentLength := 0;
              lastSlash := i; dots := 0; code := c |}
      else
        let r' := JS.slice r 0 lastSlashIndex in
        {| res := r';
           lastSegmentLength :=
             (JS.length r' - 1 - JS.lastIndexOf r' separator)%Z;
           lastSlash := i; dots := 0; code := c |}
    else if negb (JS.length r =? 0)%Z
    then {| res := []; lastSegmentLength := 0;
            lastSlash := i; dots := 0; code := c |}
    else append
  else append.

(** The part of the body that runs when [isPathSeparator(code)] holds:
    the segment between [lastSlash] and [i] ends. *)
Definition end_of_segment (i : Z) (st : NSState) (c : ascii) : NSState :=
  if (lastSlash st =? i - 1)%Z || (dots st =? 1)%Z
  then (* NOOP *)
    {| res := res st;
       lastSegmentLength := lastSegmentLength st;
       lastSlash := i; dots := 0; code := c |}
  else if (dots st =? 2)%Z
  then dotdot_segment i st c
  else
    let seg := JS.slice path (lastSlash st + 1) i in
    {| res := (if (JS.length (res st) >? 0)%Z
               then res st ++ separator :: seg
               else seg);
       lastSegmentLength := (i - lastSlash st - 1)%Z;
       lastSlash := i; dots := 0; code := c |}.

(** The body of [for (let i = 0; i <= path.length; ++i)]. *)
Definition normalizeString_body (n : nat) (st : NSState) : Flow :=
  let i := Z.of_nat n in
  let next_code :=
    if (i <? JS.length path)%Z then nth_error path n
    else if isPathSeparator (code st) then None
    else Some CHAR_FORWARD_SLASH in
  match next_code with
  | None => Break
  | Some c =>
      if isPathSeparator c then Next (end_of_segment i st c)
      else if (c =? CHAR_DOT) && negb (dots st =? -1)%Z
      then Next {| res := res st;
                   lastSegmentLength := lastSegmentLength st;
                   lastSlash := lastSlash st;
                   dots := (dots st + 1)%Z; code := c |}
      else Next {| res := res st;
                   lastSegmentLength := lastSegmentLength st;
                   lastSlash := lastSlash st;
                   dots := (-1)%Z; code := c |}
  end.

Definition normalizeString : jsstring :=
  res (for_loop normalizeString_body
         (seq 0 (S (List.length path)))
         {| res := []; lastSegmentLength := 0; lastSlash := (-1)%Z;
            dots := 0; code := zero |}).

End NormalizeString.

(** *** [path.posix] *)
Module posix.

Definition normalize (path : jsstring) : jsstring :=
  if (JS.length path =? 0)%Z then js "."
  else
    let isAbsolute :=
      JS.codeAt (fun c => c =? CHAR_FORWARD_SLASH) path 0 in
    let trailingSeparator :=
      JS.codeAt (fun c => c =? CHAR_FORWARD_SLASH) path
        (JS.length path - 1) in
    let path' :=
      normalizeString path (negb isAbsolute) "/" isPosixPathSeparator in
    if (JS.length path' =? 0)%Z then
      if isAbsolute then js "/"
      else if trailingSeparator then js "./" else js "."
    else
      let path'' :=
        if trailingSeparator then path' ++ js "/" else path' in
      if isAbsolute then "/" :: path'' else path''.

Definition isAbsolute (path : jsstring) : bool :=
  (JS.length path >? 0)%Z
  && JS.codeAt (fun c => c =? CHAR_FORWARD_SLASH) path 0.

(** The loop of [join]: [joined] is [undefined] ([None]) until the
    first non-empty argument. *)
Fixpoint join_args (args : list jsstring) (joined : option jsstring)
  : option jsstring :=
  match args with
  | [] => joined
  | arg :: rest =>
      if (JS.length arg >? 0)%Z then
        match joined with
        | None => join_args rest (Some arg)
        | Some j => join_args rest (Some (j ++ "/" :: arg))
        end
      else join_args rest joined
  end.

Definition join (args : list jsstring) : jsstring :=
  if (Z.of_nat (List.length args) =? 0)%Z then js "."
  else
    match join_args args None with
    | None => js "."
    | Some joined => normalize joined
    end.

(** The loop of [resolve], which reads the arguments from the last one
    to the first and then the current directory: [paths] holds them in
    that order. *)
Fixpoint resolve_loop (paths : list jsstring) (resolvedPath : jsstring)
  (resolvedAbsolute : bool) : jsstring * bool :=
  match paths with
  | [] => (resolvedPath, resolvedAbsolute)
  | path :: rest =>
      if resolvedAbsolute then (resolvedPath, resolvedAbsolute)
      else if (JS.length path =? 0)%Z
      then resolve_loop rest resolvedPath resolvedAbsolute
      else resolve_loop rest (path ++ "/" :: resolvedPath)
             (JS.codeAt (fun c => c =? CHAR_FORWARD_SLASH) path 0)
  end.

(** [resolve(...args)], [cwd] being what [process.cwd()] returns. *)
Definition resolve (cwd : jsstring) (args : list jsstring) : jsstring :=
  let '(resolvedPath, resolvedAbsolute) :=
    resolve_loop (rev args ++ [cwd]) [] false in
  let resolvedPath :=
    normalizeString resolvedPath (negb resolvedAbsolute) "/"
      isPosixPathSeparator in
  if resolvedAbsolute then "/" :: resolvedPath
  else if (JS.length resolvedPath >? 0)%Z then resolvedPath else js ".".

(** [a !== b] on two results of [charCodeAt]: [NaN] differs from
    everything. *)
Definition code_differs (a b : option ascii) : bool :=
  match a, b with
  | Some x, Some y => negb (x =? y)%char
  | _, _ => true
  end.

(** The first loop of [relative],
    [for (; i < length; i++)], with [rounds] rounds left: the values of
    [i] and [lastCommonSep] when it ends. *)
Fixpoint common_loop (from to : jsstring) (fromStart toStart : Z)
  (rounds : nat) (i lastCommonSep : Z) : Z * Z :=
  match rounds with
  | O => (i, lastCommonSep)
  | S rounds' =>
      let fromCode := JS.charCodeAt from (fromStart + i) in
      if code_differs fromCode (JS.charCodeAt to (toStart + i))
      then (i, lastCommonSep)
      else if code_differs fromCode (Some CHAR_FORWARD_SLASH)
      then common_loop from to fromStart toStart rounds' (i + 1)
             lastCommonSep
      else common_loop from to fromStart toStart rounds' (i + 1) i
  end.

(** The second loop of [relative],
    [for (i = ...; i <= fromEnd; ++i)], with [rounds] rounds left. *)
Fixpoint out_loop (from : jsstring) (fromEnd : Z) (rounds : nat) (i : Z)
  (out : jsstring) : jsstring :=
  match rounds with
  | O => out
  | S rounds' =>
      out_loop from fromEnd rounds' (i + 1)
        (if (i =? fromEnd)%Z
            || JS.codeAt (fun c => c =? CHAR_FORWARD_SLASH) from i
         then out ++ (if (JS.length out =? 0)%Z then js ".." else js "/..")
         else out)
  end.

(** What [relative] does once [from] and [to] are resolved. *)
Definition relative_resolved (from to : jsstring) : jsstring :=
  if jsstring_eqb from to then []
  else
    let fromStart := 1%Z in
    let fromEnd := JS.length from in
    let fromLen := (fromEnd - fromStart)%Z in
    let toStart := 1%Z in
    let toLen := (JS.length to - toStart)%Z in
    (* Compare paths to find the longest common path from root *)
    let length := if (fromLen <? toLen)%Z then fromLen else toLen in
    let '(i, lastCommonSep) :=
      common_loop from to fromStart toStart (Z.to_nat length) 0 (-1) in
    let is_slash := fun c => (c =? CHAR_FORWARD_SLASH)%char in
    let after_loop : jsstring + Z :=
      if (i =? length)%Z then
        if (toLen >? length)%Z then
          if JS.codeAt is_slash to (toStart + i)
          then (* from is the exact base path for to *)
            inl (JS.sliceFrom to (toStart + i + 1))
          else if (i =? 0)%Z
          then (* from is the root *)
            inl (JS.sliceFrom to (toStart + i))
          else inr lastCommonSep
        else if (fromLen >? length)%Z then
          if JS.codeAt is_slash from (fromStart + i)
          then (* to is the exact base path for from *) inr i
          else if (i =? 0)%Z
          then (* to is the root *) inr 0%Z
          else inr lastCommonSep
        else inr lastCommonSep
      else inr lastCommonSep in
    match after_loop with
    | inl result => result
    | inr lastCommonSep =>
        (* Generate the relative path based on the path difference
           between to and from. *)
        let first := (fromStart + lastCommonSep + 1)%Z in
        let out :=
          out_loop from fromEnd (Z.to_nat (fromEnd + 1 - first)) first
            [] in
        (* Lastly, append the rest of the destination path that comes
           after the common path parts. *)
        out ++ JS.sliceFrom to (toStart + lastCommonSep)
    end.

(** [relative(from, to)], [cwd] being what [process.cwd()] returns. *)
Definition relative (cwd from to : jsstring) : jsstring :=
  if jsstring_eqb from to then []
  else
    (* Trim leading forward slashes. *)
    let from := resolve cwd [from] in
    let to := resolve cwd [to] in
    relative_resolved from to.

End posix.

(** *** [path.win32] *)
Module win32.

(** The index at which [while (j < len && f(path.charCodeAt(j))) j++]
    stops, [s] being what [path] holds from index [j] on. *)
Fixpoint scan (f : ascii -> bool) (s : jsstring) (j : Z) : Z :=
  match s with
  | [] => j
  | c :: t => if f c then scan f t (j + 1)%Z else j
  end.

Definition skip_while (f : ascii -> bool) (path : jsstring) (j : Z) : Z :=
  scan f (JS.sliceFrom path j) j.

(** What the root-matching part of [normalize] ends with: an early
    [return], or the values of [rootEnd], [device] and [isAbsolute]. *)
Inductive RootMatch : Type :=
| Return (s : jsstring)
| Root (rootEnd : Z) (device : option jsstring) (isAbsolute : bool).

Definition match_root (path : jsstring) : RootMatch :=
  let len := JS.length path in
  if JS.codeAt isPathSeparator path 0 then
    (* Possible UNC root; isAbsolute = true *)
    if JS.codeAt isPathSeparator path 1 then
      let j := 2%Z in
      let last := j in
      let j := skip_while (fun c => negb (isPathSeparator c)) path j in
      if (j <? len)%Z && negb (j =? last)%Z then
        let firstPart := JS.slice path last j in
        let last := j in
        let j := skip_while isPathSeparator path j in
        if (j <? len)%Z && negb (j =? last)%Z then
          let last := j in
          let j := skip_while (fun c => negb (isPathSeparator c)) path j in
          if (j =? len)%Z then
            (* a UNC root only *)
            Return (js "\\" ++ firstPart ++ js "\"
                      ++ JS.sliceFrom path last ++ js "\")
          else if negb (j =? last)%Z then
            (* a UNC root with leftovers *)
            Root j (Some (js "\\" ++ firstPart ++ js "\"
                            ++ JS.slice path last j)) true
          else Root 0 None true
        else Root 0 None true
      else Root 0 None true
    else Root 1 None true
  else if JS.codeAt isWindowsDeviceRoot path 0
          && JS.codeAt (fun c => c =? CHAR_COLON) path 1 then
    (* Possible device root *)
    let device := JS.slice path 0 2 in
    if (len >? 2)%Z && JS.codeAt isPathSeparator path 2
    then Root 3 (Some device) true
    else Root 2 (Some device) false
  else Root 0 None false.

Definition normalize (path : jsstring) : jsstring :=
  let len := JS.length path in
  if (len =? 0)%Z then js "."
  else if (len =? 1)%Z then
    (* a single char: exit early *)
    if JS.codeAt isPosixPathSeparator path 0 then js "\" else path
  else
    match match_root path with
    | Return s => s
    | Root rootEnd device isAbsolute =>
        let tail :=
          if (rootEnd <? len)%Z
          then normalizeString (JS.sliceFrom path rootEnd)
                 (negb isAbsolute) "\" isPathSeparator
          else [] in
        let tail :=
          if (JS.length tail =? 0)%Z && negb isAbsolute
          then js "." else tail in
        let tail :=
          if (JS.length tail >? 0)%Z
             && JS.codeAt isPathSeparator path (len - 1)
          then tail ++ js "\" else tail in
        match device with
        | None => if isAbsolute then "\" :: tail else tail
        | Some d => if isAbsolute then d ++ "\" :: tail else d ++ tail
        end
    end.

Definition isAbsolute (path : jsstring) : bool :=
  let len := JS.length path in
  if (len =? 0)%Z then false
  else
    JS.codeAt isPathSeparator path 0
    || ((len >? 2)%Z
        && JS.codeAt isWindowsDeviceRoot path 0
        && JS.codeAt (fun c => c =? CHAR_COLON) path 1
        && JS.codeAt isPathSeparator path 2).

(** The loop of [join]: [joined] and [firstPart] are [undefined] until
    the first non-empty argument. *)
Fixpoint join_args (args : list jsstring)
  (joined : option (jsstring * jsstring)) : option (jsstring * jsstring) :=
  match args with
  | [] => joined
  | arg :: rest =>
      if (JS.length arg >? 0)%Z then
        match joined with
        | None => join_args rest (Some (arg, arg))
        | Some (j, firstPart) =>
            join_args rest (Some (j ++ "\" :: arg, firstPart))
        end
      else join_args rest joined
  end.

(** The slashes counted at the start of [firstPart], and whether the
    joined path must lose its leading slashes ([needsReplace]). *)
Definition leading_slashes (firstPart : jsstring) : Z * bool :=
  if JS.codeAt isPathSeparator firstPart 0 then
    let firstLen := JS.length firstPart in
    if (firstLen >? 1)%Z && JS.codeAt isPathSeparator firstPart 1 then
      if (firstLen >? 2)%Z then
        if JS.codeAt isPathSeparator firstPart 2
        then (3%Z, true)
        else (2%Z, false) (* a UNC path in the first part *)
      else (2%Z, true)
    else (1%Z, true)
  else (0%Z, true).

(** The joined path without its leading slashes, two or more of which
    [normalize] would take for a UNC root, unless the first part does
    start a UNC path. *)
Definition replace_leading_slashes (firstPart joined : jsstring)
  : jsstring :=
  let '(slashCount, needsReplace) := leading_slashes firstPart in
  if needsReplace then
    (* Find any more consecutive slashes we need to replace *)
    let slashCount := skip_while isPathSeparator joined slashCount in
    (* Replace the slashes if needed *)
    if (slashCount >=? 2)%Z
    then "\" :: JS.sliceFrom joined slashCount
    else joined
  else joined.

Definition join (args : list jsstring) : jsstring :=
  if (Z.of_nat (List.length args) =? 0)%Z then js "."
  else
    match join_args args None with
    | None => js "."
    | Some (joined, firstPart) =>
        normalize (replace_leading_slashes firstPart joined)
    end.

End win32.

End NodePath.

(** ** The types of [src/types/path.types.ts] *)

Inductive OSType : Type :=
| windows
| posix
| auto.

Definition OSType_eqb (a b : OSType) : bool :=
  match a, b with
  | windows, windows | posix, posix | auto, auto => true
  | _, _ => false
  end.

(** An optional property that is absent ([undefined]) is [None]; the
    options object [{}] is the record of [None]s.  [maxLength] is a
    JavaScript number; the embedding covers the integers. *)
Record ValidationOptions : Type := {
  vo_os : option OSType;
  allowTraversal : option bool;
  maxLength : option Z;
  allowAbsolute : option bool;
  allowRelative : option bool
}.

Record NormalizationOptions : Type := {
  no_os : option OSType;
  forceForwardSlash : option bool;
  removeTrailingSlash : option bool;
  toLowerCase : option bool
}.

Inductive ValidationErrorCode : Type :=
| ILLEGAL_CHAR
| TOO_LONG
| TRAVERSAL
| SYNTAX
| ABSOLUTE_NOT_ALLOWED
| RELATIVE_NOT_ALLOWED
| EMPTY_PATH.

Definition ValidationErrorCode_eqb (a b : ValidationErrorCode) : bool :=
  match a, b with
  | ILLEGAL_CHAR, ILLEGAL_CHAR | TOO_LONG, TOO_LONG
  | TRAVERSAL, TRAVERSAL | SYNTAX, SYNTAX
  | ABSOLUTE_NOT_ALLOWED, ABSOLUTE_NOT_ALLOWED
  | RELATIVE_NOT_ALLOWED, RELATIVE_NOT_ALLOWED
  | EMPTY_PATH, EMPTY_PATH => true
  | _, _ => false
  end.

Record ValidationError : Type := {
  code : ValidationErrorCode;
  message : jsstring;
  position : option Z
}.

Record ValidationResult : Type := {
  isValid : bool;
  errors : option (list ValidationError);
  normalizedPath : option jsstring
}.

(** The object literals [{}] and [{ os }]. *)
Definition no_validation_options : ValidationOptions :=
  {| vo_os := None; allowTraversal := None; maxLength := None;
     allowAbsolute := None; allowRelative := None |}.

Definition no_normalization_options : NormalizationOptions :=
  {| no_os := None; forceForwardSlash := None;
     removeTrailingSlash := None; toLowerCase := None |}.

Definition only_os (os : OSType) : NormalizationOptions :=
  {| no_os := Some os; forceForwardSlash := None;
     removeTrailingSlash := None; toLowerCase := None |}.

(** The codes of the errors of a result, in the order of the list ([[]]
    when the result has no [errors] property). *)
Definition error_codes (r : ValidationResult) : list ValidationErrorCode :=
  match errors r with
  | Some l => map code l
  | None => []
  end.

(** ** The host

    What the process runs on: the string that [os.platform()] returns
    (['win32'], ['linux'], ['darwin'], ...).  It decides what
    [getCurrentOS] answers and which implementation [path] is. *)
Record Host : Type := { platform : jsstring }.

Definition posix_host : Host := {| platform := js "linux" |}.
Definition windows_host : Host := {| platform := js "win32" |}.

Definition is_win32 (host : Host) : bool :=
  jsstring_eqb (platform host) (js "win32").

Definition path_normalize (host : Host) : jsstring -> jsstring :=
  if is_win32 host then NodePath.win32.normalize
  else NodePath.posix.normalize.

Definition path_isAbsolute (host : Host) : jsstring -> bool :=
  if is_win32 host then NodePath.win32.isAbsolute
  else NodePath.posix.isAbsolute.

Definition path_join (host : Host) : list jsstring -> jsstring :=
  if is_win32 host then NodePath.win32.join
  else NodePath.posix.join.

(** ** [src/lib/pathUtils.ts] *)

Definition WINDOWS_MAX_PATH : Z := 260.
Definition POSIX_MAX_PATH : Z := 4096.

(** The character class of the regular expression: the seven characters
    less-than (60), greater-than (62), colon (58), double quote (34),
    vertical bar (124), question mark (63) and asterisk (42), and the
    control characters [\x00] to [\x1F]. *)
Definition WINDOWS_ILLEGAL_CHARS (c : ascii) : bool :=
  let n := nat_of_ascii c in
  ((n =? 60) || (n =? 62) || (n =? 58) || (n =? 34) || (n =? 124)
   || (n =? 63) || (n =? 42) || (n <=? 31))%nat.

(** The character class of [/\x00/g] *)
Definition POSIX_ILLEGAL_CHARS (c : ascii) : bool :=
  (nat_of_ascii c =? 0)%nat.

Definition getCurrentOS (host : Host) : OSType :=
  if is_win32 host then windows else posix.

Definition getMaxPathLength (os : OSType) : Z :=
  if OSType_eqb os windows then WINDOWS_MAX_PATH else POSIX_MAX_PATH.

(** [options.os === 'auto' || !options.os ? getCurrentOS() : options.os] *)
Definition resolve_os (host : Host) (os : option OSType) : OSType :=
  match os with
  | Some auto | None => getCurrentOS host
  | Some o => o
  end.

(** [x ?? d] *)
Definition nullish {A : Type} (x : option A) (d : A) : A :=
  match x with
  | Some v => v
  | None => d
  end.

(** [x || d] for a number [x]: [undefined] and [0] are falsy.  The
    numbers of the model are the integers; [NaN], falsy too, is not
    among them. *)
Definition number_or (x : option Z) (d : Z) : Z :=
  match x with
  | Some v => if (v =? 0)%Z then d else v
  | None => d
  end.

Definition illegal_chars_of (os : OSType) : ascii -> bool :=
  if OSType_eqb os windows then WINDOWS_ILLEGAL_CHARS
  else POSIX_ILLEGAL_CHARS.

Definition normalizePath (host : Host) (pathStr : jsstring)
  (options : NormalizationOptions) : jsstring :=
  match pathStr with
  | [] => []
  | _ :: _ =>
      let os := resolve_os host (no_os options) in
      let forceForwardSlash := nullish (forceForwardSlash options) true in
      let removeTrailingSlash :=
        nullish (removeTrailingSlash options) true in
      let toLowerCase :=
        nullish (toLowerCase options) (OSType_eqb os windows) in
      let normalized := path_normalize host pathStr in
      if jsstring_eqb normalized (js ".") then pathStr
      else
        let normalized :=
          if forceForwardSlash then JS.replace_backslashes normalized
          else normalized in
        let normalized :=
          if removeTrailingSlash && (JS.length normalized >? 1)%Z
          then JS.replace_trailing_separator normalized
          else normalized in
        let normalized :=
          if toLowerCase then JS.toLowerCase normalized else normalized in
        normalized
  end.

(** [errors.push(e)] when [cond] holds *)
Definition push_if (cond : bool) (e : ValidationError)
  (errors : list ValidationError) : list ValidationError :=
  if cond then errors ++ [e] else errors.

Definition validatePath (host : Host) (pathStr : jsstring)
  (options : ValidationOptions) : ValidationResult :=
  let os := resolve_os host (vo_os options) in
  let maxLength := number_or (maxLength options) (getMaxPathLength os) in
  let allowTraversal := nullish (allowTraversal options) false in
  let allowAbsolute := nullish (allowAbsolute options) true in
  let allowRelative := nullish (allowRelative options) true in
  match pathStr with
  | [] =>
      {| isValid := false;
         errors := Some [ {| code := EMPTY_PATH;
                             message := js "Path cannot be empty";
                             position := None |} ];
         normalizedPath := None |}
  | _ :: _ =>
      let errors := [] in
      (* Check path length *)
      let errors :=
        push_if (JS.length pathStr >? maxLength)%Z
          {| code := TOO_LONG;
             message := js "Path exceeds maximum length of "
                          ++ JS.numberToString maxLength
                          ++ js " characters";
             position := None |} errors in
      (* Check for illegal characters *)
      let illegalMatch := JS.match_global (illegal_chars_of os) pathStr in
      let errors :=
        match illegalMatch with
        | Some m =>
            errors ++
            [ {| code := ILLEGAL_CHAR;
                 message := js "Path contains illegal character: "
                              ++ nth 0 (JS.matches m) [];
                 position := JS.index m |} ]
        | None => errors
        end in
      (* Check for path traversal *)
      let errors :=
        push_if (negb allowTraversal && JS.includes pathStr (js ".."))
          {| code := TRAVERSAL;
             message := js "Path traversal (..) is not allowed";
             position := None |} errors in
      (* Check absolute/relative path restrictions *)
      let isAbsolute := path_isAbsolute host pathStr in
      let errors :=
        push_if (isAbsolute && negb allowAbsolute)
          {| code := ABSOLUTE_NOT_ALLOWED;
             message := js "Absolute paths are not allowed";
             position := None |} errors in
      let errors :=
        push_if (negb isAbsolute && negb allowRelative)
          {| code := RELATIVE_NOT_ALLOWED;
             message := js "Relative paths are not allowed";
             position := None |} errors in
      if (Z.of_nat (List.length errors) =? 0)%Z
      then {| isValid := true;
              errors := None;
              normalizedPath := Some (normalizePath host pathStr (only_os os)) |}
      else {| isValid := false;
              errors := Some errors;
              normalizedPath := None |}
  end.

Definition joinPaths (host : Host) (paths : list jsstring) : jsstring :=
  path_join host paths.

Definition isPathTraversal (host : Host) (pathStr : jsstring) : bool :=
  match pathStr with
  | [] => false
  | _ :: _ =>
      let normalized := normalizePath host pathStr no_normalization_options in
      JS.includes normalized (js "..")
  end.

(** [os] is [None] when the caller leaves the argument out: the default
    value [getCurrentOS()] is taken then. *)
Definition sanitizePath (host : Host) (pathStr : jsstring)
  (os : option OSType) : jsstring :=
  let os := match os with Some o => o | None => getCurrentOS host end in
  match pathStr with
  | [] => []
  | _ :: _ =>
      let sanitized :=
        JS.replace_global_empty (illegal_chars_of os) pathStr in
      normalizePath host sanitized (only_os os)
  end.

(** [getRelativePath] on a POSIX host, where [path] is [path.posix]:
    [path.relative] resolves both paths against the current directory
    of the process, [cwd] here.  ([path.win32.relative], which is what
    runs on a Windows host, is not modelled.) *)
Module PosixHost.

Definition getRelativePath (cwd from to : jsstring) : jsstring :=
  NodePath.posix.relative cwd from to.

End PosixHost.

(** ** Notions the properties are stated with *)

(** [occurs_before a b l]: the list [l] holds an [a] at some index and a
    [b] at a later one. *)
Fixpoint occurs_before (a b : ValidationErrorCode)
  (l : list ValidationErrorCode) : bool :=
  match l with
  | [] => false
  | x :: t =>
      (ValidationErrorCode_eqb x a && existsb (ValidationErrorCode_eqb b) t)
      || occurs_before a b t
  end.

(** The string has a character of the class. *)
Definition has_char (cls : ascii -> bool) (s : jsstring) : bool :=
  existsb cls s.

(** The options object [{ os: 'windows' }]. *)
Definition os_windows_only : ValidationOptions :=
  {| vo_os := Some windows; allowTraversal := None; maxLength := None;
     allowAbsolute := None; allowRelative := None |}.

(** The options object [{ maxLength: m }]. *)
Definition maxLength_only (m : Z) : ValidationOptions :=
  {| vo_os := None; allowTraversal := None; maxLength := Some m;
     allowAbsolute := None; allowRelative := None |}.

(** The host that stands for the hosts of its kind: [windows_host] for
    a Windows host, [posix_host] for any other. *)
Definition canonical_host (host : Host) : Host :=
  if is_win32 host then windows_host else posix_host.

(** What the checks of [validatePath] find on a non-empty path, as the
    list of error codes in the order of the checks. *)
Definition check_codes (host : Host) (pathStr : jsstring)
  (options : ValidationOptions) : list ValidationErrorCode :=
  let os := resolve_os host (vo_os options) in
  let isAbsolute := path_isAbsolute host pathStr in
  (if (JS.length pathStr
       >? number_or (maxLength options) (getMaxPathLength os))%Z
   then [TOO_LONG] else [])
  ++ (if has_char (illegal_chars_of os) pathStr
      then [ILLEGAL_CHAR] else [])
  ++ (if negb (nullish (allowTraversal options) false)
         && JS.includes pathStr (js "..")
      then [TRAVERSAL] else [])
  ++ (if isAbsolute && negb (nullish (allowAbsolute options) true)
      then [ABSOLUTE_NOT_ALLOWED] else [])
  ++ (if negb isAbsolute && negb (nullish (allowRelative options) true)
      then [RELATIVE_NOT_ALLOWED] else []).

(** The options object [{ allowTraversal: false }]. *)
Definition traversal_forbidden : ValidationOptions :=
  {| vo_os := None; allowTraversal := Some false; maxLength := None;
     allowAbsolute := None; allowRelative := None |}.

(** The non-empty arguments of [join] with [sep] between them. *)
Fixpoint join_with (sep : ascii) (segments : list jsstring) : jsstring :=
  match segments with
  | [] => []
  | [s] => s
  | s :: rest => s ++ sep :: join_with sep rest
  end.

Definition non_empty (s : jsstring) : bool := (JS.length s >? 0)%Z.

(** ** Lexical resolution, segment by segment

    What [normalizeString] computes, said on segments: the resolved
    segments are kept on a stack, the last one on top (first in the
    list). *)

(** A segment ends: the empty segment and [.] change nothing, [..]
    removes the segment on top, unless that is a [..] or the stack is
    empty (the [..] is then kept when going above the root is allowed),
    any other segment goes on top. *)
Definition push_segment (allowAboveRoot : bool) (stack : list jsstring)
  (seg : jsstring) : list jsstring :=
  if jsstring_eqb seg [] || jsstring_eqb seg (js ".") then stack
  else if jsstring_eqb seg (js "..") then
    match stack with
    | top :: rest =>
        if jsstring_eqb top (js "..")
        then (if allowAboveRoot then seg :: stack else stack)
        else rest
    | [] => if allowAboveRoot then [seg] else []
    end
  else seg :: stack.

(** The stack after the characters [rest], [cur] being the characters
    read since the last separator. *)
Fixpoint resolve_from (allowAboveRoot : bool) (isSep : ascii -> bool)
  (stack : list jsstring) (cur rest : jsstring) : list jsstring :=
  match rest with
  | [] => push_segment allowAboveRoot stack cur
  | c :: t =>
      if isSep c
      then resolve_from allowAboveRoot isSep
             (push_segment allowAboveRoot stack cur) [] t
      else resolve_from allowAboveRoot isSep stack (cur ++ [c]) t
  end.

(** The segments of a stack, bottom first, with [sep] between them. *)
Fixpoint join_stack (sep : ascii) (stack : list jsstring) : jsstring :=
  match stack with
  | [] => []
  | [top] => top
  | top :: rest => join_stack sep rest ++ sep :: top
  end.

(** The value of [dots] when [cur] is what was read since the last
    separator: the number of characters when all are dots, else [-1]. *)
Definition dots_of (cur : jsstring) : Z :=
  if forallb (fun d => d =? ".")%char cur
  then Z.of_nat (List.length cur) else (-1)%Z.

(** No character of the string is a separator. *)
Definition separator_free (isSep : ascii -> bool) (s : jsstring) : Prop :=
  Forall (fun c => isSep c = false) s.

(** Every segment of the stack is non-empty and separator-free. *)
Definition stack_ok (isSep : ascii -> bool) (stack : list jsstring) : Prop :=
  Forall (fun s => s <> [] /\ separator_free isSep s) stack.

(** What [res] holds before its last segment: nothing, or the segments
    below the top and one separator. *)
Definition stack_base (sep : ascii) (rest : list jsstring) : jsstring :=
  match rest with
  | [] => []
  | _ :: _ => join_stack sep rest ++ [sep]
  end.

(** What holds of the variables of the loop of [normalizeString] when
    the characters read so far are [pre ++ cur], [cur] being those read
    since the last separator, and [stack] the segments resolved in
    [pre]. *)
Definition loop_invariant (sep : ascii) (isSep : ascii -> bool)
  (st : NodePath.NSState) (stack : list jsstring) (pre cur : jsstring)
  : Prop :=
  NodePath.res st = join_stack sep stack
  /\ NodePath.lastSegmentLength st = JS.length (hd [] stack)
  /\ NodePath.lastSlash st = (JS.length pre - 1)%Z
  /\ NodePath.dots st = dots_of cur
  /\ stack_ok isSep stack
  /\ separator_free isSep cur
  /\ (isSep (NodePath.code st) = true -> cur = []).

(** A stack that resolution leaves as it is: each segment, pushed on
    those below it, stays on top of them. *)
Fixpoint normal_stack (allowAboveRoot : bool) (isSep : ascii -> bool)
  (stack : list jsstring) : Prop :=
  match stack with
  | [] => True
  | s :: below =>
      push_segment allowAboveRoot below s = s :: below
      /\ separator_free isSep s
      /\ normal_stack allowAboveRoot isSep below
  end.

(** The separator [ts] when [b] holds, nothing otherwise. *)
Definition sep_if (b : bool) (ts : ascii) : jsstring :=
  if b then [ts] else [].

(** The normal paths written with the separator [ts]: the root, the
    current directory, and the resolved segments of a relative or an
    absolute path, with or without a separator at the end. *)
Inductive normal_text (ts : ascii) (isSep : ascii -> bool)
  : jsstring -> Prop :=
| normal_root : normal_text ts isSep [ts]
| normal_dot : normal_text ts isSep (js ".")
| normal_dot_sep : normal_text ts isSep ["."%char; ts]
| normal_relative (stack : list jsstring) (trailing : bool) :
    stack <> [] ->
    normal_stack true isSep stack ->
    normal_text ts isSep (join_stack ts stack ++ sep_if trailing ts)
| normal_absolute (stack : list jsstring) (trailing : bool) :
    stack <> [] ->
    normal_stack false isSep stack ->
    normal_text ts isSep (ts :: join_stack ts stack ++ sep_if trailing ts).

(** The string has no backslash; the string has no colon. *)
Definition backslash_free (s : jsstring) : Prop :=
  Forall (fun c => c <> "\"%char) s.





(** ** Notions of the further properties *)

(** The options [{ ...options, os }]. *)
Definition with_os (os : OSType) (options : ValidationOptions)
  : ValidationOptions :=
  {| vo_os := Some os;
     allowTraversal := allowTraversal options;
     maxLength := maxLength options;
     allowAbsolute := allowAbsolute options;
     allowRelative := allowRelative options |}.

(** The limit of the length check. *)
Definition effective_limit (host : Host) (options : ValidationOptions) : Z :=
  number_or (maxLength options)
    (getMaxPathLength (resolve_os host (vo_os options))).

(** The five checks of [validatePath] on a non-empty path all pass. *)
Definition checks_pass (host : Host) (pathStr : jsstring)
  (options : ValidationOptions) : Prop :=
  (JS.length pathStr <= effective_limit host options)%Z
  /\ has_char (illegal_chars_of (resolve_os host (vo_os options))) pathStr
     = false
  /\ (nullish (allowTraversal options) false = true
      \/ JS.includes pathStr (js "..") = false)
  /\ (path_isAbsolute host pathStr = true ->
      nullish (allowAbsolute options) true = true)
  /\ (path_isAbsolute host pathStr = false ->
      nullish (allowRelative options) true = true).

(** The character class [sanitizePath] deletes: the one of its [os]
    argument, of [getCurrentOS()] when the argument is left out. *)
Definition sanitize_class (host : Host) (os : option OSType)
  : ascii -> bool :=
  illegal_chars_of
    (match os with Some o => o | None => getCurrentOS host end).

(** What [path.posix.normalize] makes of the resolved segments [stack]
    of a path, absolute or not, with a slash at its end or not. *)
Definition posix_text (abs trailing : bool) (stack : list jsstring)
  : jsstring :=
  match stack with
  | [] => if abs then js "/" else if trailing then js "./" else js "."
  | _ :: _ =>
      (if abs then js "/" else []) ++ join_stack "/" stack
      ++ sep_if trailing "/"
  end.

(** The path starts with a slash; the path ends with a slash. *)
Definition starts_with_slash (p : jsstring) : bool :=
  JS.codeAt NodePath.isPosixPathSeparator p 0.

Definition ends_with_slash (p : jsstring) : bool :=
  JS.codeAt NodePath.isPosixPathSeparator p (JS.length p - 1).

(** The resolved segments of a POSIX path. *)
Definition posix_segments (p : jsstring) : list jsstring :=
  resolve_from (negb (starts_with_slash p)) NodePath.isPosixPathSeparator
    [] [] p.

(** [s.includes('..')] *)
Definition has_dot_dot (s : jsstring) : bool := JS.includes s (js "..").

(** The segments of a path, empty ones too: what stands between its
    separators.  [cur] holds the characters read since the last one. *)
Fixpoint segments_from (isSep : ascii -> bool) (cur rest : jsstring)
  : list jsstring :=
  match rest with
  | [] => [cur]
  | c :: t =>
      if isSep c then cur :: segments_from isSep [] t
      else segments_from isSep (cur ++ [c]) t
  end.

Definition posix_path_segments (p : jsstring) : list jsstring :=
  segments_from NodePath.isPosixPathSeparator [] p.

(** The segments [resolve] ends with, top of the stack first. *)
Definition resolved_segments (cwd : jsstring) (args : list jsstring)
  : list jsstring :=
  resolve_from false NodePath.isPosixPathSeparator [] []
    (fst (NodePath.posix.resolve_loop (rev args ++ [cwd]) [] false)).

(** The first loop of [relative] on what is left of the two paths. *)
Fixpoint common_scan (f t : jsstring) (i lastCommonSep : Z) : Z * Z :=
  match f, t with
  | a :: f', b :: t' =>
      if (a =? b)%char
      then common_scan f' t' (i + 1)%Z
             (if (a =? "/")%char then i else lastCommonSep)
      else (i, lastCommonSep)
  | _, _ => (i, lastCommonSep)
  end.

Definition count_slashes (s : jsstring) : nat :=
  List.length (filter NodePath.isPosixPathSeparator s).

(** [k] times [..], with slashes between them. *)
Fixpoint dot_dots (k : nat) : jsstring :=
  match k with
  | O => []
  | S k' =>
      match k' with
      | O => js ".."
      | S _ => dot_dots k' ++ js "/.."
      end
  end.

(** * Properties *)

(** ** [path]: the examples of Node's documentation and test suite

    What [path.posix] and [path.win32] are documented to return on their
    examples is what the transcription computes. *)

Example posix_normalize_examples :
  map (fun p => NodePath.posix.normalize (js p))
    [ "/foo/bar//baz/asdf/quux/.."; "./fixtures///b/../b/c.js";
      "/foo/../../../bar"; "a//b//."; "///..//./foo/.//bar";
      "bar/foo../../"; "../.../.././.../../../bar";
      "../../../foo/../../../bar/../../"; "foo/bar\baz" ]%string
  = map js
      [ "/foo/bar/baz/asdf"; "fixtures/b/c.js";
        "/bar"; "a/b"; "/foo/bar";
        "bar/"; "../../bar";
        "../../../../../../"; "foo/bar\baz" ]%string.
Proof. reflexivity. Qed.

Example win32_normalize_examples :
  map (fun p => NodePath.win32.normalize (js p))
    [ "C:\temp\\foo\bar\..\"; "C:////temp\\/\/\/foo/bar";
      "./fixtures///b/../b/c.js"; "/foo/../../../bar";
      "//server/share/dir/file.ext"; "C:"; "C:..\..\abc\..\def";
      "C:\."; "file:stream"; "bar\foo..\..\"; "foo/bar\baz" ]%string
  = map js
      [ "C:\temp\foo\"; "C:\temp\foo\bar";
        "fixtures\b\c.js"; "\bar";
        "\\server\share\dir\file.ext"; "C:."; "C:..\..\def";
        "C:\"; "file:stream"; "bar\"; "foo\bar\baz" ]%string.
Proof. reflexivity. Qed.

Example join_examples :
  NodePath.posix.join (map js ["/foo"; "bar"; "baz/asdf"; "quux"; ".."]%string)
  = js "/foo/bar/baz/asdf"
  /\ NodePath.posix.join (map js ["."; "x/b"; ".."; "/b/c.js"]%string)
     = js "x/b/c.js"
  /\ NodePath.win32.join (map js ["//foo"; "bar"]%string)
     = js "\\foo\bar\"
  /\ NodePath.win32.join (map js ["///foo/bar"]%string) = js "\foo\bar"
  /\ NodePath.win32.join (map js ["c:"; "file"]%string) = js "c:\file".
Proof. repeat split. Qed.

Example isAbsolute_examples :
  map (fun p => NodePath.posix.isAbsolute (js p))
    ["/foo/bar"; "/baz/.."; "qux/"; "."; ""]%string
  = [true; true; false; false; false]
  /\ map (fun p => NodePath.win32.isAbsolute (js p))
       ["//server"; "\\server"; "C:/foo/.."; "C:\foo\.."; "bar\baz";
        "bar/baz"; "."; "C:"]%string
     = [true; true; true; true; false; false; false; false].
Proof. split; reflexivity. Qed.

(** ** The host: only [platform() === 'win32'] matters *)

Lemma normalizePath_host (host : Host) :
  normalizePath host = normalizePath (canonical_host host).
Proof.
  unfold normalizePath, path_normalize, resolve_os, getCurrentOS,
    canonical_host.
  destruct (is_win32 host); reflexivity.
Qed.

Lemma validatePath_host (host : Host) :
  validatePath host = validatePath (canonical_host host).
Proof.
  unfold validatePath. rewrite (normalizePath_host host).
  unfold path_isAbsolute, resolve_os, getCurrentOS, canonical_host.
  destruct (is_win32 host); reflexivity.
Qed.

Lemma isPathTraversal_host (host : Host) :
  isPathTraversal host = isPathTraversal (canonical_host host).
Proof.
  unfold isPathTraversal. rewrite (normalizePath_host host).
  unfold canonical_host. destruct (is_win32 host); reflexivity.
Qed.

Lemma joinPaths_host (host : Host) :
  joinPaths host = joinPaths (canonical_host host).
Proof.
  unfold joinPaths, path_join, canonical_host.
  destruct (is_win32 host); reflexivity.
Qed.

Lemma sanitizePath_host (host : Host) :
  sanitizePath host = sanitizePath (canonical_host host).
Proof.
  unfold sanitizePath. rewrite (normalizePath_host host).
  unfold getCurrentOS, canonical_host.
  destruct (is_win32 host); reflexivity.
Qed.

(** Settles a goal about a concrete path on an arbitrary host by running
    the code on the two kinds of host. *)
Ltac on_each_host host :=
  rewrite ?(validatePath_host host), ?(isPathTraversal_host host),
    ?(joinPaths_host host), ?(sanitizePath_host host),
    ?(normalizePath_host host);
  unfold canonical_host; destruct (is_win32 host); vm_compute.

(** ** The checks of [validatePath] *)

Lemma match_global_has_char (cls : ascii -> bool) (s : jsstring) :
  JS.match_global cls s =
  if has_char cls s
  then Some {| JS.matches := map (fun c => [c]) (filter cls s);
               JS.index := None |}
  else None.
Proof.
  unfold JS.match_global, has_char.
  induction s as [|c t IH]; simpl; [reflexivity|].
  destruct (cls c); simpl; [reflexivity|].
  destruct (filter cls t); destruct (existsb cls t);
    first [exact IH | discriminate IH].
Qed.

Lemma match_global_index (cls : ascii -> bool) (s : jsstring)
  (m : JS.RegExpMatchArray) :
  JS.match_global cls s = Some m -> JS.index m = None.
Proof.
  rewrite match_global_has_char.
  destruct (has_char cls s); [|discriminate].
  intros [= <-]. reflexivity.
Qed.

(** The error list of a non-empty path has one entry per failed check,
    in the order of the checks. *)
Lemma validatePath_error_codes (host : Host) (c : ascii) (t : jsstring)
  (options : ValidationOptions) :
  error_codes (validatePath host (c :: t) options)
  = check_codes host (c :: t) options.
Proof.
  unfold validatePath, check_codes, error_codes, push_if.
  rewrite match_global_has_char.
  destruct (JS.length (c :: t) >? _)%Z;
    destruct (has_char _ (c :: t));
    destruct (negb (nullish (allowTraversal options) false)
              && JS.includes (c :: t) (js ".."));
    destruct (path_isAbsolute host (c :: t));
    destruct (negb (nullish (allowAbsolute options) true));
    destruct (negb (nullish (allowRelative options) true));
    reflexivity.
Qed.

(** A path is valid exactly when no check fails. *)
Lemma validatePath_isValid (host : Host) (c : ascii) (t : jsstring)
  (options : ValidationOptions) :
  isValid (validatePath host (c :: t) options) = true
  <-> check_codes host (c :: t) options = [].
Proof.
  rewrite <- validatePath_error_codes.
  unfold validatePath, error_codes, push_if.
  rewrite match_global_has_char.
  destruct (JS.length (c :: t) >? _)%Z;
    destruct (has_char _ (c :: t));
    destruct (negb (nullish (allowTraversal options) false)
              && JS.includes (c :: t) (js ".."));
    destruct (path_isAbsolute host (c :: t));
    destruct (negb (nullish (allowAbsolute options) true));
    destruct (negb (nullish (allowRelative options) true));
    simpl; split; congruence.
Qed.

(** ** The empty path *)

(** C7: [validatePath] on the empty string returns, on every host and
    under every options value, the invalid result whose error list is
    exactly the one [EMPTY_PATH] error; nothing else is in the list. *)
Theorem validatePath_empty_path (host : Host) (options : ValidationOptions) :
  validatePath host [] options
  = {| isValid := false;
       errors := Some [ {| code := EMPTY_PATH;
                           message := js "Path cannot be empty";
                           position := None |} ];
       normalizedPath := None |}
  /\ error_codes (validatePath host [] options) = [EMPTY_PATH].
Proof. split; reflexivity. Qed.

(** ** Illegal characters *)

(** A path with an illegal character gets exactly one [ILLEGAL_CHAR]
    error, and that error never has a [position]: [match] is called with
    a global expression, whose result has no [index]. *)
Lemma validatePath_illegal_char_error (host : Host) (c : ascii)
  (t : jsstring) (options : ValidationOptions) :
  has_char (illegal_chars_of (resolve_os host (vo_os options))) (c :: t)
  = true ->
  exists (e : ValidationError) (l : list ValidationError),
    errors (validatePath host (c :: t) options) = Some l
    /\ filter (fun x => ValidationErrorCode_eqb (code x) ILLEGAL_CHAR) l
       = [e]
    /\ position e = None.
Proof.
  intros H. unfold validatePath, push_if.
  rewrite match_global_has_char, H.
  destruct (JS.length (c :: t) >? _)%Z;
    destruct (negb (nullish (allowTraversal options) false)
              && JS.includes (c :: t) (js ".."));
    destruct (path_isAbsolute host (c :: t));
    destruct (negb (nullish (allowAbsolute options) true));
    destruct (negb (nullish (allowRelative options) true));
    simpl; eexists; eexists; repeat split.
Qed.

(** C3: on ['path/to/file?.txt'] with [{ os: 'windows' }] the result is
    invalid and its only error is [ILLEGAL_CHAR], but the error has no
    [position], although the first illegal character, the question mark,
    is at index 12. *)
Theorem validatePath_illegal_char_without_position (host : Host) :
  validatePath host (js "path/to/file?.txt") os_windows_only
  = {| isValid := false;
       errors :=
         Some [ {| code := ILLEGAL_CHAR;
                   message := js "Path contains illegal character: ?";
                   position := None |} ];
       normalizedPath := None |}
  /\ JS.indexOf_from "?" (js "path/to/file?.txt") 0 = 12%Z
  /\ has_char WINDOWS_ILLEGAL_CHARS (js "path/to/file") = false.
Proof. on_each_host host; repeat split. Qed.

(** ** The order of the errors *)

(** C4, as stated, fails: in the error list of
    ['../path/to/file?.txt'] under [{ os: 'windows' }] no [TRAVERSAL]
    comes before an [ILLEGAL_CHAR]. *)
Lemma validatePath_traversal_not_before_illegal_char :
  occurs_before TRAVERSAL ILLEGAL_CHAR
    (error_codes
       (validatePath posix_host (js "../path/to/file?.txt") os_windows_only))
  = false.
Proof. reflexivity. Qed.

(** C4, amended: on every host the result for ['../path/to/file?.txt']
    under [{ os: 'windows' }] is invalid and its error list is
    [ILLEGAL_CHAR] followed by [TRAVERSAL]: both are there, in the order
    of the checks. *)
Theorem validatePath_illegal_char_before_traversal (host : Host) :
  let r := validatePath host (js "../path/to/file?.txt") os_windows_only in
  isValid r = false
  /\ error_codes r = [ILLEGAL_CHAR; TRAVERSAL]
  /\ occurs_before ILLEGAL_CHAR TRAVERSAL (error_codes r) = true.
Proof. on_each_host host; repeat split. Qed.

(** ** The two notions of traversal *)

(** C5, as stated, fails: [isPathTraversal('a..b')] is not [false]. *)
Lemma isPathTraversal_flags_a_dot_dot_b :
  ~ (In TRAVERSAL
       (error_codes (validatePath posix_host (js "a..b") traversal_forbidden))
     /\ isPathTraversal posix_host (js "a..b") = false).
Proof. intros [_ H]. vm_compute in H. discriminate H. Qed.

(** C5, amended: on ['a..b'] the two agree, both flag it; they disagree
    on ['a/../b'], which [validatePath] flags (the raw string has [..])
    and [isPathTraversal] does not (the normalized string is ['b']). *)
Theorem traversal_checks_on_a_dot_dot_b (host : Host) :
  In TRAVERSAL
    (error_codes (validatePath host (js "a..b") traversal_forbidden))
  /\ isPathTraversal host (js "a..b") = true
  /\ In TRAVERSAL
       (error_codes (validatePath host (js "a/../b") traversal_forbidden))
  /\ isPathTraversal host (js "a/../b") = false.
Proof. on_each_host host; repeat split; simpl; auto. Qed.

(** C6: [isPathTraversal] is [false] on the empty string; on a non-empty
    string it is [true] exactly when [normalizePath] with the default
    options gives a string that contains [..]; it is [true] on
    ['path/./to/../../../file.txt'] and [false] on ['./path/to/file.txt']. *)
Theorem isPathTraversal_spec (host : Host) :
  isPathTraversal host [] = false
  /\ (forall (c : ascii) (t : jsstring),
         isPathTraversal host (c :: t) = true
         <-> JS.includes
               (normalizePath host (c :: t) no_normalization_options)
               (js "..") = true)
  /\ isPathTraversal host (js "path/./to/../../../file.txt") = true
  /\ isPathTraversal host (js "./path/to/file.txt") = false.
Proof.
  split; [reflexivity|]. split; [intros c t; reflexivity|].
  on_each_host host; split; reflexivity.
Qed.

(** ** The length limit *)

(** C8: the limit is [options.maxLength || getMaxPathLength(os)], and
    [0 || d] is [d]: with [maxLength: 0] the given value is not the
    limit.  ['a'] is longer than 0 and gets no [TOO_LONG] error.  (The
    options beside it are defaulted with [??], which keeps a given
    [false].) *)
Lemma validatePath_maxLength_zero_ignored :
  (JS.length (js "a") > 0)%Z
  /\ ~ In TOO_LONG
       (error_codes (validatePath posix_host (js "a") (maxLength_only 0))).
Proof. split; [reflexivity|]. vm_compute. tauto. Qed.

(** The list of codes has [TOO_LONG] exactly when the length check
    fails. *)
Lemma check_codes_too_long (host : Host) (p : jsstring)
  (options : ValidationOptions) :
  In TOO_LONG (check_codes host p options)
  <-> (JS.length p
       > number_or (maxLength options)
           (getMaxPathLength (resolve_os host (vo_os options))))%Z.
Proof.
  unfold check_codes. rewrite <- Z.gtb_gt.
  destruct (JS.length p >? _)%Z;
    destruct (has_char _ p);
    destruct (negb (nullish (allowTraversal options) false)
              && JS.includes p (js ".."));
    destruct (path_isAbsolute host p);
    destruct (negb (nullish (allowAbsolute options) true));
    destruct (negb (nullish (allowRelative options) true));
    simpl; intuition discriminate.
Qed.

(** Where the given [maxLength] is the limit: for a non-empty path and
    a [maxLength] that is an integer other than 0, there is a
    [TOO_LONG] error exactly when the path is longer than
    [maxLength]. *)
Theorem validatePath_maxLength (host : Host) (c : ascii) (t : jsstring)
  (options : ValidationOptions) (m : Z) :
  maxLength options = Some m ->
  m <> 0%Z ->
  (In TOO_LONG (error_codes (validatePath host (c :: t) options))
   <-> (JS.length (c :: t) > m)%Z).
Proof.
  intros Hm H0. rewrite validatePath_error_codes, check_codes_too_long.
  rewrite Hm. unfold number_or.
  destruct (Z.eqb_spec m 0); [contradiction|]. reflexivity.
Qed.

(** For instance: with [maxLength: 3], ['abcd'] is too long. *)
Lemma validatePath_maxLength_witness :
  maxLength (maxLength_only 3) = Some 3%Z
  /\ 3%Z <> 0%Z
  /\ In TOO_LONG
       (error_codes (validatePath posix_host (js "abcd") (maxLength_only 3))).
Proof.
  split; [reflexivity|]. split; [discriminate|].
  apply (proj2 (validatePath_maxLength posix_host "a" (js "bcd")
                  (maxLength_only 3) 3 eq_refl ltac:(discriminate))).
  reflexivity.
Defined.

(** What the code does with [maxLength: 0]: as [0 || d] is [d], the
    limit is the default of the resolved OS. *)
Lemma validatePath_maxLength_zero (host : Host) (c : ascii) (t : jsstring)
  (options : ValidationOptions) :
  maxLength options = Some 0%Z ->
  (In TOO_LONG (error_codes (validatePath host (c :: t) options))
   <-> (JS.length (c :: t)
        > getMaxPathLength (resolve_os host (vo_os options)))%Z).
Proof.
  intros Hm. rewrite validatePath_error_codes, check_codes_too_long.
  rewrite Hm. reflexivity.
Qed.

(** ** [joinPaths] *)

Lemma posix_join_args_spec (args : list jsstring) (joined : jsstring) :
  NodePath.posix.join_args args (Some joined)
  = Some (join_with "/" (joined :: filter non_empty args)).
Proof.
  revert joined. induction args as [|a rest IH]; intros joined.
  - reflexivity.
  - cbn [NodePath.posix.join_args filter]. unfold non_empty at 1.
    destruct (JS.length a >? 0)%Z.
    + rewrite IH. cbn [join_with].
      destruct (filter non_empty rest); cbn [join_with];
        rewrite <- ?app_assoc; reflexivity.
    + apply IH.
Qed.

Lemma posix_join_args_none (args : list jsstring) :
  NodePath.posix.join_args args None
  = match filter non_empty args with
    | [] => None
    | l => Some (join_with "/" l)
    end.
Proof.
  induction args as [|a rest IH]; [reflexivity|].
  cbn [NodePath.posix.join_args filter]. unfold non_empty at 1.
  destruct (JS.length a >? 0)%Z; [|exact IH].
  apply posix_join_args_spec.
Qed.

(** C9, as stated, fails: one segment does not come back unchanged,
    [joinPaths('a//b')] is ['a/b']. *)
Lemma joinPaths_one_segment_normalized :
  joinPaths posix_host [js "a//b"] = js "a/b"
  /\ joinPaths posix_host [js "a//b"] <> js "a//b".
Proof. split; [reflexivity|]. vm_compute. discriminate. Qed.

Lemma win32_join_args_spec (args : list jsstring)
  (joined firstPart : jsstring) :
  NodePath.win32.join_args args (Some (joined, firstPart))
  = Some (join_with "\" (joined :: filter non_empty args), firstPart).
Proof.
  revert joined. induction args as [|a rest IH]; intros joined.
  - reflexivity.
  - cbn [NodePath.win32.join_args filter]. unfold non_empty at 1.
    destruct (JS.length a >? 0)%Z.
    + rewrite IH. cbn [join_with].
      destruct (filter non_empty rest); cbn [join_with];
        rewrite <- ?app_assoc; reflexivity.
    + apply IH.
Qed.

Lemma win32_join_args_none (args : list jsstring) :
  NodePath.win32.join_args args None
  = match filter non_empty args with
    | [] => None
    | first :: rest => Some (join_with "\" (first :: rest), first)
    end.
Proof.
  induction args as [|a rest IH]; [reflexivity|].
  cbn [NodePath.win32.join_args filter]. unfold non_empty at 1.
  destruct (JS.length a >? 0)%Z; [|exact IH].
  apply win32_join_args_spec.
Qed.

(** C9, amended: [joinPaths()] is ['.']; with segments, [joinPaths]
    skips the empty ones, puts the separator of the host between the
    others and returns what [path.normalize] makes of that (on a Windows
    host after the leading slashes of the joined path are replaced), or
    ['.'] when no segment is left: one segment comes back normalized.
    On every host [joinPaths('path')] is ['path'] and
    [joinPaths('path', '', 'file.txt')] normalizes to ['path/file.txt']. *)
Theorem joinPaths_spec (host : Host) :
  joinPaths host [] = js "."
  /\ (forall segments : list jsstring,
         joinPaths host segments
         = match filter non_empty segments with
           | [] => js "."
           | first :: rest =>
               if is_win32 host
               then NodePath.win32.normalize
                      (NodePath.win32.replace_leading_slashes first
                         (join_with "\" (first :: rest)))
               else NodePath.posix.normalize (join_with "/" (first :: rest))
           end)
  /\ joinPaths host [js "path"] = js "path"
  /\ normalizePath host (joinPaths host [js "path"; js ""; js "file.txt"])
       no_normalization_options
     = js "path/file.txt".
Proof.
  split; [on_each_host host; reflexivity|].
  split.
  - intros segments. unfold joinPaths, path_join.
    destruct segments as [|s rest];
      [destruct (is_win32 host); reflexivity|].
    destruct (is_win32 host).
    + unfold NodePath.win32.join. rewrite win32_join_args_none.
      change (Z.of_nat (List.length (s :: rest)) =? 0)%Z with
        (Z.pos (Pos.of_succ_nat (List.length rest)) =? 0)%Z.
      cbn [Z.eqb]. destruct (filter non_empty (s :: rest)); reflexivity.
    + unfold NodePath.posix.join. rewrite posix_join_args_none.
      change (Z.of_nat (List.length (s :: rest)) =? 0)%Z with
        (Z.pos (Pos.of_succ_nat (List.length rest)) =? 0)%Z.
      cbn [Z.eqb]. destruct (filter non_empty (s :: rest)); reflexivity.
  - on_each_host host; split; reflexivity.
Qed.

(** ** [sanitizePath] *)

(** C10: on a Windows host, [sanitizePath('file?.txt', 'auto')] returns
    ['file?.txt']: it deletes the characters of the POSIX class, and the
    question mark, illegal on the OS that ['auto'] stands for there,
    stays.  With the argument left out, or ['windows'], it goes. *)
Theorem sanitizePath_auto_on_windows_host :
  sanitizePath windows_host (js "file?.txt") (Some auto) = js "file?.txt"
  /\ resolve_os windows_host (Some auto) = windows
  /\ has_char (illegal_chars_of (resolve_os windows_host (Some auto)))
       (sanitizePath windows_host (js "file?.txt") (Some auto)) = true
  /\ sanitizePath windows_host (js "file?.txt") None = js "file.txt"
  /\ sanitizePath windows_host (js "file?.txt") (Some windows)
     = js "file.txt".
Proof. repeat split. Qed.

(** ** [normalizePath] never returns the empty string on a non-empty one *)

Lemma length_zero_nil (s : jsstring) :
  (JS.length s =? 0)%Z = true <-> s = [].
Proof.
  unfold JS.length. destruct s; simpl; split; intros H;
    try reflexivity; try discriminate H.
Qed.

Lemma posix_normalize_nonempty (p : jsstring) :
  NodePath.posix.normalize p <> [].
Proof.
  unfold NodePath.posix.normalize.
  destruct (JS.length p =? 0)%Z; [discriminate|].
  set (n := NodePath.normalizeString p _ _ _).
  destruct (JS.length n =? 0)%Z eqn:En.
  - repeat match goal with |- context [if ?b then _ else _] => destruct b end;
      discriminate.
  - assert (Hn : n <> []).
    { intros H. apply length_zero_nil in H. congruence. }
    repeat match goal with |- context [if ?b then _ else _] => destruct b end;
      try discriminate; try assumption;
      destruct n; try discriminate; congruence.
Qed.

Lemma win32_match_root_return (p s : jsstring) :
  NodePath.win32.match_root p = NodePath.win32.Return s -> s <> [].
Proof.
  unfold NodePath.win32.match_root.
  repeat match goal with
         | |- context [if ?b then _ else _] => destruct b
         end; try discriminate.
  intros [= <-]. discriminate.
Qed.

Lemma win32_match_root_device (p d : jsstring) (r : Z) (a : bool) :
  NodePath.win32.match_root p = NodePath.win32.Root r (Some d) a -> d <> [].
Proof.
  unfold NodePath.win32.match_root.
  destruct (JS.codeAt NodePath.isPathSeparator p 0).
  - repeat match goal with
           | |- context [if ?b then _ else _] => destruct b
           end; try discriminate.
    intros [= _ <- _]. discriminate.
  - destruct (JS.codeAt NodePath.isWindowsDeviceRoot p 0) eqn:E0;
      [|discriminate].
    assert (Hd : JS.slice p 0 2 <> []).
    { destruct p; [discriminate E0|]. discriminate. }
    repeat match goal with
           | |- context [if ?b then _ else _] => destruct b
           end; try discriminate; intros [= _ <- _]; exact Hd.
Qed.

Lemma win32_normalize_nonempty (p : jsstring) :
  NodePath.win32.normalize p <> [].
Proof.
  unfold NodePath.win32.normalize.
  destruct (JS.length p =? 0)%Z eqn:E0; [discriminate|].
  destruct (JS.length p =? 1)%Z.
  - destruct (JS.codeAt _ p 0); [discriminate|].
    intros H. apply length_zero_nil in H. congruence.
  - destruct (NodePath.win32.match_root p) as [s|r device a] eqn:Er.
    + eapply win32_match_root_return; eassumption.
    + set (t0 := if (r <? JS.length p)%Z then _ else _).
      destruct device as [d|].
      * apply win32_match_root_device in Er.
        destruct a; destruct d; try congruence; discriminate.
      * destruct a; [discriminate|].
        cbn [negb andb]. rewrite andb_true_r.
        destruct (JS.length t0 =? 0)%Z eqn:Et.
        -- change (JS.length (js ".") >? 0)%Z with true.
           cbn [andb]. destruct (JS.codeAt _ p _); discriminate.
        -- assert (Ht : t0 <> []).
           { intros H. apply length_zero_nil in H. congruence. }
           destruct (_ && _); [|exact Ht].
           destruct t0; [congruence|discriminate].
Qed.

Lemma path_normalize_nonempty (host : Host) (p : jsstring) :
  path_normalize host p <> [].
Proof.
  unfold path_normalize. destruct (is_win32 host).
  - apply win32_normalize_nonempty.
  - apply posix_normalize_nonempty.
Qed.

Lemma replace_trailing_separator_length (s : jsstring) :
  (JS.length s >? 1)%Z = true -> JS.replace_trailing_separator s <> [].
Proof.
  destruct s as [|a [|b t]]; discriminate.
Qed.

Lemma normalizePath_nonempty (host : Host) (c : ascii) (t : jsstring)
  (options : NormalizationOptions) :
  normalizePath host (c :: t) options <> [].
Proof.
  unfold normalizePath.
  pose proof (path_normalize_nonempty host (c :: t)) as Hn.
  set (n := path_normalize host (c :: t)) in *.
  destruct (jsstring_eqb n (js ".")); [discriminate|].
  set (n1 := if nullish (forceForwardSlash options) true
             then JS.replace_backslashes n else n).
  assert (H1 : n1 <> []).
  { subst n1. destruct (nullish _ _); [|exact Hn].
    destruct n; [congruence|discriminate]. }
  set (n2 := if _ && (JS.length n1 >? 1)%Z then _ else n1).
  assert (H2 : n2 <> []).
  { subst n2. destruct (nullish (removeTrailingSlash options) true);
      [|exact H1].
    cbn [andb]. destruct (JS.length n1 >? 1)%Z eqn:E; [|exact H1].
    apply replace_trailing_separator_length; exact E. }
  destruct (nullish (toLowerCase options) _); [|exact H2].
  destruct n2; [congruence|discriminate].
Qed.

(** ** Valid paths *)

(** C2: a non-empty path without [..], without a character that is
    illegal on the host's OS and no longer than that OS's limit is, with
    the default options, valid; its [normalizedPath] is what
    [normalizePath] gives under [{ os }] for the resolved OS, and that
    string is not empty. *)
Theorem validatePath_valid (host : Host) (p : jsstring) :
  p <> [] ->
  JS.includes p (js "..") = false ->
  has_char (illegal_chars_of (resolve_os host None)) p = false ->
  (JS.length p <= getMaxPathLength (resolve_os host None))%Z ->
  validatePath host p no_validation_options
  = {| isValid := true;
       errors := None;
       normalizedPath :=
         Some (normalizePath host p (only_os (resolve_os host None))) |}
  /\ normalizePath host p (only_os (resolve_os host None)) <> [].
Proof.
  intros Hp Hdots Hill Hlen.
  destruct p as [|c t]; [congruence|].
  split; [|apply normalizePath_nonempty].
  unfold validatePath, push_if.
  cbn [vo_os maxLength allowTraversal allowAbsolute allowRelative
       no_validation_options number_or nullish negb andb].
  rewrite match_global_has_char, Hill, Hdots.
  rewrite !andb_false_r.
  assert (Hl : (JS.length (c :: t)
                >? getMaxPathLength (resolve_os host None))%Z = false).
  { rewrite Z.gtb_ltb. apply Z.ltb_ge. exact Hlen. }
  rewrite Hl. reflexivity.
Qed.

(** For instance ['path/to/file.txt'] on a POSIX host. *)
Lemma validatePath_valid_witness :
  js "path/to/file.txt" <> []
  /\ JS.includes (js "path/to/file.txt") (js "..") = false
  /\ has_char (illegal_chars_of (resolve_os posix_host None))
       (js "path/to/file.txt") = false
  /\ (JS.length (js "path/to/file.txt")
      <= getMaxPathLength (resolve_os posix_host None))%Z
  /\ validatePath posix_host (js "path/to/file.txt") no_validation_options
     = {| isValid := true;
          errors := None;
          normalizedPath := Some (js "path/to/file.txt") |}.
Proof.
  assert (H1 : js "path/to/file.txt" <> []) by discriminate.
  assert (H4 : (JS.length (js "path/to/file.txt")
                <= getMaxPathLength (resolve_os posix_host None))%Z)
    by (vm_compute; discriminate).
  refine (conj H1 (conj eq_refl (conj eq_refl (conj H4 _)))).
  exact (proj1 (validatePath_valid posix_host (js "path/to/file.txt")
                  H1 eq_refl eq_refl H4)).
Defined.

(** ** Strings: facts about the primitives *)

Lemma jsstring_eqb_eq (a b : jsstring) : jsstring_eqb a b = true <-> a = b.
Proof.
  unfold jsstring_eqb. destruct (list_eq_dec ascii_dec a b); split;
    congruence.
Qed.

Lemma jsstring_eqb_refl (a : jsstring) : jsstring_eqb a a = true.
Proof. apply jsstring_eqb_eq. reflexivity. Qed.

Lemma jsstring_eqb_neq (a b : jsstring) : jsstring_eqb a b = false <-> a <> b.
Proof.
  unfold jsstring_eqb. destruct (list_eq_dec ascii_dec a b); split;
    congruence.
Qed.

Lemma JS_length_app (s t : jsstring) :
  JS.length (s ++ t) = (JS.length s + JS.length t)%Z.
Proof. unfold JS.length. rewrite length_app. lia. Qed.

Lemma JS_length_nonneg (s : jsstring) : (0 <= JS.length s)%Z.
Proof. unfold JS.length. lia. Qed.

Lemma JS_length_cons (c : ascii) (s : jsstring) :
  JS.length (c :: s) = (1 + JS.length s)%Z.
Proof. unfold JS.length. cbn [List.length]. lia. Qed.

Lemma JS_length_pos (s : jsstring) :
  (JS.length s >? 0)%Z = negb (jsstring_eqb s []).
Proof. destruct s; reflexivity. Qed.

Lemma lastIndexOf_from_free (c : ascii) (t : jsstring) (i : Z) :
  Forall (fun d => (d =? c)%char = false) t ->
  JS.lastIndexOf_from c t i = (-1)%Z.
Proof.
  intros H. revert i. induction H as [|d t Hd _ IH]; intros i.
  - reflexivity.
  - cbn [JS.lastIndexOf_from]. rewrite IH, Hd. reflexivity.
Qed.

Lemma lastIndexOf_from_app_free (c : ascii) (s t : jsstring) (i : Z) :
  Forall (fun d => (d =? c)%char = false) t ->
  JS.lastIndexOf_from c (s ++ t) i = JS.lastIndexOf_from c s i.
Proof.
  intros H. revert i. induction s as [|d s IH]; intros i.
  - apply lastIndexOf_from_free. exact H.
  - cbn [JS.lastIndexOf_from app]. rewrite IH. reflexivity.
Qed.

Lemma lastIndexOf_from_snoc (c : ascii) (s : jsstring) (i : Z) :
  (0 <= i)%Z ->
  JS.lastIndexOf_from c (s ++ [c]) i = (i + JS.length s)%Z.
Proof.
  revert i. induction s as [|d s IH]; intros i Hi.
  - cbn. rewrite Ascii.eqb_refl. unfold JS.length. cbn. lia.
  - cbn [JS.lastIndexOf_from app]. rewrite IH by lia.
    pose proof (JS_length_nonneg s).
    destruct (Z.eqb_spec (i + 1 + JS.length s) (-1)); [lia|].
    rewrite JS_length_cons. lia.
Qed.

Lemma codeAt_app_r (f : ascii -> bool) (s t : jsstring) (k : Z) :
  (0 <= k)%Z ->
  JS.codeAt f (s ++ t) (JS.length s + k) = JS.codeAt f t k.
Proof.
  intros Hk. unfold JS.codeAt, JS.charCodeAt.
  pose proof (JS_length_nonneg s).
  destruct (Z.ltb_spec (JS.length s + k) 0); [lia|].
  destruct (Z.ltb_spec k 0); [lia|].
  unfold JS.length in *.
  replace (Z.to_nat (Z.of_nat (List.length s) + k))
    with (List.length s + Z.to_nat k)%nat by lia.
  rewrite nth_error_app2 by lia.
  replace (List.length s + Z.to_nat k - List.length s)%nat
    with (Z.to_nat k) by lia.
  reflexivity.
Qed.

Lemma slice_prefix (s t : jsstring) : JS.slice (s ++ t) 0 (JS.length s) = s.
Proof.
  unfold JS.slice, JS.length. cbn [Z.to_nat skipn].
  rewrite Nat2Z.id, Nat.sub_0_r, firstn_app, Nat.sub_diag, firstn_all.
  cbn [firstn]. apply app_nil_r.
Qed.

Lemma slice_middle (pre cur rest : jsstring) :
  JS.slice (pre ++ cur ++ rest) (JS.length pre)
    (JS.length pre + JS.length cur) = cur.
Proof.
  unfold JS.slice, JS.length.
  rewrite Nat2Z.id.
  replace (Z.to_nat (Z.of_nat (List.length pre) + Z.of_nat (List.length cur))
           - List.length pre)%nat with (List.length cur) by lia.
  rewrite skipn_app, skipn_all, Nat.sub_diag. cbn [skipn app].
  rewrite firstn_app, Nat.sub_diag, firstn_all. cbn [firstn].
  apply app_nil_r.
Qed.

(** ** [normalizeString] resolves segments *)

Lemma join_stack_cons (sep : ascii) (top : jsstring) (rest : list jsstring) :
  join_stack sep (top :: rest) = stack_base sep rest ++ top.
Proof.
  destruct rest; cbn [join_stack stack_base]; [reflexivity|].
  rewrite <- app_assoc. reflexivity.
Qed.

Lemma push_segment_dotdot (allow : bool) (stack : list jsstring) :
  push_segment allow stack (js "..")
  = match stack with
    | top :: rest =>
        if jsstring_eqb top (js "..")
        then (if allow then js ".." :: stack else stack)
        else rest
    | [] => if allow then [js ".."] else []
    end.
Proof. reflexivity. Qed.

Lemma dots_of_one (cur : jsstring) :
  (dots_of cur =? 1)%Z = jsstring_eqb cur (js ".").
Proof.
  unfold dots_of. destruct cur as [|a [|b t]].
  - reflexivity.
  - cbn [forallb List.length andb]. rewrite andb_true_r.
    destruct (Ascii.eqb_spec a "."); [subst; reflexivity|].
    symmetry. apply jsstring_eqb_neq. intros Heq; inversion Heq; congruence.
  - assert (H : jsstring_eqb (a :: b :: t) (js ".") = false).
    { apply jsstring_eqb_neq. discriminate. }
    rewrite H. destruct (forallb _ _); [|reflexivity].
    cbn [List.length]. apply Z.eqb_neq. lia.
Qed.

Lemma dots_of_two (cur : jsstring) :
  (dots_of cur =? 2)%Z = jsstring_eqb cur (js "..").
Proof.
  unfold dots_of. destruct cur as [|a [|b [|c t]]].
  - reflexivity.
  - assert (H : jsstring_eqb [a] (js "..") = false).
    { apply jsstring_eqb_neq. discriminate. }
    rewrite H. destruct (forallb _ _); reflexivity.
  - cbn [forallb List.length andb]. rewrite andb_true_r.
    destruct (Ascii.eqb_spec a "."); destruct (Ascii.eqb_spec b ".");
      subst; cbn [andb]; try reflexivity;
      symmetry; apply jsstring_eqb_neq; intros Heq; inversion Heq; congruence.
  - assert (H : jsstring_eqb (a :: b :: c :: t) (js "..") = false).
    { apply jsstring_eqb_neq. discriminate. }
    rewrite H. destruct (forallb _ _); [|reflexivity].
    cbn [List.length]. apply Z.eqb_neq. lia.
Qed.

Lemma dots_of_snoc (cur : jsstring) (c : ascii) :
  dots_of (cur ++ [c])
  = if (c =? ".")%char && negb (dots_of cur =? -1)%Z
    then (dots_of cur + 1)%Z else (-1)%Z.
Proof.
  unfold dots_of. rewrite forallb_app, length_app. cbn [forallb List.length].
  rewrite andb_true_r.
  destruct (forallb _ cur); destruct (c =? ".")%char; cbn [andb negb];
    try reflexivity.
  destruct (Z.eqb_spec (Z.of_nat (List.length cur)) (-1)); [lia|].
  cbn [negb]. lia.
Qed.

(** The test of the loop for "the last segment of [res] is not [..]". *)
Lemma last_segment_test (b top : jsstring) (lsl : Z) :
  top <> [] ->
  lsl = JS.length top ->
  (JS.length (b ++ top) <? 2)%Z
  || negb (lsl =? 2)%Z
  || negb (JS.codeAt (fun d => (d =? NodePath.CHAR_DOT)%char) (b ++ top)
             (JS.length (b ++ top) - 1))
  || negb (JS.codeAt (fun d => (d =? NodePath.CHAR_DOT)%char) (b ++ top)
             (JS.length (b ++ top) - 2))
  = negb (jsstring_eqb top (js "..")).
Proof.
  intros Htop ->. rewrite JS_length_app.
  pose proof (JS_length_nonneg b) as Hb.
  destruct top as [|x [|y [|z t]]]; [congruence| | |].
  - assert (H : jsstring_eqb [x] (js "..") = false).
    { apply jsstring_eqb_neq. discriminate. }
    rewrite H. change (JS.length [x] =? 2)%Z with false.
    cbn [negb]. rewrite orb_true_r. reflexivity.
  - change (JS.length [x; y]) with 2%Z.
    destruct (Z.ltb_spec (JS.length b + 2) 2); [lia|].
    replace (JS.length b + 2 - 1)%Z with (JS.length b + 1)%Z by lia.
    replace (JS.length b + 2 - 2)%Z with (JS.length b + 0)%Z by lia.
    rewrite !codeAt_app_r by lia.
    change (JS.codeAt (fun d => (d =? NodePath.CHAR_DOT)%char) [x; y] 1)
      with (y =? ".")%char.
    change (JS.codeAt (fun d => (d =? NodePath.CHAR_DOT)%char) [x; y] 0)
      with (x =? ".")%char.
    cbn [Z.eqb Pos.eqb negb orb].
    destruct (Ascii.eqb_spec x "."); destruct (Ascii.eqb_spec y ".");
      subst; cbn [negb orb]; try reflexivity;
      symmetry; apply negb_true_iff, jsstring_eqb_neq;
      intros Heq; inversion Heq; congruence.
  - assert (H : jsstring_eqb (x :: y :: z :: t) (js "..") = false).
    { apply jsstring_eqb_neq. discriminate. }
    rewrite H.
    assert (H2 : (JS.length (x :: y :: z :: t) =? 2)%Z = false).
    { apply Z.eqb_neq. rewrite !JS_length_cons.
      pose proof (JS_length_nonneg t). lia. }
    rewrite H2. cbn [negb]. rewrite orb_true_r. reflexivity.
Qed.

Section NormalizeStringSegments.

Variable path : jsstring.
Variable allow : bool.
Variable sep : ascii.
Variable isSep : ascii -> bool.
Hypothesis isSep_sep : isSep sep = true.
Hypothesis isSep_slash : isSep "/" = true.

Lemma separator_free_sep (s : jsstring) :
  separator_free isSep s -> Forall (fun d => (d =? sep)%char = false) s.
Proof.
  intros H. eapply Forall_impl; [|exact H].
  intros d Hd. cbv beta in Hd. destruct (Ascii.eqb_spec d sep); [|reflexivity].
  subst d. congruence.
Qed.

Lemma join_stack_length (stack : list jsstring) :
  stack_ok isSep stack -> stack <> [] -> (1 <= JS.length (join_stack sep stack))%Z.
Proof.
  intros Hok Hne. destruct stack as [|top rest]; [congruence|].
  rewrite join_stack_cons, JS_length_app.
  inversion Hok as [|? ? [Htop _] _]; subst.
  pose proof (JS_length_nonneg (stack_base sep rest)).
  destruct top; [congruence|]. rewrite JS_length_cons.
  pose proof (JS_length_nonneg top). lia.
Qed.

Lemma stack_base_length (rest : list jsstring) :
  stack_ok isSep rest ->
  (rest = [] /\ JS.length (stack_base sep rest) = 0%Z)
  \/ (rest <> [] /\ (2 <= JS.length (stack_base sep rest))%Z).
Proof.
  intros Hok. destruct rest as [|t2 r]; [left; split; reflexivity|].
  right. split; [discriminate|].
  cbn [stack_base]. rewrite JS_length_app.
  pose proof (join_stack_length (t2 :: r) Hok ltac:(discriminate)).
  change (JS.length [sep]) with 1%Z. lia.
Qed.

Lemma lastIndexOf_join (top : jsstring) (rest : list jsstring) :
  stack_ok isSep (top :: rest) ->
  JS.lastIndexOf (join_stack sep (top :: rest)) sep
  = (JS.length (stack_base sep rest) - 1)%Z.
Proof.
  intros Hok. inversion Hok as [|? ? [_ Hfree] Hrest]; subst.
  rewrite join_stack_cons. unfold JS.lastIndexOf.
  rewrite lastIndexOf_from_app_free by (apply separator_free_sep; exact Hfree).
  destruct rest as [|t2 r]; [reflexivity|].
  cbn [stack_base]. rewrite lastIndexOf_from_snoc by lia.
  rewrite JS_length_app. change (JS.length [sep]) with 1%Z. lia.
Qed.

Lemma dotdot_segment_spec (i : Z) (st : NodePath.NSState) (c : ascii)
  (stack : list jsstring) :
  NodePath.res st = join_stack sep stack ->
  NodePath.lastSegmentLength st = JS.length (hd [] stack) ->
  stack_ok isSep stack ->
  let st' := NodePath.dotdot_segment allow sep i st c in
  let stack' := push_segment allow stack (js "..") in
  NodePath.res st' = join_stack sep stack'
  /\ NodePath.lastSegmentLength st' = JS.length (hd [] stack')
  /\ NodePath.lastSlash st' = i
  /\ NodePath.dots st' = 0%Z
  /\ NodePath.code st' = c.
Proof.
  intros Hres Hlsl Hok. cbv zeta. rewrite push_segment_dotdot.
  unfold NodePath.dotdot_segment. rewrite Hres, Hlsl.
  destruct stack as [|top rest].
  - cbn [join_stack hd]. destruct allow; repeat split.
  - inversion Hok as [|? ? [Htop Hfree] Hrest]; subst.
    cbn [hd]. rewrite join_stack_cons.
    rewrite (last_segment_test _ top _ Htop eq_refl).
    rewrite <- join_stack_cons.
    destruct (jsstring_eqb top (js "..")) eqn:Etop; cbn [negb].
    + (* the top is [..]: one more [..], when allowed *)
      assert (Hpos : (JS.length (join_stack sep (top :: rest)) >? 0)%Z = true).
      { pose proof (join_stack_length (top :: rest) Hok ltac:(discriminate)).
        apply Z.gtb_lt. lia. }
      rewrite Hpos. destruct allow; cbn [NodePath.res NodePath.lastSegmentLength
        NodePath.lastSlash NodePath.dots NodePath.code hd]; repeat split.
    + (* the top is another segment: it goes *)
      rewrite (lastIndexOf_join top rest Hok).
      pose proof (join_stack_length (top :: rest) Hok ltac:(discriminate))
        as Hlen.
      destruct (stack_base_length rest Hrest) as [[-> Hb]|[Hne Hb]].
      * cbn [stack_base]. change (JS.length [] - 1 =? -1)%Z with true.
        cbn [join_stack hd].
        destruct (JS.length top >? 2)%Z; [repeat split|].
        destruct (Z.eqb_spec (JS.length top) 0);
          [cbn [join_stack] in Hlen; lia|].
        repeat split.
      * assert (Hgt : (JS.length (join_stack sep (top :: rest)) >? 2)%Z = true).
        { rewrite join_stack_cons, JS_length_app.
          destruct top; [congruence|]. rewrite JS_length_cons.
          pose proof (JS_length_nonneg top). apply Z.gtb_lt. lia. }
        rewrite Hgt.
        destruct (Z.eqb_spec (JS.length (stack_base sep rest) - 1) (-1));
          [lia|].
        destruct rest as [|t2 r]; [congruence|].
        assert (Hslice : JS.slice (join_stack sep (top :: t2 :: r)) 0
                           (JS.length (stack_base sep (t2 :: r)) - 1)
                         = join_stack sep (t2 :: r)).
        { change (join_stack sep (top :: t2 :: r))
            with (join_stack sep (t2 :: r) ++ sep :: top).
          change (stack_base sep (t2 :: r))
            with (join_stack sep (t2 :: r) ++ [sep]).
          set (j := join_stack sep (t2 :: r)).
          rewrite JS_length_app. change (JS.length [sep]) with 1%Z.
          replace (JS.length j + 1 - 1)%Z with (JS.length j) by lia.
          apply slice_prefix. }
        rewrite Hslice.
        cbn [NodePath.res NodePath.lastSegmentLength
             NodePath.lastSlash NodePath.dots NodePath.code hd].
        repeat split.
        rewrite (lastIndexOf_join t2 r Hrest).
        rewrite join_stack_cons, JS_length_app. lia.
Qed.


Lemma push_segment_ok (stack : list jsstring) (cur : jsstring) :
  stack_ok isSep stack -> separator_free isSep cur ->
  stack_ok isSep (push_segment allow stack cur).
Proof.
  intros Hok Hcur. unfold push_segment.
  destruct (jsstring_eqb cur []) eqn:E0; [exact Hok|].
  apply jsstring_eqb_neq in E0.
  assert (Hpush : stack_ok isSep (cur :: stack)).
  { constructor; [split; assumption|exact Hok]. }
  cbn [orb].
  destruct (jsstring_eqb cur (js ".")); [exact Hok|].
  destruct (jsstring_eqb cur (js "..")); [|exact Hpush].
  destruct stack as [|top rest].
  - destruct allow; [|constructor].
    constructor; [split; assumption|constructor].
  - inversion Hok; subst.
    destruct (jsstring_eqb top (js "..")); [|assumption].
    destruct allow; assumption.
Qed.

Lemma end_of_segment_spec (i : Z) (st : NodePath.NSState) (c : ascii)
  (stack : list jsstring) (pre cur rest : jsstring) :
  path = pre ++ cur ++ rest ->
  i = (JS.length pre + JS.length cur)%Z ->
  loop_invariant sep isSep st stack pre cur ->
  isSep c = true ->
  loop_invariant sep isSep (NodePath.end_of_segment path allow sep i st c)
    (push_segment allow stack cur) (pre ++ cur ++ [c]) [].
Proof.
  intros Hpath Hi (Hres & Hlsl & Hslash & Hdots & Hok & Hcur & Hcode) Hc.
  assert (Hlen' : (JS.length (pre ++ cur ++ [c]) - 1)%Z = i).
  { rewrite !JS_length_app. change (JS.length [c]) with 1%Z. lia. }
  assert (Hok' : stack_ok isSep (push_segment allow stack cur))
    by (apply push_segment_ok; assumption).
  assert (Hnil : (NodePath.lastSlash st =? i - 1)%Z = jsstring_eqb cur []).
  { rewrite Hslash, Hi. destruct cur as [|x cur'].
    - cbn. apply Z.eqb_eq. change (JS.length []) with 0%Z. lia.
    - rewrite JS_length_cons. pose proof (JS_length_nonneg cur').
      transitivity false; [apply Z.eqb_neq; lia|].
      symmetry. apply jsstring_eqb_neq. discriminate. }
  unfold NodePath.end_of_segment.
  rewrite Hnil, Hdots, dots_of_one, dots_of_two.
  unfold push_segment in *.
  destruct (jsstring_eqb cur [] || jsstring_eqb cur (js ".")) eqn:E01.
  - (* NOOP *)
    unfold loop_invariant.
    cbn [NodePath.res NodePath.lastSegmentLength NodePath.lastSlash
         NodePath.dots NodePath.code].
    repeat split; try assumption; try constructor. lia.
  - apply orb_false_iff in E01. destruct E01 as [E0 E1].
    destruct (jsstring_eqb cur (js "..")) eqn:E2.
    + (* [..] *)
      apply jsstring_eqb_eq in E2. subst cur.
      pose proof (dotdot_segment_spec i st c stack Hres Hlsl Hok) as Hdd.
      cbv zeta in Hdd. rewrite push_segment_dotdot in Hdd.
      destruct Hdd as (H1 & H2 & H3 & H4 & H5).
      unfold loop_invariant.
      repeat split; try assumption; try constructor; try lia.
    + (* any other segment *)
      assert (Hseg : JS.slice path (NodePath.lastSlash st + 1) i = cur).
      { rewrite Hslash, Hpath, Hi.
        replace (JS.length pre - 1 + 1)%Z with (JS.length pre) by lia.
        apply slice_middle. }
      rewrite Hseg, Hres.
      unfold loop_invariant.
      cbn [NodePath.res NodePath.lastSegmentLength NodePath.lastSlash
           NodePath.dots NodePath.code hd].
      repeat split; try assumption; try constructor; try lia.
      rewrite JS_length_pos.
      destruct stack as [|top r]; [reflexivity|].
      pose proof (join_stack_length (top :: r) Hok ltac:(discriminate)) as Hl.
      assert (Hne : jsstring_eqb (join_stack sep (top :: r)) [] = false).
      { apply jsstring_eqb_neq. intros H. rewrite H in Hl.
        change (JS.length []) with 0%Z in Hl. lia. }
      rewrite Hne. reflexivity.
Qed.

Lemma loop_resolve (rest : jsstring) :
  forall (pre cur : jsstring) (stack : list jsstring) (st : NodePath.NSState),
    path = pre ++ cur ++ rest ->
    loop_invariant sep isSep st stack pre cur ->
    NodePath.res
      (NodePath.for_loop (NodePath.normalizeString_body path allow sep isSep)
         (seq (List.length (pre ++ cur)) (S (List.length rest))) st)
    = join_stack sep (resolve_from allow isSep stack cur rest).
Proof.
  induction rest as [|c rest' IH]; intros pre cur stack st Hpath Hinv.
  - (* the last run of the body, at [i = path.length] *)
    cbn [List.length seq NodePath.for_loop resolve_from].
    unfold NodePath.normalizeString_body.
    assert (Hi : Z.of_nat (List.length (pre ++ cur)) = JS.length path).
    { rewrite Hpath, app_nil_r. reflexivity. }
    rewrite Hi, Z.ltb_irrefl.
    destruct (isSep (NodePath.code st)) eqn:Ecode.
    + destruct Hinv as (Hres & _ & _ & _ & _ & _ & Hcode).
      rewrite (Hcode Ecode). exact Hres.
    + unfold NodePath.CHAR_FORWARD_SLASH. rewrite isSep_slash.
      assert (Hlen : JS.length path = (JS.length pre + JS.length cur)%Z).
      { rewrite Hpath, !JS_length_app. change (JS.length []) with 0%Z. lia. }
      destruct (end_of_segment_spec _ st "/" stack pre cur [] Hpath Hlen Hinv
                  isSep_slash) as (Hres & _).
      exact Hres.
  - (* a character of the path *)
    cbn [List.length seq NodePath.for_loop resolve_from].
    unfold NodePath.normalizeString_body.
    assert (Hlt : (Z.of_nat (List.length (pre ++ cur)) <? JS.length path)%Z
                  = true).
    { apply Z.ltb_lt. rewrite Hpath. unfold JS.length.
      rewrite !length_app. cbn [List.length]. lia. }
    assert (Hnth : nth_error path (List.length (pre ++ cur)) = Some c).
    { rewrite Hpath, app_assoc, nth_error_app2 by lia.
      rewrite Nat.sub_diag. reflexivity. }
    rewrite Hlt, Hnth.
    assert (Hi : Z.of_nat (List.length (pre ++ cur))
                 = (JS.length pre + JS.length cur)%Z).
    { unfold JS.length. rewrite length_app. lia. }
    destruct (isSep c) eqn:Ec.
    + specialize (IH (pre ++ cur ++ [c]) [] (push_segment allow stack cur)
                    (NodePath.end_of_segment path allow sep
                       (Z.of_nat (List.length (pre ++ cur))) st c)).
      replace (List.length ((pre ++ cur ++ [c]) ++ []))
        with (S (List.length (pre ++ cur))) in IH
        by (rewrite !length_app; cbn [List.length]; lia).
      apply IH.
      * rewrite Hpath, <- !app_assoc. reflexivity.
      * eapply end_of_segment_spec; eassumption.
    + specialize (IH pre (cur ++ [c]) stack).
      replace (List.length (pre ++ cur ++ [c]))
        with (S (List.length (pre ++ cur))) in IH
        by (rewrite !length_app; cbn [List.length]; lia).
      destruct Hinv as (Hres & Hlsl & Hslash & Hdots & Hok & Hcur & Hcode).
      assert (Hfree : separator_free isSep (cur ++ [c])).
      { apply Forall_app. split; [exact Hcur|]. constructor; [exact Ec|].
        constructor. }
      unfold NodePath.CHAR_DOT.
      destruct ((c =? ".")%char && negb (NodePath.dots st =? -1)%Z) eqn:Ed;
        apply IH;
        try (rewrite Hpath, <- !app_assoc; reflexivity);
        unfold loop_invariant;
        cbn [NodePath.res NodePath.lastSegmentLength NodePath.lastSlash
             NodePath.dots NodePath.code];
        repeat split; try assumption;
        try (rewrite dots_of_snoc, <- Hdots, Ed; reflexivity);
        intros Habs; congruence.
Qed.

(** [normalizeString] returns the resolved segments of the path, joined
    with the separator. *)
Theorem normalizeString_resolve :
  NodePath.normalizeString path allow sep isSep
  = join_stack sep (resolve_from allow isSep [] [] path).
Proof.
  unfold NodePath.normalizeString.
  apply (loop_resolve path [] [] []); [reflexivity|].
  unfold loop_invariant.
  cbn [NodePath.res NodePath.lastSegmentLength NodePath.lastSlash
       NodePath.dots NodePath.code].
  repeat split; try constructor.
Qed.

End NormalizeStringSegments.

(** ** Where the characters of a normalized path come from

    [P] is any property of characters. *)

Section Provenance.

Variable P : ascii -> Prop.

Lemma push_segment_chars (allow : bool) (stack : list jsstring)
  (seg : jsstring) :
  Forall (Forall P) stack -> Forall P seg ->
  Forall (Forall P) (push_segment allow stack seg).
Proof.
  intros Hs Hseg. unfold push_segment.
  assert (Hpush : Forall (Forall P) (seg :: stack)) by (constructor; assumption).
  destruct (_ || _); [exact Hs|].
  destruct (jsstring_eqb seg (js "..")); [|exact Hpush].
  destruct stack as [|top rest].
  - destruct allow; [|constructor]. constructor; [exact Hseg|constructor].
  - inversion Hs; subst.
    destruct (jsstring_eqb top (js "..")); [|assumption].
    destruct allow; assumption.
Qed.

Lemma resolve_from_chars (allow : bool) (isSep : ascii -> bool)
  (rest : jsstring) :
  forall (stack : list jsstring) (cur : jsstring),
    Forall (Forall P) stack -> Forall P cur -> Forall P rest ->
    Forall (Forall P) (resolve_from allow isSep stack cur rest).
Proof.
  induction rest as [|c t IH]; intros stack cur Hs Hcur Hrest.
  - apply push_segment_chars; assumption.
  - inversion Hrest; subst. cbn [resolve_from].
    destruct (isSep c).
    + apply IH; [apply push_segment_chars; assumption|constructor|assumption].
    + apply IH; [assumption| |assumption].
      apply Forall_app. split; [assumption|]. constructor; [assumption|constructor].
Qed.

Lemma join_stack_chars (sep : ascii) (stack : list jsstring) :
  P sep -> Forall (Forall P) stack -> Forall P (join_stack sep stack).
Proof.
  intros Hsep Hs. induction Hs as [|top rest Htop Hrest IH].
  - constructor.
  - rewrite join_stack_cons. apply Forall_app. split; [|exact Htop].
    destruct rest; [constructor|]. cbn [stack_base].
    apply Forall_app. split; [exact IH|]. constructor; [exact Hsep|constructor].
Qed.

Lemma normalizeString_chars (path : jsstring) (allow : bool) (sep : ascii)
  (isSep : ascii -> bool) :
  isSep sep = true -> isSep "/" = true ->
  P sep -> Forall P path ->
  Forall P (NodePath.normalizeString path allow sep isSep).
Proof.
  intros H1 H2 Hsep Hpath. rewrite normalizeString_resolve by assumption.
  apply join_stack_chars; [exact Hsep|].
  apply resolve_from_chars; [constructor|constructor|exact Hpath].
Qed.

Hypothesis P_slash : P "/".
Hypothesis P_backslash : P "\".
Hypothesis P_dot : P ".".

Lemma literal_chars_dot : Forall P (js ".").
Proof. repeat constructor; assumption. Qed.

Lemma posix_normalize_chars (p : jsstring) :
  Forall P p -> Forall P (NodePath.posix.normalize p).
Proof.
  intros Hp. unfold NodePath.posix.normalize.
  pose proof (normalizeString_chars p
                (negb (JS.codeAt (fun c => (c =? NodePath.CHAR_FORWARD_SLASH)%char) p 0))
                "/" NodePath.isPosixPathSeparator
                eq_refl eq_refl P_slash Hp) as Hn.
  set (n := NodePath.normalizeString p _ _ _) in *.
  repeat match goal with
         | |- context [if ?b then _ else _] => destruct b
         end;
    repeat first [ assumption
                 | apply Forall_app; split
                 | constructor ].
Qed.

Lemma firstn_chars (n : nat) (p : jsstring) :
  Forall P p -> Forall P (firstn n p).
Proof.
  intros Hp. revert n. induction Hp as [|c t Hc _ IH]; intros [|n];
    cbn [firstn]; constructor; auto.
Qed.

Lemma skipn_chars (n : nat) (p : jsstring) :
  Forall P p -> Forall P (skipn n p).
Proof.
  intros Hp. revert n. induction Hp as [|c t Hc Ht IH]; intros [|n];
    cbn [skipn]; try constructor; auto.
Qed.

Lemma slice_chars (p : jsstring) (b e : Z) :
  Forall P p -> Forall P (JS.slice p b e).
Proof.
  intros Hp. unfold JS.slice. apply firstn_chars, skipn_chars. exact Hp.
Qed.

Lemma sliceFrom_chars (p : jsstring) (b : Z) :
  Forall P p -> Forall P (JS.sliceFrom p b).
Proof. intros Hp. unfold JS.sliceFrom. apply skipn_chars. exact Hp. Qed.

Lemma win32_normalize_chars (p : jsstring) :
  Forall P p -> Forall P (NodePath.win32.normalize p).
Proof.
  intros Hp. unfold NodePath.win32.normalize.
  destruct (JS.length p =? 0)%Z; [apply literal_chars_dot|].
  destruct (JS.length p =? 1)%Z.
  { destruct (JS.codeAt _ p 0); [|exact Hp]. repeat constructor; assumption. }
  destruct (NodePath.win32.match_root p) as [s|r device a] eqn:Er.
  - revert Er. unfold NodePath.win32.match_root.
    repeat match goal with
           | |- context [if ?b then _ else _] => destruct b
           end; try discriminate.
    intros [= <-].
    repeat first [ apply Forall_app; split
                 | apply slice_chars | apply sliceFrom_chars
                 | assumption | constructor ].
  - assert (Hdev : forall d, device = Some d -> Forall P d).
    { intros d ->. revert Er. unfold NodePath.win32.match_root.
      repeat match goal with
             | |- context [if ?b then _ else _] => destruct b
             end; try discriminate; intros [= _ <- _];
        repeat first [ apply Forall_app; split
                     | apply slice_chars | apply sliceFrom_chars
                     | assumption | constructor ]. }
    assert (Htail : Forall P
              (if (r <? JS.length p)%Z
               then NodePath.normalizeString (JS.sliceFrom p r) (negb a) "\"
                      NodePath.isPathSeparator
               else [])).
    { destruct (r <? JS.length p)%Z; [|constructor].
      apply normalizeString_chars; try reflexivity; try assumption.
      apply sliceFrom_chars. exact Hp. }
    set (t0 := if (r <? JS.length p)%Z then _ else _) in *.
    clearbody t0.
    pose proof literal_chars_dot as Hdot.
    assert (Hbs : Forall P (js "\")) by (repeat constructor; assumption).
    destruct device as [d|]; [specialize (Hdev d eq_refl)|];
      repeat match goal with
             | |- context [if ?b then _ else _] => destruct b
             end;
      repeat first [ assumption
                   | apply Forall_app; split
                   | apply Forall_cons ].
Qed.

Lemma path_normalize_chars (host : Host) (p : jsstring) :
  Forall P p -> Forall P (path_normalize host p).
Proof.
  unfold path_normalize. destruct (is_win32 host).
  - apply win32_normalize_chars.
  - apply posix_normalize_chars.
Qed.

Lemma replace_backslashes_chars (s : jsstring) :
  Forall P s -> Forall P (JS.replace_backslashes s).
Proof.
  intros H. unfold JS.replace_backslashes.
  induction H as [|c t Hc _ IH]; [constructor|].
  cbn [map]. constructor; [|exact IH].
  destruct (c =? "\")%char; assumption.
Qed.

Lemma replace_trailing_separator_chars (s : jsstring) :
  Forall P s -> Forall P (JS.replace_trailing_separator s).
Proof.
  intros H. induction H as [|c t Hc Ht IH]; [constructor|].
  cbn [JS.replace_trailing_separator]. destruct t as [|d t'].
  - destruct (_ || _); [constructor|]. constructor; [exact Hc|constructor].
  - constructor; assumption.
Qed.

Hypothesis P_lowerCode : forall c, P c -> P (JS.lowerCode c).

Lemma toLowerCase_chars (s : jsstring) :
  Forall P s -> Forall P (JS.toLowerCase s).
Proof.
  intros H. unfold JS.toLowerCase.
  induction H; cbn [map]; constructor; auto.
Qed.

(** Every character of [normalizePath(p)] has the property when every
    character of [p], the separators and the dot have it and
    [toLowerCase] keeps it. *)
Lemma normalizePath_chars (host : Host) (p : jsstring)
  (options : NormalizationOptions) :
  Forall P p -> Forall P (normalizePath host p options).
Proof.
  intros Hp. unfold normalizePath. destruct p as [|c t]; [constructor|].
  pose proof (path_normalize_chars host (c :: t) Hp) as Hn.
  set (n := path_normalize host (c :: t)) in *.
  destruct (jsstring_eqb n (js ".")); [exact Hp|].
  set (n1 := if nullish (forceForwardSlash options) true then _ else n).
  assert (H1 : Forall P n1).
  { subst n1. destruct (nullish _ _); [|exact Hn].
    apply replace_backslashes_chars. exact Hn. }
  set (n2 := if _ && (JS.length n1 >? 1)%Z then _ else n1).
  assert (H2 : Forall P n2).
  { subst n2. destruct (_ && _); [|exact H1].
    apply replace_trailing_separator_chars. exact H1. }
  destruct (nullish (toLowerCase options) _); [|exact H2].
  apply toLowerCase_chars. exact H2.
Qed.

End Provenance.

(** ** [sanitizePath] leaves no illegal character, ['auto'] on a Windows
    host apart *)

Lemma lowerCode_windows_illegal (c : ascii) :
  WINDOWS_ILLEGAL_CHARS (JS.lowerCode c) = WINDOWS_ILLEGAL_CHARS c.
Proof. destruct c as [[] [] [] [] [] [] [] []]; reflexivity. Qed.

Lemma lowerCode_posix_illegal (c : ascii) :
  POSIX_ILLEGAL_CHARS (JS.lowerCode c) = POSIX_ILLEGAL_CHARS c.
Proof. destruct c as [[] [] [] [] [] [] [] []]; reflexivity. Qed.

Lemma has_char_false (cls : ascii -> bool) (s : jsstring) :
  has_char cls s = false <-> Forall (fun c => cls c = false) s.
Proof.
  unfold has_char. induction s as [|c t IH]; cbn [existsb].
  - split; [constructor|reflexivity].
  - rewrite orb_false_iff, IH. split.
    + intros [H1 H2]. constructor; assumption.
    + intros H. inversion H; subst. split; assumption.
Qed.

Lemma replace_global_empty_chars (cls : ascii -> bool) (s : jsstring) :
  Forall (fun c => cls c = false) (JS.replace_global_empty cls s).
Proof.
  unfold JS.replace_global_empty. apply Forall_forall. intros x Hx.
  apply filter_In in Hx. destruct Hx as [_ Hx].
  apply negb_true_iff. exact Hx.
Qed.

(** When the caller names the OS (['windows'] or ['posix']), leaves the
    argument out, or passes ['auto'] on a host that is not Windows, the
    result of [sanitizePath] has no character that is illegal on the
    target OS. *)
Theorem sanitizePath_no_illegal_char (host : Host) (p : jsstring)
  (os : option OSType) :
  (os = Some auto -> is_win32 host = false) ->
  has_char (illegal_chars_of (resolve_os host os)) (sanitizePath host p os)
  = false.
Proof.
  intros Hauto. unfold sanitizePath.
  destruct p as [|c t]; [reflexivity|].
  set (os' := match os with Some o => o | None => getCurrentOS host end).
  assert (Hcls : illegal_chars_of (resolve_os host os) = illegal_chars_of os').
  { subst os'. destruct os as [[| |]|]; try reflexivity.
    cbn [resolve_os]. unfold getCurrentOS. rewrite (Hauto eq_refl).
    reflexivity. }
  rewrite Hcls. apply has_char_false.
  apply normalizePath_chars.
  - unfold illegal_chars_of. destruct (OSType_eqb os' windows); reflexivity.
  - unfold illegal_chars_of. destruct (OSType_eqb os' windows); reflexivity.
  - unfold illegal_chars_of. destruct (OSType_eqb os' windows); reflexivity.
  - intros x. unfold illegal_chars_of. destruct (OSType_eqb os' windows).
    + rewrite lowerCode_windows_illegal. trivial.
    + rewrite lowerCode_posix_illegal. trivial.
  - apply replace_global_empty_chars.
Qed.

(** ** Normal stacks *)

Section NormalStacks.

Variable allow : bool.
Variable sep : ascii.
Variable isSep : ascii -> bool.
Hypothesis isSep_sep : isSep sep = true.

Lemma push_segment_cases (stack : list jsstring) (seg : jsstring) :
  push_segment allow stack seg = stack
  \/ push_segment allow stack seg = tl stack
  \/ push_segment allow stack seg = seg :: stack.
Proof.
  unfold push_segment.
  destruct (_ || _); [left; reflexivity|].
  destruct (jsstring_eqb seg (js "..")); [|right; right; reflexivity].
  destruct stack as [|top rest].
  - destruct allow; [right; right; reflexivity|left; reflexivity].
  - destruct (jsstring_eqb top (js ".."));
      [|right; left; reflexivity].
    destruct allow; [right; right; reflexivity|left; reflexivity].
Qed.

Lemma push_segment_normal (stack : list jsstring) (seg : jsstring) :
  normal_stack allow isSep stack -> separator_free isSep seg ->
  normal_stack allow isSep (push_segment allow stack seg).
Proof.
  intros Hn Hseg.
  destruct (push_segment_cases stack seg) as [E|[E|E]].
  - rewrite E. exact Hn.
  - rewrite E. destruct stack; [exact Hn|]. cbn [tl]. apply Hn.
  - rewrite E. cbn [normal_stack]. repeat split; assumption.
Qed.

Lemma resolve_from_normal (rest : jsstring) :
  forall (stack : list jsstring) (cur : jsstring),
    normal_stack allow isSep stack -> separator_free isSep cur ->
    normal_stack allow isSep (resolve_from allow isSep stack cur rest).
Proof.
  induction rest as [|c t IH]; intros stack cur Hn Hcur; cbn [resolve_from].
  - apply push_segment_normal; assumption.
  - destruct (isSep c) eqn:Ec.
    + apply IH; [apply push_segment_normal; assumption|constructor].
    + apply IH; [assumption|].
      apply Forall_app. split; [assumption|].
      constructor; [exact Ec|constructor].
Qed.

Lemma push_segment_nil (stack : list jsstring) :
  push_segment allow stack [] = stack.
Proof. reflexivity. Qed.

Lemma normal_stack_ok (stack : list jsstring) :
  normal_stack allow isSep stack -> stack_ok isSep stack.
Proof.
  induction stack as [|s below IH]; intros Hn; [constructor|].
  destruct Hn as (Hpush & Hfree & Hbelow).
  constructor; [|apply IH; exact Hbelow].
  split; [|exact Hfree].
  intros ->. rewrite push_segment_nil in Hpush.
  apply (f_equal (@List.length jsstring)) in Hpush.
  cbn [List.length] in Hpush. lia.
Qed.

Lemma resolve_from_app_free (s : jsstring) :
  forall (stack : list jsstring) (cur t : jsstring),
    separator_free isSep s ->
    resolve_from allow isSep stack cur (s ++ t)
    = resolve_from allow isSep stack (cur ++ s) t.
Proof.
  induction s as [|c s IH]; intros stack cur t Hs.
  - rewrite app_nil_r. reflexivity.
  - inversion Hs as [|? ? Hc Hs']; subst.
    cbn [app resolve_from]. rewrite Hc, IH by assumption.
    rewrite <- app_assoc. reflexivity.
Qed.

(** Resolving the text of a normal stack gives the stack back: after
    [join_stack sep stack] the top segment is being read and the ones
    below it are resolved. *)
Lemma resolve_from_join (top : jsstring) (below : list jsstring) :
  normal_stack allow isSep (top :: below) ->
  forall t : jsstring,
    resolve_from allow isSep [] [] (join_stack sep (top :: below) ++ t)
    = resolve_from allow isSep below top t.
Proof.
  revert top. induction below as [|s below' IH]; intros top Hn t.
  - cbn [join_stack]. destruct Hn as (_ & Hfree & _).
    rewrite resolve_from_app_free by assumption. reflexivity.
  - destruct Hn as (Hpush & Hfree & Hbelow).
    change (join_stack sep (top :: s :: below'))
      with (join_stack sep (s :: below') ++ sep :: top).
    rewrite <- app_assoc. rewrite IH by assumption.
    cbn [app resolve_from]. rewrite isSep_sep.
    destruct Hbelow as (Hpush' & _).
    rewrite Hpush'.
    rewrite resolve_from_app_free by assumption. reflexivity.
Qed.

Lemma resolve_from_join_end (stack : list jsstring) (trailing : bool) :
  stack <> [] ->
  normal_stack allow isSep stack ->
  resolve_from allow isSep [] []
    (join_stack sep stack ++ (if trailing then [sep] else []))
  = stack.
Proof.
  intros Hne Hn. destruct stack as [|top below]; [congruence|].
  rewrite resolve_from_join by assumption.
  destruct Hn as (Hpush & _).
  destruct trailing; cbn [resolve_from]; rewrite ?isSep_sep;
    cbn [resolve_from]; rewrite Hpush; reflexivity.
Qed.

Lemma join_stack_head (stack : list jsstring) :
  stack_ok isSep stack -> stack <> [] ->
  exists (c : ascii) (rest : jsstring),
    join_stack sep stack = c :: rest /\ isSep c = false.
Proof.
  induction stack as [|top below IH]; intros Hok Hne; [congruence|].
  inversion Hok as [|? ? [Htop Hfree] Hbelow]; subst.
  destruct below as [|s below'].
  - cbn [join_stack]. destruct top as [|c rest]; [congruence|].
    inversion Hfree; subst. eauto.
  - destruct (IH Hbelow ltac:(discriminate)) as (c & rest & E & Hc).
    change (join_stack sep (top :: s :: below'))
      with (join_stack sep (s :: below') ++ sep :: top).
    rewrite E. cbn [app]. eauto.
Qed.

Lemma join_stack_last (stack : list jsstring) :
  stack_ok isSep stack -> stack <> [] ->
  exists (front : jsstring) (c : ascii),
    join_stack sep stack = front ++ [c] /\ isSep c = false
    /\ In c (hd [] stack).
Proof.
  intros Hok Hne. destruct stack as [|top below]; [congruence|].
  inversion Hok as [|? ? [Htop Hfree] Hbelow]; subst.
  destruct (exists_last Htop) as (front & c & ->).
  exists (stack_base sep below ++ front), c.
  rewrite join_stack_cons, app_assoc. split; [reflexivity|].
  unfold separator_free in Hfree. rewrite Forall_forall in Hfree.
  cbn [hd]. split; [apply Hfree|]; apply in_or_app; right; left; reflexivity.
Qed.

Lemma join_stack_nil (stack : list jsstring) :
  stack_ok isSep stack -> join_stack sep stack = [] -> stack = [].
Proof.
  intros Hok E. destruct stack as [|top below]; [reflexivity|].
  destruct (join_stack_head _ Hok ltac:(discriminate)) as (c & r & E' & _).
  congruence.
Qed.

End NormalStacks.


(** ** Normal paths *)

Lemma codeAt_last (f : ascii -> bool) (front : jsstring) (c : ascii) :
  JS.codeAt f (front ++ [c]) (JS.length (front ++ [c]) - 1) = f c.
Proof.
  rewrite JS_length_app. change (JS.length [c]) with 1%Z.
  replace (JS.length front + 1 - 1)%Z with (JS.length front + 0)%Z by lia.
  rewrite codeAt_app_r by lia. reflexivity.
Qed.

Lemma JS_length_zero_cons (c : ascii) (s : jsstring) :
  (JS.length (c :: s) =? 0)%Z = false.
Proof. reflexivity. Qed.

Lemma replace_trailing_separator_snoc (front : jsstring) (c : ascii) :
  JS.replace_trailing_separator (front ++ [c])
  = if ((c =? "/") || (c =? "\"))%char then front else front ++ [c].
Proof.
  induction front as [|d front IH]; [reflexivity|].
  cbn [app]. change (JS.replace_trailing_separator (d :: front ++ [c]))
    with (match front ++ [c] with
          | [] => if ((d =? "/") || (d =? "\"))%char then [] else [d]
          | _ :: _ => d :: JS.replace_trailing_separator (front ++ [c])
          end).
  destruct (front ++ [c]) eqn:E.
  - destruct front; discriminate E.
  - rewrite IH. destruct (_ || _); reflexivity.
Qed.

Lemma replace_trailing_separator_keep (front : jsstring) (c : ascii) :
  c <> "/"%char -> c <> "\"%char ->
  JS.replace_trailing_separator (front ++ [c]) = front ++ [c].
Proof.
  intros H1 H2. rewrite replace_trailing_separator_snoc.
  destruct (Ascii.eqb_spec c "/"); [congruence|].
  destruct (Ascii.eqb_spec c "\"); [congruence|]. reflexivity.
Qed.

Lemma lowerCode_slash (c : ascii) :
  (JS.lowerCode c =? "/")%char = (c =? "/")%char.
Proof. destruct c as [[] [] [] [] [] [] [] []]; reflexivity. Qed.

Lemma lowerCode_backslash (c : ascii) :
  (JS.lowerCode c =? "\")%char = (c =? "\")%char.
Proof. destruct c as [[] [] [] [] [] [] [] []]; reflexivity. Qed.

Lemma lowerCode_dot (c : ascii) :
  (JS.lowerCode c =? ".")%char = (c =? ".")%char.
Proof. destruct c as [[] [] [] [] [] [] [] []]; reflexivity. Qed.


Lemma lowerCode_idempotent (c : ascii) :
  JS.lowerCode (JS.lowerCode c) = JS.lowerCode c.
Proof. destruct c as [[] [] [] [] [] [] [] []]; reflexivity. Qed.

Lemma toLowerCase_idempotent (s : jsstring) :
  JS.toLowerCase (JS.toLowerCase s) = JS.toLowerCase s.
Proof.
  unfold JS.toLowerCase. rewrite map_map. apply map_ext.
  apply lowerCode_idempotent.
Qed.

Lemma toLowerCase_app (s t : jsstring) :
  JS.toLowerCase (s ++ t) = JS.toLowerCase s ++ JS.toLowerCase t.
Proof. apply map_app. Qed.

Lemma toLowerCase_length (s : jsstring) :
  JS.length (JS.toLowerCase s) = JS.length s.
Proof. unfold JS.length, JS.toLowerCase. rewrite length_map. reflexivity. Qed.

Lemma replace_trailing_separator_lower (s : jsstring) :
  JS.replace_trailing_separator (JS.toLowerCase s)
  = JS.toLowerCase (JS.replace_trailing_separator s).
Proof.
  induction s as [|c t IH]; [reflexivity|].
  destruct t as [|d t'].
  - cbn [JS.toLowerCase map JS.replace_trailing_separator].
    rewrite lowerCode_slash, lowerCode_backslash.
    destruct (_ || _); reflexivity.
  - change (JS.toLowerCase (c :: d :: t'))
      with (JS.lowerCode c :: JS.toLowerCase (d :: t')).
    change (JS.replace_trailing_separator (c :: d :: t'))
      with (c :: JS.replace_trailing_separator (d :: t')).
    change (JS.toLowerCase (c :: JS.replace_trailing_separator (d :: t')))
      with (JS.lowerCode c
            :: JS.toLowerCase (JS.replace_trailing_separator (d :: t'))).
    rewrite <- IH.
    change (JS.toLowerCase (d :: t'))
      with (JS.lowerCode d :: JS.toLowerCase t').
    reflexivity.
Qed.

(** A string of dots is the lower case of itself only. *)
Lemma toLowerCase_dots (x s : jsstring) :
  Forall (fun c => c = "."%char) x ->
  jsstring_eqb (JS.toLowerCase s) x = jsstring_eqb s x.
Proof.
  intros Hx.
  assert (H : JS.toLowerCase s = x <-> s = x).
  { revert s. induction Hx as [|d x Hd _ IH]; intros s.
    - destruct s; split; intros H; try reflexivity; discriminate H.
    - subst d. destruct s as [|c t]; [split; discriminate|].
      change (JS.toLowerCase (c :: t))
        with (JS.lowerCode c :: JS.toLowerCase t).
      split; intros H; injection H as H1 H2.
      + pose proof (lowerCode_dot c) as Hc. rewrite H1 in Hc.
        rewrite Ascii.eqb_refl in Hc. symmetry in Hc.
        apply Ascii.eqb_eq in Hc. subst c.
        f_equal. apply IH. exact H2.
      + subst c. f_equal. apply IH. exact H2. }
  destruct (jsstring_eqb s x) eqn:E.
  - apply jsstring_eqb_eq. apply H. apply jsstring_eqb_eq. exact E.
  - apply jsstring_eqb_neq. rewrite H. apply jsstring_eqb_neq. exact E.
Qed.

Lemma push_segment_lower (allow : bool) (stack : list jsstring)
  (seg : jsstring) :
  push_segment allow (map JS.toLowerCase stack) (JS.toLowerCase seg)
  = map JS.toLowerCase (push_segment allow stack seg).
Proof.
  unfold push_segment.
  rewrite (toLowerCase_dots [] seg) by constructor.
  rewrite (toLowerCase_dots (js ".") seg) by (repeat constructor).
  rewrite (toLowerCase_dots (js "..") seg) by (repeat constructor).
  destruct (_ || _); [reflexivity|].
  destruct (jsstring_eqb seg (js "..")); [|reflexivity].
  destruct stack as [|top rest].
  - destruct allow; reflexivity.
  - cbn [map].
    rewrite (toLowerCase_dots (js "..") top) by (repeat constructor).
    destruct (jsstring_eqb top (js "..")); [|reflexivity].
    destruct allow; reflexivity.
Qed.

Section NormalText.

Variable ts : ascii.
Variable isSep : ascii -> bool.
Hypothesis isSep_ts : isSep ts = true.
Hypothesis isSep_dot : isSep "." = false.

Lemma normal_text_trailing (s : jsstring) (stack : list jsstring)
  (trailing : bool) :
  stack <> [] ->
  stack_ok isSep stack ->
  let q := s ++ join_stack ts stack ++ sep_if trailing ts in
  JS.codeAt isSep q (JS.length q - 1) = trailing.
Proof.
  intros Hne Hok q. subst q. destruct trailing; cbn [sep_if].
  - rewrite !app_assoc, codeAt_last. exact isSep_ts.
  - rewrite app_nil_r.
    destruct (join_stack_last ts _ stack Hok Hne) as (front & c & E & Hc & _).
    rewrite E, app_assoc, codeAt_last. exact Hc.
Qed.

Lemma resolve_normal (allow : bool) (stack : list jsstring)
  (trailing : bool) :
  stack <> [] ->
  normal_stack allow isSep stack ->
  resolve_from allow isSep [] [] (join_stack ts stack ++ sep_if trailing ts)
  = stack.
Proof.
  intros Hne Hn.
  exact (resolve_from_join_end allow ts isSep isSep_ts stack trailing Hne Hn).
Qed.

(** *** Another separator *)






(** *** The trailing separator *)

Hypothesis ts_strippable : ((ts =? "/") || (ts =? "\"))%char = true.

Lemma normal_text_strip (q : jsstring) :
  normal_text ts isSep q ->
  (forall c, In c q -> isSep c = false -> c <> "/"%char /\ c <> "\"%char) ->
  (JS.length q >? 1)%Z = true ->
  normal_text ts isSep (JS.replace_trailing_separator q)
  /\ JS.replace_trailing_separator (JS.replace_trailing_separator q)
     = JS.replace_trailing_separator q.
Proof.
  intros H Hkeep Hlen.
  destruct H as [| | |stack trailing Hne Hn|stack trailing Hne Hn];
    try discriminate Hlen.
  - cbn [JS.replace_trailing_separator]. rewrite ts_strippable.
    split; [apply normal_dot|reflexivity].
  - pose proof (normal_stack_ok _ _ _ Hn) as Hok.
    destruct (join_stack_last ts _ stack Hok Hne) as (front & c & E & Hc & _).
    assert (Hstay : JS.replace_trailing_separator (join_stack ts stack)
                    = join_stack ts stack).
    { rewrite E. apply replace_trailing_separator_keep;
        apply (Hkeep c); try exact Hc;
        rewrite E; apply in_or_app; left;
        apply in_or_app; right; left; reflexivity. }
    assert (Hnormal : normal_text ts isSep (join_stack ts stack)).
    { rewrite <- (app_nil_r (join_stack ts stack)).
      apply (normal_relative ts isSep stack false); assumption. }
    destruct trailing; cbn [sep_if].
    + rewrite replace_trailing_separator_snoc, ts_strippable.
      split; assumption.
    + rewrite app_nil_r, Hstay. split; assumption.
  - pose proof (normal_stack_ok _ _ _ Hn) as Hok.
    destruct (join_stack_last ts _ stack Hok Hne) as (front & c & E & Hc & _).
    assert (Hstay : JS.replace_trailing_separator (ts :: join_stack ts stack)
                    = ts :: join_stack ts stack).
    { rewrite E. change (ts :: front ++ [c]) with ((ts :: front) ++ [c]).
      apply replace_trailing_separator_keep;
        apply (Hkeep c); try exact Hc;
        rewrite E; right; apply in_or_app; left;
        apply in_or_app; right; left; reflexivity. }
    assert (Hnormal : normal_text ts isSep (ts :: join_stack ts stack)).
    { rewrite <- (app_nil_r (join_stack ts stack)).
      apply (normal_absolute ts isSep stack false); assumption. }
    destruct trailing; cbn [sep_if].
    + change (ts :: join_stack ts stack ++ [ts])
        with ((ts :: join_stack ts stack) ++ [ts]).
      rewrite replace_trailing_separator_snoc, ts_strippable.
      split; assumption.
    + rewrite app_nil_r, Hstay. split; assumption.
Qed.

(** *** Lower case *)

Hypothesis lower_isSep : forall c, isSep (JS.lowerCode c) = isSep c.
Hypothesis lower_ts : JS.lowerCode ts = ts.

Lemma normal_stack_lower (allow : bool) (stack : list jsstring) :
  normal_stack allow isSep stack ->
  normal_stack allow isSep (map JS.toLowerCase stack).
Proof.
  induction stack as [|s below IH]; intros Hn; [exact I|].
  destruct Hn as (Hpush & Hfree & Hbelow).
  cbn [map normal_stack]. repeat split.
  - rewrite push_segment_lower, Hpush. reflexivity.
  - unfold separator_free in *. unfold JS.toLowerCase.
    rewrite Forall_map. eapply Forall_impl; [|exact Hfree].
    intros c Hc. cbv beta in *. rewrite lower_isSep. exact Hc.
  - apply IH. exact Hbelow.
Qed.

Lemma join_stack_lower (stack : list jsstring) :
  JS.toLowerCase (join_stack ts stack)
  = join_stack ts (map JS.toLowerCase stack).
Proof.
  induction stack as [|top below IH]; [reflexivity|].
  destruct below as [|s below']; [reflexivity|].
  change (join_stack ts (top :: s :: below'))
    with (join_stack ts (s :: below') ++ ts :: top).
  rewrite toLowerCase_app, IH.
  change (JS.toLowerCase (ts :: top))
    with (JS.lowerCode ts :: JS.toLowerCase top).
  rewrite lower_ts. reflexivity.
Qed.

Lemma sep_if_lower (b : bool) :
  JS.toLowerCase (sep_if b ts) = sep_if b ts.
Proof.
  destruct b; [|reflexivity].
  cbn [sep_if JS.toLowerCase map]. rewrite lower_ts. reflexivity.
Qed.

Lemma normal_text_lower (q : jsstring) :
  normal_text ts isSep q -> normal_text ts isSep (JS.toLowerCase q).
Proof.
  intros H. destruct H as [| | |stack trailing Hne Hn|stack trailing Hne Hn].
  - cbn [JS.toLowerCase map]. rewrite lower_ts. apply normal_root.
  - apply normal_dot.
  - change (JS.toLowerCase ["."%char; ts])
      with ["."%char; JS.lowerCode ts].
    rewrite lower_ts. apply normal_dot_sep.
  - rewrite toLowerCase_app, join_stack_lower, sep_if_lower.
    apply normal_relative.
    + destruct stack; [congruence|discriminate].
    + apply normal_stack_lower. exact Hn.
  - change (JS.toLowerCase (ts :: join_stack ts stack ++ sep_if trailing ts))
      with (JS.lowerCode ts
            :: JS.toLowerCase (join_stack ts stack ++ sep_if trailing ts)).
    rewrite lower_ts, toLowerCase_app, join_stack_lower, sep_if_lower.
    apply normal_absolute.
    + destruct stack; [congruence|discriminate].
    + apply normal_stack_lower. exact Hn.
Qed.

End NormalText.

(** ** [path.posix.normalize]: its results are its fixed points *)

Lemma posix_normalize_normal (p : jsstring) :
  normal_text "/" NodePath.isPosixPathSeparator (NodePath.posix.normalize p).
Proof.
  unfold NodePath.posix.normalize.
  destruct p as [|c t]; [apply normal_dot|].
  rewrite JS_length_zero_cons.
  set (abs := JS.codeAt _ (c :: t) 0).
  set (trailing := JS.codeAt _ (c :: t) _).
  rewrite normalizeString_resolve by reflexivity.
  set (stack := resolve_from (negb abs) _ [] [] (c :: t)).
  assert (Hn : normal_stack (negb abs) NodePath.isPosixPathSeparator stack).
  { apply resolve_from_normal; [exact I|constructor]. }
  destruct (JS.length (join_stack "/" stack) =? 0)%Z eqn:E.
  - destruct abs; [apply normal_root|].
    destruct trailing; [apply normal_dot_sep|apply normal_dot].
  - assert (Hne : stack <> []).
    { intros H. rewrite H in E. discriminate E. }
    assert (Ht : (if trailing then join_stack "/" stack ++ js "/"
                  else join_stack "/" stack)
                 = join_stack "/" stack ++ sep_if trailing "/").
    { destruct trailing; [reflexivity|]. cbn [sep_if].
      rewrite app_nil_r. reflexivity. }
    rewrite Ht. clearbody stack.
    destruct abs; [apply normal_absolute|apply normal_relative];
      assumption.
Qed.

Lemma posix_normal_fixed (q : jsstring) :
  normal_text "/" NodePath.isPosixPathSeparator q ->
  NodePath.posix.normalize q = q.
Proof.
  intros H. destruct H as [| | |stack trailing Hne Hn|stack trailing Hne Hn];
    try reflexivity.
  - (* relative *)
    pose proof (normal_stack_ok _ _ _ Hn) as Hok.
    destruct (join_stack_head "/" _ stack Hok Hne) as (c & rest & E & Hc).
    unfold NodePath.posix.normalize.
    pose proof (normal_text_trailing "/" NodePath.isPosixPathSeparator
                  eq_refl [] stack trailing Hne Hok) as Ht.
    cbv zeta in Ht. cbn [app] in Ht.
    change (JS.codeAt (fun c => (c =? NodePath.CHAR_FORWARD_SLASH)%char))
      with (JS.codeAt NodePath.isPosixPathSeparator).
    rewrite Ht.
    rewrite normalizeString_resolve by reflexivity.
    assert (Habs : JS.codeAt NodePath.isPosixPathSeparator
                     (join_stack "/" stack ++ sep_if trailing "/") 0 = false).
    { rewrite E. exact Hc. }
    rewrite Habs. cbn [negb].
    rewrite (resolve_normal "/" _ eq_refl true stack trailing Hne Hn).
    assert (Hlen : (JS.length (join_stack "/" stack) =? 0)%Z = false)
      by (rewrite E; reflexivity).
    assert (Hlen' : (JS.length (join_stack "/" stack ++ sep_if trailing "/")
                     =? 0)%Z = false)
      by (rewrite E; reflexivity).
    rewrite Hlen, Hlen'. destruct trailing; [reflexivity|].
    cbn [sep_if]. rewrite app_nil_r. reflexivity.
  - (* absolute *)
    pose proof (normal_stack_ok _ _ _ Hn) as Hok.
    destruct (join_stack_head "/" _ stack Hok Hne) as (c & rest & E & Hc).
    unfold NodePath.posix.normalize.
    pose proof (normal_text_trailing "/" NodePath.isPosixPathSeparator
                  eq_refl ["/"%char] stack trailing Hne Hok) as Ht.
    cbv zeta in Ht. cbn [app] in Ht.
    change (JS.codeAt (fun c => (c =? NodePath.CHAR_FORWARD_SLASH)%char))
      with (JS.codeAt NodePath.isPosixPathSeparator).
    rewrite Ht.
    rewrite normalizeString_resolve by reflexivity.
    rewrite JS_length_zero_cons.
    change (JS.codeAt NodePath.isPosixPathSeparator
              ("/"%char :: join_stack "/" stack ++ sep_if trailing "/") 0)
      with true.
    cbn [negb resolve_from]. change (NodePath.isPosixPathSeparator "/") with true.
    cbv iota. rewrite push_segment_nil.
    rewrite (resolve_normal "/" _ eq_refl false stack trailing Hne Hn).
    assert (Hlen : (JS.length (join_stack "/" stack) =? 0)%Z = false)
      by (rewrite E; reflexivity).
    rewrite Hlen. destruct trailing; [reflexivity|].
    cbn [sep_if]. rewrite app_nil_r. reflexivity.
Qed.

(** [path.posix.normalize] is idempotent. *)
Lemma posix_normalize_idempotent (p : jsstring) :
  NodePath.posix.normalize (NodePath.posix.normalize p)
  = NodePath.posix.normalize p.
Proof. apply posix_normal_fixed, posix_normalize_normal. Qed.

(** ** [path.win32.normalize] on paths without drive and UNC root *)





Lemma join_stack_positive (sep : ascii) (isSep : ascii -> bool)
  (stack : list jsstring) :
  stack_ok isSep stack -> stack <> [] ->
  (JS.length (join_stack sep stack) =? 0)%Z = false
  /\ (JS.length (join_stack sep stack) >? 0)%Z = true.
Proof.
  intros Hok Hne.
  destruct (join_stack_head sep _ stack Hok Hne) as (c & rest & E & _).
  rewrite E. split; reflexivity.
Qed.


(** ** Idempotence of [normalizePath] *)




Lemma replace_backslashes_free (s : jsstring) :
  backslash_free s -> JS.replace_backslashes s = s.
Proof.
  intros H. unfold JS.replace_backslashes.
  induction H as [|c t Hc _ IH]; [reflexivity|].
  cbn [map]. rewrite IH.
  destruct (Ascii.eqb_spec c "\"); [congruence|reflexivity].
Qed.

Lemma normalizePath_nonempty_eq (host : Host) (r : jsstring)
  (options : NormalizationOptions) :
  r <> [] ->
  normalizePath host r options
  = let n := path_normalize host r in
    if jsstring_eqb n (js ".") then r
    else
      let n1 := if nullish (forceForwardSlash options) true
                then JS.replace_backslashes n else n in
      let n2 := if nullish (removeTrailingSlash options) true
                   && (JS.length n1 >? 1)%Z
                then JS.replace_trailing_separator n1 else n1 in
      if nullish (toLowerCase options)
           (OSType_eqb (resolve_os host (no_os options)) windows)
      then JS.toLowerCase n2 else n2.
Proof. destruct r; [congruence|reflexivity]. Qed.

(** [normalizePath] returns [r] unchanged when [path.normalize] and the
    replacement of the backslashes give [r] back and [r] already has the
    trailing separator and the case the options ask for. *)
Lemma normalizePath_stable (host : Host) (r : jsstring)
  (options : NormalizationOptions) :
  (if nullish (forceForwardSlash options) true
   then JS.replace_backslashes (path_normalize host r)
   else path_normalize host r) = r ->
  (nullish (removeTrailingSlash options) true && (JS.length r >? 1)%Z = true ->
   JS.replace_trailing_separator r = r) ->
  (nullish (toLowerCase options)
     (OSType_eqb (resolve_os host (no_os options)) windows) = true ->
   JS.toLowerCase r = r) ->
  normalizePath host r options = r.
Proof.
  intros Hback Hstrip Hlower.
  destruct (list_eq_dec ascii_dec r []) as [->|Hne]; [reflexivity|].
  rewrite normalizePath_nonempty_eq by exact Hne. cbv zeta.
  destruct (jsstring_eqb (path_normalize host r) (js ".")); [reflexivity|].
  rewrite Hback.
  destruct (nullish (removeTrailingSlash options) true
            && (JS.length r >? 1)%Z) eqn:Es.
  - rewrite (Hstrip eq_refl).
    destruct (nullish (toLowerCase options) _) eqn:El; [|reflexivity].
    apply Hlower. reflexivity.
  - destruct (nullish (toLowerCase options) _) eqn:El; [|reflexivity].
    apply Hlower. reflexivity.
Qed.

(** The last two steps of [normalizePath], on a normal path: the result
    is normal, and the two steps leave it as it is. *)
Lemma strip_and_lower_normal (ts : ascii) (isSep : ascii -> bool)
  (n1 : jsstring) (rts low : bool) :
  ((ts =? "/") || (ts =? "\"))%char = true ->
  (forall c, isSep (JS.lowerCode c) = isSep c) ->
  JS.lowerCode ts = ts ->
  normal_text ts isSep n1 ->
  (forall c, In c n1 -> isSep c = false -> c <> "/"%char /\ c <> "\"%char) ->
  let n2 := if rts && (JS.length n1 >? 1)%Z
            then JS.replace_trailing_separator n1 else n1 in
  let r := if low then JS.toLowerCase n2 else n2 in
  normal_text ts isSep r
  /\ (rts && (JS.length r >? 1)%Z = true ->
      JS.replace_trailing_separator r = r)
  /\ (low = true -> JS.toLowerCase r = r).
Proof.
  intros Hts Hlow Hlts Hn Hkeep n2 r.
  assert (H2 : normal_text ts isSep n2
               /\ (rts && (JS.length n2 >? 1)%Z = true ->
                   JS.replace_trailing_separator n2 = n2)).
  { subst n2. destruct (rts && (JS.length n1 >? 1)%Z) eqn:Es.
    - apply andb_true_iff in Es. destruct Es as [_ Es].
      destruct (normal_text_strip ts isSep Hts n1 Hn Hkeep Es) as [Hs1 Hs2].
      split; [exact Hs1|intros _; exact Hs2].
    - split; [exact Hn|]. intros H. congruence. }
  clearbody n2. destruct H2 as (Hn2 & Hs2). subst r.
  destruct low.
  - repeat split.
    + apply normal_text_lower; assumption.
    + rewrite toLowerCase_length. intros H.
      rewrite replace_trailing_separator_lower, (Hs2 H). reflexivity.
    + intros _. apply toLowerCase_idempotent.
  - repeat split; try assumption. discriminate.
Qed.

Lemma strip_and_lower_chars (P : ascii -> Prop) (n1 : jsstring)
  (rts low : bool) :
  (forall c, P c -> P (JS.lowerCode c)) ->
  Forall P n1 ->
  Forall P (let n2 := if rts && (JS.length n1 >? 1)%Z
                      then JS.replace_trailing_separator n1 else n1 in
            if low then JS.toLowerCase n2 else n2).
Proof.
  intros Hlow Hn. cbv zeta.
  assert (H2 : Forall P (if rts && (JS.length n1 >? 1)%Z
                         then JS.replace_trailing_separator n1 else n1)).
  { destruct (_ && _); [|exact Hn].
    apply replace_trailing_separator_chars. exact Hn. }
  destruct low; [|exact H2].
  apply toLowerCase_chars; assumption.
Qed.

Lemma path_normalize_posix (host : Host) :
  is_win32 host = false -> path_normalize host = NodePath.posix.normalize.
Proof. intros H. unfold path_normalize. rewrite H. reflexivity. Qed.


Lemma lowerCode_not_backslash (c : ascii) :
  c <> "\"%char -> JS.lowerCode c <> "\"%char.
Proof.
  intros Hc E. pose proof (lowerCode_backslash c) as H. rewrite E in H.
  destruct (Ascii.eqb_spec c "\"); [congruence|discriminate H].
Qed.




(** On a POSIX host, for a path without backslash. *)
Lemma normalizePath_idempotent_posix (host : Host) (p : jsstring)
  (options : NormalizationOptions) :
  is_win32 host = false ->
  backslash_free p ->
  normalizePath host (normalizePath host p options) options
  = normalizePath host p options.
Proof.
  intros Hhost Hfree.
  destruct p as [|c t]; [reflexivity|].
  rewrite (normalizePath_nonempty_eq host (c :: t)) by discriminate.
  cbv zeta. rewrite (path_normalize_posix host Hhost).
  pose proof (posix_normalize_normal (c :: t)) as Hn.
  assert (Hb : backslash_free (NodePath.posix.normalize (c :: t)))
    by (apply posix_normalize_chars; [discriminate|discriminate|exact Hfree]).
  set (n := NodePath.posix.normalize (c :: t)) in *.
  destruct (jsstring_eqb n (js ".")) eqn:Edot.
  - (* the path itself is returned *)
    rewrite normalizePath_nonempty_eq by discriminate. cbv zeta.
    rewrite (path_normalize_posix host Hhost). fold n. rewrite Edot.
    reflexivity.
  - rewrite (replace_backslashes_free _ Hb).
    replace (if nullish (forceForwardSlash options) true then n else n)
      with n by (destruct (nullish (forceForwardSlash options) true);
                 reflexivity).
    set (rts := nullish (removeTrailingSlash options) true).
    set (low := nullish (toLowerCase options) _).
    assert (Hkeep : forall x, In x n ->
              NodePath.isPosixPathSeparator x = false ->
              x <> "/"%char /\ x <> "\"%char).
    { intros x Hx Hsep. split.
      - intros ->. discriminate Hsep.
      - unfold backslash_free in Hb. rewrite Forall_forall in Hb.
        apply Hb. exact Hx. }
    destruct (strip_and_lower_normal "/" NodePath.isPosixPathSeparator
                n rts low eq_refl lowerCode_slash eq_refl Hn Hkeep)
      as (Hr1 & Hr2 & Hr3).
    pose proof (strip_and_lower_chars _ n rts low lowerCode_not_backslash Hb)
      as Hrb.
    cbv zeta in Hr1, Hr2, Hr3, Hrb.
    set (r := if low then _ else _) in *. clearbody r.
    apply normalizePath_stable; try assumption.
    rewrite (path_normalize_posix host Hhost), (posix_normal_fixed r Hr1).
    rewrite (replace_backslashes_free r Hrb).
    destruct (nullish (forceForwardSlash options) true); reflexivity.
Qed.



(** Nor is it idempotent on a Windows host on a path with a colon:
    ['C:/'] gives ['c:'], which gives ['c:.']. *)
Lemma normalizePath_not_idempotent_windows_host :
  normalizePath windows_host (js "C:/") no_normalization_options = js "c:"
  /\ normalizePath windows_host (js "c:") no_normalization_options
     = js "c:.".
Proof. split; reflexivity. Qed.



(** * Further properties *)

(** ** [validatePath]: the shape of the result *)

(** X1: a result of [validatePath] is either valid, with the normalized
    path and no [errors] property, or invalid, with a non-empty error
    list and no [normalizedPath]; never a mix of the two. *)
Theorem validatePath_result_shape (host : Host) (p : jsstring)
  (options : ValidationOptions) :
  let r := validatePath host p options in
  (isValid r = true
   /\ errors r = None
   /\ normalizedPath r
      = Some (normalizePath host p
                (only_os (resolve_os host (vo_os options)))))
  \/ (isValid r = false
      /\ normalizedPath r = None
      /\ exists (e : ValidationError) (l : list ValidationError),
           errors r = Some (e :: l)).
Proof.
  cbv zeta. destruct p as [|c t].
  - right. cbn. repeat split. eauto.
  - unfold validatePath, push_if. rewrite match_global_has_char.
    destruct (JS.length (c :: t) >? _)%Z;
      destruct (has_char _ (c :: t));
      destruct (negb (nullish (allowTraversal options) false)
                && JS.includes (c :: t) (js ".."));
      destruct (path_isAbsolute host (c :: t));
      destruct (negb (nullish (allowAbsolute options) true));
      destruct (negb (nullish (allowRelative options) true));
      cbn; first [left; repeat split; reflexivity
                 |right; repeat split; eauto].
Qed.

Lemma validatePath_valid_checks (host : Host) (c : ascii) (t : jsstring)
  (options : ValidationOptions) :
  isValid (validatePath host (c :: t) options) = true
  <-> checks_pass host (c :: t) options.
Proof.
  rewrite validatePath_isValid. unfold check_codes, checks_pass,
    effective_limit.
  set (len := JS.length (c :: t)). set (lim := number_or _ _).
  assert (Hlen : (len >? lim)%Z = false <-> (len <= lim)%Z).
  { rewrite Z.gtb_ltb. apply Z.ltb_ge. }
  destruct (len >? lim)%Z;
    destruct (has_char _ (c :: t));
    destruct (nullish (allowTraversal options) false);
    destruct (JS.includes (c :: t) (js ".."));
    destruct (path_isAbsolute host (c :: t));
    destruct (nullish (allowAbsolute options) true);
    destruct (nullish (allowRelative options) true);
    cbn; intuition discriminate.
Qed.

(** X2: a non-empty path is valid exactly when it passes the five
    checks: length, illegal characters, traversal, and the two policies
    on absolute and relative paths. *)
Theorem validatePath_valid_iff (host : Host) (c : ascii) (t : jsstring)
  (options : ValidationOptions) :
  isValid (validatePath host (c :: t) options) = true
  <-> checks_pass host (c :: t) options.
Proof. apply validatePath_valid_checks. Qed.

(** ** [validatePath]: the error list *)

(** X3: the checks on a non-empty path do not depend on one another:
    each of the five error codes is in the list exactly when its own
    check fails, whatever the other checks find. *)
Theorem validatePath_checks_independent (host : Host) (c : ascii)
  (t : jsstring) (options : ValidationOptions) :
  let codes := error_codes (validatePath host (c :: t) options) in
  (In TOO_LONG codes
   <-> (JS.length (c :: t) > effective_limit host options)%Z)
  /\ (In ILLEGAL_CHAR codes
      <-> has_char (illegal_chars_of (resolve_os host (vo_os options)))
            (c :: t) = true)
  /\ (In TRAVERSAL codes
      <-> nullish (allowTraversal options) false = false
          /\ JS.includes (c :: t) (js "..") = true)
  /\ (In ABSOLUTE_NOT_ALLOWED codes
      <-> path_isAbsolute host (c :: t) = true
          /\ nullish (allowAbsolute options) true = false)
  /\ (In RELATIVE_NOT_ALLOWED codes
      <-> path_isAbsolute host (c :: t) = false
          /\ nullish (allowRelative options) true = false).
Proof.
  cbv zeta. rewrite validatePath_error_codes.
  unfold check_codes, effective_limit.
  set (len := JS.length (c :: t)). set (lim := number_or _ _).
  assert (Hlen : (len >? lim)%Z = true <-> (len > lim)%Z)
    by apply Z.gtb_gt.
  destruct (len >? lim)%Z;
    destruct (has_char _ (c :: t));
    destruct (nullish (allowTraversal options) false);
    destruct (JS.includes (c :: t) (js ".."));
    destruct (path_isAbsolute host (c :: t));
    destruct (nullish (allowAbsolute options) true);
    destruct (nullish (allowRelative options) true);
    cbn; intuition discriminate.
Qed.

(** X4: the error list of a path has no code twice and at most four
    entries; [SYNTAX] is never reported, [EMPTY_PATH] only for the empty
    path, and [ABSOLUTE_NOT_ALLOWED] never together with
    [RELATIVE_NOT_ALLOWED]. *)
Theorem validatePath_error_list_bounds (host : Host) (p : jsstring)
  (options : ValidationOptions) :
  let codes := error_codes (validatePath host p options) in
  NoDup codes
  /\ (List.length codes <= 4)%nat
  /\ ~ In SYNTAX codes
  /\ (In EMPTY_PATH codes <-> p = [])
  /\ ~ (In ABSOLUTE_NOT_ALLOWED codes /\ In RELATIVE_NOT_ALLOWED codes).
Proof.
  cbv zeta. destruct p as [|c t].
  - cbn. repeat split; try (intros; reflexivity).
    + constructor; [intros []|constructor].
    + lia.
    + intros [H|[]]. discriminate H.
    + intros _. left. reflexivity.
    + intros [[H|[]] _]. discriminate H.
  - rewrite validatePath_error_codes. unfold check_codes.
    destruct (JS.length (c :: t) >? _)%Z;
      destruct (has_char _ (c :: t));
      destruct (negb (nullish (allowTraversal options) false)
                && JS.includes (c :: t) (js ".."));
      destruct (path_isAbsolute host (c :: t));
      destruct (negb (nullish (allowAbsolute options) true));
      destruct (negb (nullish (allowRelative options) true));
      cbn; (split; [repeat constructor; cbn; intuition discriminate|]);
      (split; [lia|]); intuition discriminate.
Qed.

(** X5: when absolute and relative paths are both forbidden, no path is
    valid. *)
Theorem validatePath_nothing_allowed (host : Host) (p : jsstring)
  (options : ValidationOptions) :
  allowAbsolute options = Some false ->
  allowRelative options = Some false ->
  isValid (validatePath host p options) = false.
Proof.
  intros Ha Hr. destruct p as [|c t]; [reflexivity|].
  destruct (isValid (validatePath host (c :: t) options)) eqn:E;
    [|reflexivity].
  apply validatePath_isValid in E. unfold check_codes in E.
  rewrite Ha, Hr in E. cbn [nullish negb] in E. rewrite !andb_true_r in E.
  destruct (path_isAbsolute host (c :: t)); cbn [negb] in E.
  - repeat match type of E with
           | context [if ?b then _ else _] => destruct b
           end; discriminate E.
  - repeat match type of E with
           | context [if ?b then _ else _] => destruct b
           end; discriminate E.
Qed.

(** For instance ['a/b'] *)
Lemma validatePath_nothing_allowed_witness :
  isValid
    (validatePath posix_host (js "a/b")
       {| vo_os := None; allowTraversal := None; maxLength := None;
          allowAbsolute := Some false; allowRelative := Some false |})
  = false.
Proof.
  exact (validatePath_nothing_allowed posix_host (js "a/b")
           {| vo_os := None; allowTraversal := None; maxLength := None;
              allowAbsolute := Some false; allowRelative := Some false |}
           eq_refl eq_refl).
Defined.

(** X6: under the rules of Windows the colon is an illegal character,
    so every path with a colon, a drive letter path such as
    ['C:\Users'] too, is invalid and gets an [ILLEGAL_CHAR] error. *)
Theorem validatePath_windows_colon (host : Host) (p : jsstring)
  (options : ValidationOptions) :
  resolve_os host (vo_os options) = windows ->
  In ":"%char p ->
  isValid (validatePath host p options) = false
  /\ In ILLEGAL_CHAR (error_codes (validatePath host p options)).
Proof.
  intros Hos Hin. destruct p as [|c t]; [destruct Hin|].
  assert (Hill : has_char (illegal_chars_of (resolve_os host (vo_os options)))
                   (c :: t) = true).
  { rewrite Hos. unfold has_char. apply existsb_exists.
    exists ":"%char. split; [exact Hin|reflexivity]. }
  assert (Hcode : In ILLEGAL_CHAR (check_codes host (c :: t) options)).
  { unfold check_codes. rewrite Hill.
    apply in_or_app. right. left. reflexivity. }
  split.
  - destruct (isValid (validatePath host (c :: t) options)) eqn:E;
      [|reflexivity].
    apply validatePath_isValid in E. rewrite E in Hcode. destruct Hcode.
  - rewrite validatePath_error_codes. exact Hcode.
Qed.

(** For instance ['C:\Users'] on a Windows host. *)
Lemma validatePath_windows_colon_witness :
  resolve_os windows_host (vo_os no_validation_options) = windows
  /\ In ":"%char (js "C:\Users")
  /\ isValid (validatePath windows_host (js "C:\Users") no_validation_options)
     = false.
Proof.
  assert (H : In ":"%char (js "C:\Users")) by (right; left; reflexivity).
  refine (conj eq_refl (conj H _)).
  exact (proj1 (validatePath_windows_colon windows_host (js "C:\Users")
                  no_validation_options eq_refl H)).
Defined.

Lemma posix_illegal_is_windows_illegal (c : ascii) :
  POSIX_ILLEGAL_CHARS c = true -> WINDOWS_ILLEGAL_CHARS c = true.
Proof. destruct c as [[] [] [] [] [] [] [] []]; intros H; try discriminate H; reflexivity. Qed.

(** X7: a path that is valid under the rules of Windows is valid under
    those of POSIX, the host and the other options being the same. *)
Theorem validatePath_windows_then_posix (host : Host) (p : jsstring)
  (options : ValidationOptions) :
  isValid (validatePath host p (with_os windows options)) = true ->
  isValid (validatePath host p (with_os posix options)) = true.
Proof.
  destruct p as [|c t]; [intros H; discriminate H|].
  rewrite !validatePath_valid_checks.
  unfold checks_pass, effective_limit.
  cbn [with_os vo_os allowTraversal maxLength allowAbsolute allowRelative
       resolve_os].
  intros (H1 & H2 & H3 & H4 & H5). repeat split; try assumption.
  - unfold number_or in *. destruct (maxLength options) as [m|].
    + destruct (m =? 0)%Z; [|exact H1].
      change (getMaxPathLength windows) with 260%Z in H1.
      change (getMaxPathLength posix) with 4096%Z. lia.
    + change (getMaxPathLength windows) with 260%Z in H1.
      change (getMaxPathLength posix) with 4096%Z. lia.
  - apply has_char_false. apply has_char_false in H2.
    eapply Forall_impl; [|exact H2].
    intros x Hx. cbv beta in *.
    change (illegal_chars_of windows) with WINDOWS_ILLEGAL_CHARS in Hx.
    change (illegal_chars_of posix) with POSIX_ILLEGAL_CHARS.
    destruct (POSIX_ILLEGAL_CHARS x) eqn:E; [|reflexivity].
    apply posix_illegal_is_windows_illegal in E. congruence.
Qed.

(** For instance ['a/b'] *)
Lemma validatePath_windows_then_posix_witness :
  isValid (validatePath posix_host (js "a/b")
             (with_os windows no_validation_options)) = true
  /\ isValid (validatePath posix_host (js "a/b")
                (with_os posix no_validation_options)) = true.
Proof.
  refine (conj eq_refl _).
  exact (validatePath_windows_then_posix posix_host (js "a/b")
           no_validation_options eq_refl).
Defined.

(** ** [normalizePath]: what the result looks like *)

(** X8: [normalizePath] returns the empty string for the empty string
    only. *)
Theorem normalizePath_empty_iff (host : Host) (p : jsstring)
  (options : NormalizationOptions) :
  normalizePath host p options = [] <-> p = [].
Proof.
  split.
  - destruct p as [|c t]; [reflexivity|]. intros H.
    exfalso. exact (normalizePath_nonempty host c t options H).
  - intros ->. reflexivity.
Qed.

Lemma replace_backslashes_backslash_free (s : jsstring) :
  backslash_free (JS.replace_backslashes s).
Proof.
  unfold backslash_free, JS.replace_backslashes.
  induction s as [|c t IH]; cbn [map]; constructor; [|exact IH].
  destruct (Ascii.eqb_spec c "\"); [discriminate|assumption].
Qed.

(** X9: unless [forceForwardSlash] is [false], the result of
    [normalizePath] has no backslash, provided [path.normalize] does not
    answer ['.'] (the input is returned as it is then). *)
Theorem normalizePath_forward_slashes (host : Host) (p : jsstring)
  (options : NormalizationOptions) :
  nullish (forceForwardSlash options) true = true ->
  path_normalize host p <> js "." ->
  backslash_free (normalizePath host p options).
Proof.
  intros Hffs Hdot. destruct p as [|c t]; [constructor|].
  rewrite normalizePath_nonempty_eq by discriminate. cbv zeta.
  apply jsstring_eqb_neq in Hdot. rewrite Hdot, Hffs.
  apply (strip_and_lower_chars (fun x => x <> "\"%char)).
  - exact lowerCode_not_backslash.
  - apply replace_backslashes_backslash_free.
Qed.

(** For instance ['a\b\..\c\'] on a POSIX host. *)
Lemma normalizePath_forward_slashes_witness :
  nullish (forceForwardSlash no_normalization_options) true = true
  /\ path_normalize posix_host (js "a\b\..\c\") <> js "."
  /\ backslash_free
       (normalizePath posix_host (js "a\b\..\c\") no_normalization_options).
Proof.
  assert (H : path_normalize posix_host (js "a\b\..\c\") <> js ".")
    by (vm_compute; discriminate).
  refine (conj eq_refl (conj H _)).
  exact (normalizePath_forward_slashes posix_host (js "a\b\..\c\")
           no_normalization_options eq_refl H).
Defined.

(** X10: when [toLowerCase] is [true], or is left out and the resolved
    OS is Windows, the result of [normalizePath] is in lower case,
    provided [path.normalize] does not answer ['.']. *)
Theorem normalizePath_lower_case (host : Host) (p : jsstring)
  (options : NormalizationOptions) :
  nullish (toLowerCase options)
    (OSType_eqb (resolve_os host (no_os options)) windows) = true ->
  path_normalize host p <> js "." ->
  JS.toLowerCase (normalizePath host p options)
  = normalizePath host p options.
Proof.
  intros Hlow Hdot. destruct p as [|c t]; [reflexivity|].
  rewrite normalizePath_nonempty_eq by discriminate. cbv zeta.
  apply jsstring_eqb_neq in Hdot. rewrite Hdot, Hlow.
  apply toLowerCase_idempotent.
Qed.

(** For instance ['Path/To/File.TXT'] under [{ os: 'windows' }]. *)
Lemma normalizePath_lower_case_witness :
  nullish (toLowerCase (only_os windows))
    (OSType_eqb (resolve_os posix_host (no_os (only_os windows))) windows)
  = true
  /\ path_normalize posix_host (js "Path/To/File.TXT") <> js "."
  /\ normalizePath posix_host (js "Path/To/File.TXT") (only_os windows)
     = js "path/to/file.txt".
Proof.
  assert (H : path_normalize posix_host (js "Path/To/File.TXT") <> js ".")
    by (vm_compute; discriminate).
  refine (conj eq_refl (conj H _)).
  rewrite <- (normalizePath_lower_case posix_host (js "Path/To/File.TXT")
                (only_os windows) eq_refl H).
  reflexivity.
Defined.

(** ** [sanitizePath] *)

(** X11: when the caller names the OS (['windows'] or ['posix']), leaves
    the argument out, or passes ['auto'] on a host that is not Windows,
    the result of [sanitizePath] has no character that is illegal on the
    target OS. *)
Theorem sanitizePath_output_legal (host : Host) (p : jsstring)
  (os : option OSType) :
  (os = Some auto -> is_win32 host = false) ->
  has_char (illegal_chars_of (resolve_os host os)) (sanitizePath host p os)
  = false.
Proof. apply sanitizePath_no_illegal_char. Qed.

(** For instance ['path/to/<file>:*.txt'] under ['windows']. *)
Lemma sanitizePath_output_legal_witness :
  (Some windows = Some auto -> is_win32 posix_host = false)
  /\ has_char WINDOWS_ILLEGAL_CHARS
       (sanitizePath posix_host (js "path/to/<file>:*.txt") (Some windows))
     = false.
Proof.
  assert (H : Some windows = Some auto -> is_win32 posix_host = false)
    by (intros _; reflexivity).
  refine (conj H _).
  exact (sanitizePath_output_legal posix_host (js "path/to/<file>:*.txt")
           (Some windows) H).
Defined.

Lemma filter_nil_forallb (cls : ascii -> bool) (s : jsstring) :
  JS.replace_global_empty cls s = [] <-> forallb cls s = true.
Proof.
  unfold JS.replace_global_empty. induction s as [|c t IH];
    [split; reflexivity|].
  cbn [filter forallb]. destruct (cls c); cbn [negb andb].
  - exact IH.
  - split; discriminate.
Qed.

(** X12: [sanitizePath] returns the empty string exactly when every
    character of the input is in the class it deletes (the empty input
    included): nothing is left to normalize then. *)
Theorem sanitizePath_empty_iff (host : Host) (p : jsstring)
  (os : option OSType) :
  sanitizePath host p os = [] <-> forallb (sanitize_class host os) p = true.
Proof.
  unfold sanitizePath, sanitize_class.
  set (cls := illegal_chars_of _).
  destruct p as [|c t]; [split; reflexivity|].
  rewrite <- filter_nil_forallb.
  destruct (JS.replace_global_empty cls (c :: t)) as [|d s] eqn:E.
  - split; reflexivity.
  - split; [|discriminate]. intros H. exfalso.
    exact (normalizePath_nonempty host d s _ H).
Qed.

(** X13: what [sanitizePath] returns never fails the illegal character
    check of [validatePath] for the same [os] (['auto'] on a Windows
    host apart). *)
Theorem sanitizePath_then_validatePath (host : Host) (p : jsstring)
  (options : ValidationOptions) :
  (vo_os options = Some auto -> is_win32 host = false) ->
  ~ In ILLEGAL_CHAR
      (error_codes
         (validatePath host (sanitizePath host p (vo_os options)) options)).
Proof.
  intros Hauto.
  pose proof (sanitizePath_no_illegal_char host p (vo_os options) Hauto)
    as Hlegal.
  destruct (sanitizePath host p (vo_os options)) as [|c t].
  - cbn. intros [H|[]]. discriminate H.
  - rewrite validatePath_error_codes. unfold check_codes. rewrite Hlegal.
    repeat match goal with
           | |- context [if ?b then _ else _] => destruct b
           end; cbn; intuition discriminate.
Qed.

(** For instance ['a<b>?.txt'] under [{ os: 'windows' }]. *)
Lemma sanitizePath_then_validatePath_witness :
  (vo_os os_windows_only = Some auto -> is_win32 posix_host = false)
  /\ ~ In ILLEGAL_CHAR
         (error_codes
            (validatePath posix_host
               (sanitizePath posix_host (js "a<b>?.txt")
                  (vo_os os_windows_only))
               os_windows_only)).
Proof.
  assert (H : vo_os os_windows_only = Some auto -> is_win32 posix_host = false)
    by (intros _; reflexivity).
  refine (conj H _).
  exact (sanitizePath_then_validatePath posix_host (js "a<b>?.txt")
           os_windows_only H).
Defined.

(** ** [joinPaths] *)

Lemma posix_join_eq (args : list jsstring) :
  NodePath.posix.join args
  = match filter non_empty args with
    | [] => js "."
    | first :: rest => NodePath.posix.normalize (join_with "/" (first :: rest))
    end.
Proof.
  unfold NodePath.posix.join. rewrite posix_join_args_none.
  destruct args as [|s rest]; [reflexivity|].
  change (Z.of_nat (List.length (s :: rest)) =? 0)%Z with
    (Z.pos (Pos.of_succ_nat (List.length rest)) =? 0)%Z.
  cbn [Z.eqb]. destruct (filter non_empty (s :: rest)); reflexivity.
Qed.

Lemma win32_join_eq (args : list jsstring) :
  NodePath.win32.join args
  = match filter non_empty args with
    | [] => js "."
    | first :: rest =>
        NodePath.win32.normalize
          (NodePath.win32.replace_leading_slashes first
             (join_with "\" (first :: rest)))
    end.
Proof.
  unfold NodePath.win32.join. rewrite win32_join_args_none.
  destruct args as [|s rest]; [reflexivity|].
  change (Z.of_nat (List.length (s :: rest)) =? 0)%Z with
    (Z.pos (Pos.of_succ_nat (List.length rest)) =? 0)%Z.
  cbn [Z.eqb]. destruct (filter non_empty (s :: rest)); reflexivity.
Qed.

(** X14: [joinPaths] never returns the empty string: with nothing to
    join it returns ['.']. *)
Theorem joinPaths_never_empty (host : Host) (segments : list jsstring) :
  joinPaths host segments <> [].
Proof.
  unfold joinPaths, path_join. destruct (is_win32 host).
  - rewrite win32_join_eq. destruct (filter non_empty segments);
      [discriminate|apply win32_normalize_nonempty].
  - rewrite posix_join_eq. destruct (filter non_empty segments);
      [discriminate|apply posix_normalize_nonempty].
Qed.

Lemma filter_non_empty_twice (l : list jsstring) :
  filter non_empty (filter non_empty l) = filter non_empty l.
Proof.
  induction l as [|s l IH]; [reflexivity|].
  cbn [filter]. destruct (non_empty s) eqn:E; [|exact IH].
  cbn [filter]. rewrite E, IH. reflexivity.
Qed.

(** X15: empty segments do not count: [joinPaths] returns the same with
    and without them, wherever they stand. *)
Theorem joinPaths_skips_empty (host : Host) (segments : list jsstring) :
  joinPaths host (filter non_empty segments) = joinPaths host segments.
Proof.
  unfold joinPaths, path_join. destruct (is_win32 host).
  - rewrite !win32_join_eq, filter_non_empty_twice. reflexivity.
  - rewrite !posix_join_eq, filter_non_empty_twice. reflexivity.
Qed.

(** ** [path.posix.normalize], said on segments *)

Lemma posix_normalize_eq (p : jsstring) :
  p <> [] ->
  NodePath.posix.normalize p
  = posix_text (starts_with_slash p) (ends_with_slash p) (posix_segments p).
Proof.
  intros Hp. unfold NodePath.posix.normalize.
  destruct p as [|c t]; [congruence|].
  rewrite JS_length_zero_cons.
  change (JS.codeAt (fun c0 => (c0 =? NodePath.CHAR_FORWARD_SLASH)%char))
    with (JS.codeAt NodePath.isPosixPathSeparator).
  fold (starts_with_slash (c :: t)). fold (ends_with_slash (c :: t)).
  rewrite normalizeString_resolve by reflexivity.
  fold (posix_segments (c :: t)).
  set (stack := posix_segments (c :: t)).
  assert (Hn : normal_stack (negb (starts_with_slash (c :: t)))
                 NodePath.isPosixPathSeparator stack).
  { apply resolve_from_normal; [exact I|constructor]. }
  clearbody stack.
  destruct stack as [|top below].
  - reflexivity.
  - pose proof (normal_stack_ok _ _ _ Hn) as Hok.
    destruct (join_stack_positive "/" _ (top :: below) Hok
                ltac:(discriminate)) as [Hz _].
    rewrite Hz. unfold posix_text.
    destruct (ends_with_slash (c :: t)), (starts_with_slash (c :: t));
      cbn [sep_if app js list_ascii_of_string];
      rewrite ?app_nil_r; reflexivity.
Qed.

Lemma posix_segments_normal (p : jsstring) :
  normal_stack (negb (starts_with_slash p)) NodePath.isPosixPathSeparator
    (posix_segments p).
Proof. apply resolve_from_normal; [exact I|constructor]. Qed.

Lemma resolve_from_app_sep (allow : bool) (isSep : ascii -> bool)
  (sep : ascii) (u v : jsstring) :
  isSep sep = true ->
  forall (stack : list jsstring) (cur : jsstring),
    resolve_from allow isSep stack cur (u ++ sep :: v)
    = resolve_from allow isSep (resolve_from allow isSep stack cur u) [] v.
Proof.
  intros Hsep. induction u as [|c u IH]; intros stack cur.
  - cbn [app resolve_from]. rewrite Hsep. reflexivity.
  - cbn [app resolve_from]. destruct (isSep c); apply IH.
Qed.

Lemma resolve_from_snoc_sep (allow : bool) (isSep : ascii -> bool)
  (sep : ascii) (u : jsstring) :
  isSep sep = true ->
  forall (stack : list jsstring) (cur : jsstring),
    resolve_from allow isSep stack cur (u ++ [sep])
    = resolve_from allow isSep stack cur u.
Proof.
  intros Hsep stack cur. rewrite (resolve_from_app_sep allow isSep sep u [])
    by exact Hsep.
  cbn [resolve_from]. apply push_segment_nil.
Qed.

(** The text of resolved segments resolves to the same segments. *)
Lemma posix_text_resolve (abs trailing : bool) (stack : list jsstring) :
  normal_stack (negb abs) NodePath.isPosixPathSeparator stack ->
  starts_with_slash (posix_text abs trailing stack) = abs
  /\ resolve_from (negb abs) NodePath.isPosixPathSeparator [] []
       (posix_text abs trailing stack) = stack.
Proof.
  intros Hn. destruct stack as [|top below].
  - destruct abs, trailing; split; reflexivity.
  - pose proof (normal_stack_ok _ _ _ Hn) as Hok.
    destruct (join_stack_head "/" _ (top :: below) Hok ltac:(discriminate))
      as (c & rest & E & Hc).
    unfold posix_text. destruct abs; cbn [negb app js list_ascii_of_string] in *.
    + split; [reflexivity|].
      cbn [resolve_from].
      change (NodePath.isPosixPathSeparator "/") with true. cbv iota.
      rewrite push_segment_nil.
      apply (resolve_normal "/" _ eq_refl false); [discriminate|exact Hn].
    + split.
      * unfold starts_with_slash. rewrite E. exact Hc.
      * apply (resolve_normal "/" _ eq_refl true); [discriminate|exact Hn].
Qed.

Lemma posix_text_nonempty (abs trailing : bool) (stack : list jsstring) :
  stack_ok NodePath.isPosixPathSeparator stack ->
  posix_text abs trailing stack <> [].
Proof.
  intros Hok. destruct stack as [|top below].
  - destruct abs, trailing; discriminate.
  - destruct (join_stack_head "/" _ (top :: below) Hok ltac:(discriminate))
      as (c & rest & E & _).
    unfold posix_text. rewrite E. destruct abs; discriminate.
Qed.

(** [path.posix.normalize] keeps what a path resolves to and whether it
    is absolute. *)
Lemma posix_normalize_segments (p : jsstring) :
  p <> [] ->
  starts_with_slash (NodePath.posix.normalize p) = starts_with_slash p
  /\ posix_segments (NodePath.posix.normalize p) = posix_segments p.
Proof.
  intros Hp. rewrite (posix_normalize_eq p Hp).
  destruct (posix_text_resolve (starts_with_slash p) (ends_with_slash p)
              (posix_segments p) (posix_segments_normal p)) as [H1 H2].
  split; [exact H1|]. unfold posix_segments at 1. rewrite H1. exact H2.
Qed.

Lemma starts_with_slash_app (x y : jsstring) :
  x <> [] -> starts_with_slash (x ++ y) = starts_with_slash x.
Proof. destruct x; [congruence|reflexivity]. Qed.

Lemma ends_with_slash_app (x y : jsstring) :
  y <> [] -> ends_with_slash (x ++ y) = ends_with_slash y.
Proof.
  intros Hy. destruct (exists_last Hy) as (front & c & ->).
  unfold ends_with_slash. rewrite app_assoc, !codeAt_last. reflexivity.
Qed.

(** Normalizing the first part of a joined path changes nothing. *)
Lemma posix_normalize_join_left (x y : jsstring) :
  x <> [] ->
  NodePath.posix.normalize (NodePath.posix.normalize x ++ "/"%char :: y)
  = NodePath.posix.normalize (x ++ "/"%char :: y).
Proof.
  intros Hx.
  pose proof (posix_normalize_nonempty x) as Hn.
  destruct (posix_normalize_segments x Hx) as [Habs Hseg].
  assert (Hne : forall z : jsstring, z ++ "/"%char :: y <> []).
  { intros z H. apply app_eq_nil in H. destruct H; discriminate. }
  rewrite (posix_normalize_eq (NodePath.posix.normalize x ++ "/"%char :: y))
    by apply Hne.
  rewrite (posix_normalize_eq (x ++ "/"%char :: y)) by apply Hne.
  assert (Ha : starts_with_slash (NodePath.posix.normalize x ++ "/"%char :: y)
               = starts_with_slash (x ++ "/"%char :: y)).
  { rewrite !starts_with_slash_app by assumption. exact Habs. }
  assert (Ht : ends_with_slash (NodePath.posix.normalize x ++ "/"%char :: y)
               = ends_with_slash (x ++ "/"%char :: y)).
  { rewrite !ends_with_slash_app by discriminate. reflexivity. }
  assert (Hs : posix_segments (NodePath.posix.normalize x ++ "/"%char :: y)
               = posix_segments (x ++ "/"%char :: y)).
  { unfold posix_segments. rewrite Ha.
    rewrite !(resolve_from_app_sep _ _ "/") by reflexivity.
    rewrite starts_with_slash_app by exact Hx.
    unfold posix_segments in Hseg. rewrite Habs in Hseg.
    rewrite Hseg. reflexivity. }
  rewrite Ha, Ht, Hs. reflexivity.
Qed.

(** X16: on a POSIX host what [joinPaths] returns is normalized:
    [path.normalize], and [joinPaths] itself, return it unchanged. *)
Theorem joinPaths_normalized (host : Host) (segments : list jsstring) :
  is_win32 host = false ->
  path_normalize host (joinPaths host segments) = joinPaths host segments
  /\ joinPaths host [joinPaths host segments] = joinPaths host segments.
Proof.
  intros Hhost.
  assert (H : NodePath.posix.normalize (NodePath.posix.join segments)
              = NodePath.posix.join segments).
  { rewrite posix_join_eq. destruct (filter non_empty segments);
      [reflexivity|apply posix_normalize_idempotent]. }
  unfold joinPaths, path_join, path_normalize. rewrite Hhost.
  split; [exact H|].
  rewrite (posix_join_eq [NodePath.posix.join segments]).
  cbn [filter]. unfold non_empty at 1.
  assert (Hne : NodePath.posix.join segments <> []).
  { rewrite posix_join_eq. destruct (filter non_empty segments);
      [discriminate|apply posix_normalize_nonempty]. }
  destruct (NodePath.posix.join segments) as [|c t] eqn:E; [congruence|].
  change (JS.length (c :: t) >? 0)%Z with true. cbv iota.
  cbn [join_with]. exact H.
Qed.

(** For instance [joinPaths('a//b', '..', 'c/')] *)
Lemma joinPaths_normalized_witness :
  is_win32 posix_host = false
  /\ joinPaths posix_host
       [joinPaths posix_host [js "a//b"; js ".."; js "c/"]]
     = js "a/c/".
Proof.
  refine (conj eq_refl _).
  rewrite (proj2 (joinPaths_normalized posix_host
                    [js "a//b"; js ".."; js "c/"] eq_refl)).
  reflexivity.
Defined.

Lemma join_with_app (sep : ascii) (l1 l2 : list jsstring) :
  l1 <> [] -> l2 <> [] ->
  join_with sep (l1 ++ l2) = join_with sep l1 ++ sep :: join_with sep l2.
Proof.
  intros H1 H2. induction l1 as [|a l1 IH]; [congruence|].
  destruct l1 as [|b l1].
  - cbn [app join_with]. destruct l2; [congruence|reflexivity].
  - change (join_with sep ((a :: b :: l1) ++ l2))
      with (a ++ sep :: join_with sep ((b :: l1) ++ l2)).
    rewrite IH by discriminate.
    change (join_with sep (a :: b :: l1))
      with (a ++ sep :: join_with sep (b :: l1)).
    rewrite <- app_assoc. reflexivity.
Qed.

Lemma join_with_nonempty (sep : ascii) (l : list jsstring) :
  l <> [] -> Forall (fun s => non_empty s = true) l -> join_with sep l <> [].
Proof.
  intros Hl Hall. destruct l as [|a l]; [congruence|].
  inversion Hall as [|? ? Ha _]; subst.
  destruct a as [|c a]; [discriminate Ha|].
  destruct l; discriminate.
Qed.

Lemma filter_non_empty_all (l : list jsstring) :
  Forall (fun s => non_empty s = true) (filter non_empty l).
Proof.
  apply Forall_forall. intros s Hs. apply filter_In in Hs. apply Hs.
Qed.

Lemma posix_join_cons (args : list jsstring) (a : jsstring)
  (others : list jsstring) :
  filter non_empty args = a :: others ->
  NodePath.posix.join args
  = NodePath.posix.normalize (join_with "/" (a :: others)).
Proof. intros E. rewrite posix_join_eq, E. reflexivity. Qed.

(** X17: on a POSIX host joining can be done in steps: the join of some
    segments, one of them at least not empty, joined with further
    segments is the join of them all. *)
Theorem joinPaths_in_steps (host : Host) (first rest : list jsstring) :
  is_win32 host = false ->
  filter non_empty first <> [] ->
  joinPaths host (joinPaths host first :: rest)
  = joinPaths host (first ++ rest).
Proof.
  intros Hhost Hfirst. unfold joinPaths, path_join. rewrite Hhost.
  pose proof (filter_non_empty_all first) as HallA.
  destruct (filter non_empty first) as [|a A] eqn:EA; [congruence|].
  rewrite (posix_join_cons first a A EA).
  set (x := join_with "/" (a :: A)).
  assert (Hx : x <> [])
    by (apply join_with_nonempty; [discriminate|exact HallA]).
  pose proof (posix_normalize_nonempty x) as Hn.
  assert (Hnon : non_empty (NodePath.posix.normalize x) = true).
  { destruct (NodePath.posix.normalize x); [congruence|reflexivity]. }
  destruct (filter non_empty rest) as [|b B] eqn:EB.
  - rewrite (posix_join_cons (NodePath.posix.normalize x :: rest)
               (NodePath.posix.normalize x) []).
    2:{ cbn [filter]. rewrite Hnon, EB. reflexivity. }
    rewrite (posix_join_cons (first ++ rest) a A).
    2:{ rewrite filter_app, EA, EB. apply app_nil_r. }
    fold x. cbn [join_with]. apply posix_normalize_idempotent.
  - rewrite (posix_join_cons (NodePath.posix.normalize x :: rest)
               (NodePath.posix.normalize x) (b :: B)).
    2:{ cbn [filter]. rewrite Hnon, EB. reflexivity. }
    rewrite (posix_join_cons (first ++ rest) a (A ++ b :: B)).
    2:{ rewrite filter_app, EA, EB. reflexivity. }
    change (a :: A ++ b :: B) with ((a :: A) ++ b :: B).
    rewrite (join_with_app "/" (a :: A) (b :: B)) by discriminate.
    fold x.
    change (join_with "/" (NodePath.posix.normalize x :: b :: B))
      with (NodePath.posix.normalize x ++ "/"%char :: join_with "/" (b :: B)).
    apply (posix_normalize_join_left x _ Hx).
Qed.

(** For instance [joinPaths(joinPaths('a', '../..'), 'b')] *)
Lemma joinPaths_in_steps_witness :
  is_win32 posix_host = false
  /\ filter non_empty [js "a"; js "../.."] <> []
  /\ joinPaths posix_host
       [joinPaths posix_host [js "a"; js "../.."]; js "b"]
     = joinPaths posix_host [js "a"; js "../.."; js "b"].
Proof.
  assert (H : filter non_empty [js "a"; js "../.."] <> [])
    by discriminate.
  refine (conj eq_refl (conj H _)).
  exact (joinPaths_in_steps posix_host [js "a"; js "../.."] [js "b"]
           eq_refl H).
Defined.

(** ** Lengths *)

Lemma push_segment_base_length (allow : bool) (sep : ascii)
  (stack : list jsstring) (seg : jsstring) :
  (JS.length (stack_base sep (push_segment allow stack seg))
   <= JS.length (stack_base sep stack) + JS.length seg + 1)%Z.
Proof.
  pose proof (JS_length_nonneg seg).
  pose proof (JS_length_nonneg (stack_base sep stack)).
  destruct (push_segment_cases allow stack seg) as [E|[E|E]]; rewrite E.
  - lia.
  - destruct stack as [|top rest]; cbn [tl]; [lia|].
    change (stack_base sep (top :: rest))
      with (join_stack sep (top :: rest) ++ [sep]).
    rewrite join_stack_cons, !JS_length_app.
    pose proof (JS_length_nonneg top). pose proof (JS_length_nonneg [sep]).
    lia.
  - change (stack_base sep (seg :: stack))
      with (join_stack sep (seg :: stack) ++ [sep]).
    rewrite join_stack_cons, !JS_length_app.
    change (JS.length [sep]) with 1%Z. lia.
Qed.

Lemma resolve_from_base_length (allow : bool) (isSep : ascii -> bool)
  (sep : ascii) (rest : jsstring) :
  forall (stack : list jsstring) (cur : jsstring),
    (JS.length (stack_base sep (resolve_from allow isSep stack cur rest))
     <= JS.length (stack_base sep stack) + JS.length cur
        + JS.length rest + 1)%Z.
Proof.
  induction rest as [|c t IH]; intros stack cur.
  - cbn [resolve_from]. change (JS.length []) with 0%Z.
    pose proof (push_segment_base_length allow sep stack cur). lia.
  - cbn [resolve_from]. rewrite JS_length_cons. destruct (isSep c).
    + pose proof (IH (push_segment allow stack cur) []) as H.
      change (JS.length []) with 0%Z in H.
      pose proof (push_segment_base_length allow sep stack cur). lia.
    + pose proof (IH stack (cur ++ [c])) as H.
      rewrite JS_length_app in H. change (JS.length [c]) with 1%Z in H. lia.
Qed.

Lemma resolve_from_join_length (allow : bool) (isSep : ascii -> bool)
  (sep : ascii) (rest : jsstring) :
  resolve_from allow isSep [] [] rest <> [] ->
  (JS.length (join_stack sep (resolve_from allow isSep [] [] rest))
   <= JS.length rest)%Z.
Proof.
  intros Hne.
  pose proof (resolve_from_base_length allow isSep sep rest [] []) as H.
  destruct (resolve_from allow isSep [] [] rest) as [|top below];
    [congruence|].
  change (stack_base sep (top :: below))
    with (join_stack sep (top :: below) ++ [sep]) in H.
  rewrite JS_length_app in H.
  change (JS.length [sep]) with 1%Z in H.
  change (JS.length (stack_base sep [])) with 0%Z in H.
  change (JS.length []) with 0%Z in H. lia.
Qed.

Lemma ends_with_slash_snoc (p : jsstring) :
  ends_with_slash p = true -> exists q, p = q ++ ["/"%char].
Proof.
  intros H. destruct p as [|c t]; [discriminate H|].
  destruct (@exists_last _ (c :: t) ltac:(discriminate)) as (q & d & E).
  rewrite E in H. unfold ends_with_slash in H. rewrite codeAt_last in H.
  apply Ascii.eqb_eq in H. subst d. exists q. exact E.
Qed.

Lemma posix_segments_length (p : jsstring) :
  posix_segments p <> [] ->
  (JS.length (join_stack "/" (posix_segments p))
   + (if starts_with_slash p then 1 else 0)
   + (if ends_with_slash p then 1 else 0) <= JS.length p)%Z.
Proof.
  unfold posix_segments. destruct p as [|c t].
  - intros H. exfalso. apply H. reflexivity.
  - change (starts_with_slash (c :: t))
      with (NodePath.isPosixPathSeparator c).
    destruct (NodePath.isPosixPathSeparator c) eqn:Hc.
    + cbn [negb resolve_from]. rewrite Hc, push_segment_nil.
      rewrite JS_length_cons.
      destruct (ends_with_slash (c :: t)) eqn:Ht.
      * apply ends_with_slash_snoc in Ht. destruct Ht as (q & Eq).
        destruct q as [|d q].
        -- injection Eq as _ ->. intros H. exfalso. apply H. reflexivity.
        -- injection Eq as _ ->.
           rewrite (resolve_from_snoc_sep false _ "/") by reflexivity.
           intros Hne.
           pose proof (resolve_from_join_length false
                         NodePath.isPosixPathSeparator "/" q Hne).
           rewrite JS_length_app. change (JS.length ["/"%char]) with 1%Z.
           lia.
      * intros Hne.
        pose proof (resolve_from_join_length false
                      NodePath.isPosixPathSeparator "/" t Hne).
        lia.
    + cbn [negb]. destruct (ends_with_slash (c :: t)) eqn:Ht.
      * apply ends_with_slash_snoc in Ht. destruct Ht as (q & Eq).
        rewrite Eq.
        rewrite (resolve_from_snoc_sep true _ "/") by reflexivity.
        intros Hne.
        pose proof (resolve_from_join_length true
                      NodePath.isPosixPathSeparator "/" q Hne).
        rewrite JS_length_app. change (JS.length ["/"%char]) with 1%Z.
        lia.
      * intros Hne.
        pose proof (resolve_from_join_length true
                      NodePath.isPosixPathSeparator "/" (c :: t) Hne).
        lia.
Qed.

(** [path.posix.normalize] never makes a path longer. *)
Lemma posix_normalize_length (p : jsstring) :
  p <> [] -> (JS.length (NodePath.posix.normalize p) <= JS.length p)%Z.
Proof.
  intros Hp. rewrite (posix_normalize_eq p Hp).
  pose proof (posix_segments_length p) as Hlen.
  destruct (posix_segments p) as [|top below] eqn:E.
  - clear Hlen. destruct p as [|c t]; [congruence|].
    pose proof (JS_length_nonneg t). rewrite JS_length_cons.
    cbn [posix_text].
    destruct (starts_with_slash (c :: t)) eqn:Ha;
      [change (JS.length (js "/")) with 1%Z; lia|].
    destruct (ends_with_slash (c :: t)) eqn:Ht;
      [|change (JS.length (js ".")) with 1%Z; lia].
    apply ends_with_slash_snoc in Ht. destruct Ht as (q & Eq).
    destruct q as [|d q].
    + injection Eq as -> ->. discriminate Ha.
    + injection Eq as _ ->. rewrite JS_length_app.
      pose proof (JS_length_nonneg q).
      change (JS.length ["/"%char]) with 1%Z.
      change (JS.length (js "./")) with 2%Z. lia.
  - specialize (Hlen ltac:(discriminate)).
    unfold posix_text. rewrite !JS_length_app.
    destruct (starts_with_slash p), (ends_with_slash p);
      cbn [sep_if js list_ascii_of_string];
      change (JS.length ["/"%char]) with 1%Z;
      change (JS.length []) with 0%Z; lia.
Qed.

Lemma replace_trailing_separator_shorter (s : jsstring) :
  (JS.length (JS.replace_trailing_separator s) <= JS.length s)%Z.
Proof.
  destruct s as [|c t]; [reflexivity|].
  destruct (@exists_last _ (c :: t) ltac:(discriminate)) as (q & d & E).
  rewrite E, replace_trailing_separator_snoc, JS_length_app.
  change (JS.length [d]) with 1%Z.
  destruct (_ || _); [lia|]. rewrite JS_length_app.
  change (JS.length [d]) with 1%Z. lia.
Qed.

Lemma replace_backslashes_length (s : jsstring) :
  JS.length (JS.replace_backslashes s) = JS.length s.
Proof.
  unfold JS.replace_backslashes, JS.length. rewrite length_map.
  reflexivity.
Qed.

(** Without lower-casing [normalizePath] only takes characters away
    on a POSIX host. *)
Lemma normalizePath_length_posix (host : Host) (p : jsstring)
  (options : NormalizationOptions) :
  is_win32 host = false ->
  nullish (toLowerCase options)
    (OSType_eqb (resolve_os host (no_os options)) windows) = false ->
  (JS.length (normalizePath host p options) <= JS.length p)%Z.
Proof.
  intros Hhost Hlow. destruct p as [|c t]; [reflexivity|].
  rewrite normalizePath_nonempty_eq by discriminate.
  rewrite (path_normalize_posix host Hhost).
  pose proof (posix_normalize_length (c :: t) ltac:(discriminate)) as Hn.
  cbv zeta. rewrite Hlow.
  destruct (jsstring_eqb (NodePath.posix.normalize (c :: t)) (js "."));
    [lia|].
  set (n := NodePath.posix.normalize (c :: t)) in *.
  set (n1 := if nullish (forceForwardSlash options) true
             then JS.replace_backslashes n else n).
  assert (H1 : JS.length n1 = JS.length n).
  { unfold n1. destruct (nullish (forceForwardSlash options) true);
      [apply replace_backslashes_length|reflexivity]. }
  destruct (_ && _);
    [pose proof (replace_trailing_separator_shorter n1)|]; lia.
Qed.

(** X18: on a POSIX host, when lower-casing does not apply
    ([toLowerCase] is [false], or is left out and the resolved OS is
    not Windows), [normalizePath] never returns a path longer than the
    one it is given.  (Lower-casing is left out of the statement:
    outside the code units below 256 [toLowerCase] can make a string
    longer.) *)
Theorem normalizePath_never_longer (host : Host) (p : jsstring)
  (options : NormalizationOptions) :
  is_win32 host = false ->
  nullish (toLowerCase options)
    (OSType_eqb (resolve_os host (no_os options)) windows) = false ->
  (JS.length (normalizePath host p options) <= JS.length p)%Z.
Proof. apply normalizePath_length_posix. Qed.

(** For instance [normalizePath('a/./b/../c/')] on a POSIX host *)
Lemma normalizePath_never_longer_witness :
  is_win32 posix_host = false
  /\ nullish (toLowerCase no_normalization_options)
       (OSType_eqb (resolve_os posix_host (no_os no_normalization_options))
          windows) = false
  /\ (JS.length (normalizePath posix_host (js "a/./b/../c/")
                   no_normalization_options)
      <= JS.length (js "a/./b/../c/"))%Z.
Proof.
  refine (conj eq_refl (conj eq_refl _)).
  exact (normalizePath_never_longer posix_host (js "a/./b/../c/")
           no_normalization_options eq_refl eq_refl).
Defined.

(** ** Where two dots in a row come from *)

Lemma has_dot_dot_cons (c : ascii) (s : jsstring) :
  has_dot_dot (c :: s)
  = ("." =? c)%char && JS.startsWith s (js ".") || has_dot_dot s.
Proof. reflexivity. Qed.

Lemma startsWith_nil (s : jsstring) : JS.startsWith s [] = true.
Proof. destruct s; reflexivity. Qed.

Lemma startsWith_dot_cons (b : ascii) (t : jsstring) :
  JS.startsWith (b :: t) (js ".") = ("." =? b)%char.
Proof.
  change (JS.startsWith (b :: t) (js "."))
    with (("." =? b)%char && JS.startsWith t []).
  rewrite startsWith_nil. apply andb_true_r.
Qed.

Lemma startsWith_dot (s : jsstring) :
  JS.startsWith s (js ".") = true <-> exists t, s = "."%char :: t.
Proof.
  destruct s as [|b t].
  - split; [discriminate|intros [? H]; discriminate H].
  - rewrite startsWith_dot_cons. split.
    + intros H. apply Ascii.eqb_eq in H. subst b. exists t. reflexivity.
    + intros [t' H]. injection H as -> _. reflexivity.
Qed.

Lemma has_dot_dot_cons_other (c : ascii) (s : jsstring) :
  c <> "."%char -> has_dot_dot (c :: s) = has_dot_dot s.
Proof.
  intros Hc. rewrite has_dot_dot_cons.
  destruct (Ascii.eqb_spec "." c); [congruence|reflexivity].
Qed.

Lemma has_dot_dot_app_l (a b : jsstring) :
  has_dot_dot a = true -> has_dot_dot (a ++ b) = true.
Proof.
  induction a as [|c a IH]; [discriminate|].
  cbn [app]. rewrite !has_dot_dot_cons. intros H.
  apply orb_true_iff in H. apply orb_true_iff. destruct H as [H|H].
  - left. apply andb_true_iff in H. destruct H as [H1 H2].
    rewrite H1. apply startsWith_dot in H2. destruct H2 as [t ->].
    cbn [app]. rewrite startsWith_dot_cons. reflexivity.
  - right. apply IH, H.
Qed.

Lemma has_dot_dot_app_r (a b : jsstring) :
  has_dot_dot b = true -> has_dot_dot (a ++ b) = true.
Proof.
  intros H. induction a as [|c a IH]; [exact H|].
  cbn [app]. rewrite has_dot_dot_cons, IH. apply orb_true_r.
Qed.

Lemma has_dot_dot_app_inv (a b : jsstring) :
  has_dot_dot (a ++ b) = true ->
  has_dot_dot a = true \/ has_dot_dot b = true
  \/ ((exists a', a = a' ++ ["."%char]) /\ exists b', b = "."%char :: b').
Proof.
  induction a as [|c a IH]; [intros H; right; left; exact H|].
  cbn [app]. rewrite has_dot_dot_cons. intros H.
  apply orb_true_iff in H. destruct H as [H|H].
  - apply andb_true_iff in H. destruct H as [H1 H2].
    apply Ascii.eqb_eq in H1. subst c.
    apply startsWith_dot in H2. destruct H2 as [t Ht].
    destruct a as [|d a].
    + right; right. split; [exists []; reflexivity|].
      exists t. exact Ht.
    + left. injection Ht as -> _.
      rewrite has_dot_dot_cons, startsWith_dot_cons. reflexivity.
  - destruct (IH H) as [Ha|[Hb|[[a' Ha] Hb]]].
    + left. rewrite has_dot_dot_cons, Ha. apply orb_true_r.
    + right; left. exact Hb.
    + right; right. split; [|exact Hb].
      exists (c :: a'). rewrite Ha. reflexivity.
Qed.

Lemma has_dot_dot_sep_inv (a b : jsstring) (sep : ascii) :
  sep <> "."%char ->
  has_dot_dot (a ++ sep :: b) = true ->
  has_dot_dot a = true \/ has_dot_dot b = true.
Proof.
  intros Hsep H. destruct (has_dot_dot_app_inv _ _ H) as [Ha|[Hb|[_ [b' Hb]]]].
  - left. exact Ha.
  - right. rewrite has_dot_dot_cons_other in Hb by exact Hsep. exact Hb.
  - injection Hb as Hb _. congruence.
Qed.

Lemma has_dot_dot_snoc_inv (a : jsstring) (sep : ascii) :
  sep <> "."%char ->
  has_dot_dot (a ++ [sep]) = true -> has_dot_dot a = true.
Proof.
  intros Hsep H. destruct (has_dot_dot_sep_inv a [] sep Hsep H) as [Ha|Hb];
    [exact Ha|discriminate Hb].
Qed.

Lemma has_dot_dot_map (f : ascii -> ascii) (s : jsstring) :
  (forall c, ("." =? f c)%char = ("." =? c)%char) ->
  has_dot_dot (map f s) = has_dot_dot s.
Proof.
  intros Hf. induction s as [|c s IH]; [reflexivity|].
  cbn [map]. rewrite !has_dot_dot_cons, IH, Hf.
  destruct s as [|d s]; [reflexivity|].
  cbn [map]. rewrite !startsWith_dot_cons, Hf. reflexivity.
Qed.

Lemma has_dot_dot_lower (s : jsstring) :
  has_dot_dot (JS.toLowerCase s) = has_dot_dot s.
Proof.
  apply has_dot_dot_map. intros c.
  rewrite (Ascii.eqb_sym "." (JS.lowerCode c)), (Ascii.eqb_sym "." c).
  apply lowerCode_dot.
Qed.

Lemma has_dot_dot_replace_backslashes (s : jsstring) :
  has_dot_dot (JS.replace_backslashes s) = has_dot_dot s.
Proof.
  apply has_dot_dot_map. intros c.
  destruct (Ascii.eqb_spec c "\"); [subst c|]; reflexivity.
Qed.

Lemma has_dot_dot_replace_trailing_separator (s : jsstring) :
  has_dot_dot (JS.replace_trailing_separator s) = has_dot_dot s.
Proof.
  destruct s as [|c t]; [reflexivity|].
  destruct (@exists_last _ (c :: t) ltac:(discriminate)) as (q & d & E).
  rewrite E, replace_trailing_separator_snoc.
  destruct ((d =? "/")%char || (d =? "\")%char) eqn:Hd; [|reflexivity].
  assert (Hdot : d <> "."%char).
  { intros ->. discriminate Hd. }
  destruct (has_dot_dot q) eqn:Hq.
  - symmetry. apply has_dot_dot_app_l, Hq.
  - destruct (has_dot_dot (q ++ [d])) eqn:Hqd; [|reflexivity].
    apply has_dot_dot_snoc_inv in Hqd; [congruence|exact Hdot].
Qed.

Lemma has_dot_dot_firstn (n : nat) (s : jsstring) :
  has_dot_dot (firstn n s) = true -> has_dot_dot s = true.
Proof.
  intros H. rewrite <- (firstn_skipn n s). apply has_dot_dot_app_l, H.
Qed.

Lemma has_dot_dot_skipn (n : nat) (s : jsstring) :
  has_dot_dot (skipn n s) = true -> has_dot_dot s = true.
Proof.
  intros H. rewrite <- (firstn_skipn n s). apply has_dot_dot_app_r, H.
Qed.

Lemma has_dot_dot_slice (s : jsstring) (b e : Z) :
  has_dot_dot (JS.slice s b e) = true -> has_dot_dot s = true.
Proof.
  unfold JS.slice. intros H.
  apply has_dot_dot_firstn, has_dot_dot_skipn in H. exact H.
Qed.

Lemma has_dot_dot_join_stack (sep : ascii) (stack : list jsstring) :
  sep <> "."%char ->
  has_dot_dot (join_stack sep stack) = true ->
  exists s, In s stack /\ has_dot_dot s = true.
Proof.
  intros Hsep. induction stack as [|top rest IH]; [discriminate|].
  rewrite join_stack_cons. destruct rest as [|next rest].
  - cbn [stack_base app]. intros H. exists top. split; [left; reflexivity|].
    exact H.
  - change (stack_base sep (next :: rest))
      with (join_stack sep (next :: rest) ++ [sep]).
    rewrite <- app_assoc. cbn [app]. intros H.
    apply has_dot_dot_sep_inv in H; [|exact Hsep].
    destruct H as [H|H].
    + destruct (IH H) as (s & Hs & Hd). exists s. split; [right; exact Hs|].
      exact Hd.
    + exists top. split; [left; reflexivity|exact H].
Qed.

Lemma resolve_from_has_dot_dot (allow : bool) (isSep : ascii -> bool)
  (rest : jsstring) :
  forall (stack : list jsstring) (cur s : jsstring),
    In s (resolve_from allow isSep stack cur rest) ->
    has_dot_dot s = true ->
    (exists s', In s' stack /\ has_dot_dot s' = true)
    \/ has_dot_dot (cur ++ rest) = true.
Proof.
  assert (Hpush : forall stack seg s,
            In s (push_segment allow stack seg) -> In s stack \/ s = seg).
  { intros stack seg s.
    destruct (push_segment_cases allow stack seg) as [E|[E|E]]; rewrite E.
    - intros H. left. exact H.
    - intros H. left. destruct stack; [exact H|right; exact H].
    - intros [H|H]; [right; symmetry; exact H|left; exact H]. }
  induction rest as [|c t IH]; intros stack cur s Hin Hd.
  - cbn [resolve_from] in Hin. rewrite app_nil_r.
    destruct (Hpush _ _ _ Hin) as [H|H].
    + left. exists s. split; assumption.
    + right. subst s. exact Hd.
  - cbn [resolve_from] in Hin. destruct (isSep c).
    + destruct (IH _ _ _ Hin Hd) as [(s' & Hs' & Hd')|H].
      * destruct (Hpush _ _ _ Hs') as [H|H].
        -- left. exists s'. split; assumption.
        -- right. subst s'. apply has_dot_dot_app_l, Hd'.
      * right. apply has_dot_dot_app_r.
        change (c :: t) with ([c] ++ t). apply has_dot_dot_app_r, H.
    + destruct (IH _ _ _ Hin Hd) as [H|H]; [left; exact H|].
      right. rewrite <- app_assoc in H. exact H.
Qed.

Lemma normalizeString_has_dot_dot (path : jsstring) (allow : bool)
  (sep : ascii) (isSep : ascii -> bool) :
  isSep sep = true -> isSep "/"%char = true -> sep <> "."%char ->
  has_dot_dot (NodePath.normalizeString path allow sep isSep) = true ->
  has_dot_dot path = true.
Proof.
  intros H1 H2 Hsep. rewrite normalizeString_resolve by assumption.
  intros H. apply has_dot_dot_join_stack in H; [|exact Hsep].
  destruct H as (s & Hs & Hd).
  destruct (resolve_from_has_dot_dot _ _ _ _ _ _ Hs Hd)
    as [(s' & [] & _)|H]; exact H.
Qed.

(** Two dots in a row in a normalized path come from the path. *)
Lemma posix_normalize_has_dot_dot (p : jsstring) :
  has_dot_dot (NodePath.posix.normalize p) = true -> has_dot_dot p = true.
Proof.
  unfold NodePath.posix.normalize.
  destruct (JS.length p =? 0)%Z; [discriminate|].
  set (abs := JS.codeAt _ p 0). set (trailing := JS.codeAt _ p _).
  set (t0 := NodePath.normalizeString p (negb abs) "/"
               NodePath.isPosixPathSeparator).
  assert (H0 : has_dot_dot t0 = true -> has_dot_dot p = true).
  { apply normalizeString_has_dot_dot; [reflexivity|reflexivity|discriminate]. }
  clearbody t0 abs trailing.
  destruct (JS.length t0 =? 0)%Z.
  - destruct abs; [discriminate|].
    destruct trailing; discriminate.
  - intros H. apply H0.
    destruct trailing.
    + destruct abs.
      * rewrite has_dot_dot_cons_other in H by discriminate.
        apply (has_dot_dot_snoc_inv t0 "/"); [discriminate|exact H].
      * apply (has_dot_dot_snoc_inv t0 "/"); [discriminate|exact H].
    + destruct abs; [|exact H].
      rewrite has_dot_dot_cons_other in H by discriminate. exact H.
Qed.

Lemma win32_match_root_has_dot_dot (p : jsstring) :
  match NodePath.win32.match_root p with
  | NodePath.win32.Return s => has_dot_dot s = true -> has_dot_dot p = true
  | NodePath.win32.Root _ device abs =>
      match device with
      | None => True
      | Some d =>
          (has_dot_dot d = true -> has_dot_dot p = true)
          /\ (abs = false -> exists x, d = [x; ":"%char])
      end
  end.
Proof.
  assert (Hunc : forall a b c d : Z,
            has_dot_dot (js "\\" ++ JS.slice p a b ++ js "\"
                           ++ JS.slice p c d) = true ->
            has_dot_dot p = true).
  { intros a b c d H.
    change (js "\\" ++ JS.slice p a b ++ js "\" ++ JS.slice p c d)
      with ("\"%char :: "\"%char :: JS.slice p a b
              ++ "\"%char :: JS.slice p c d) in H.
    rewrite !has_dot_dot_cons_other in H by discriminate.
    apply has_dot_dot_sep_inv in H; [|discriminate].
    destruct H as [H|H]; apply has_dot_dot_slice in H; exact H. }
  unfold NodePath.win32.match_root.
  destruct (JS.codeAt NodePath.isPathSeparator p 0).
  - destruct (JS.codeAt NodePath.isPathSeparator p 1); [|exact I].
    destruct (_ && _); [|exact I].
    destruct (_ && _); [|exact I].
    destruct (_ =? _)%Z.
    + intros H.
      change (js "\\" ++ ?f ++ js "\" ++ ?r ++ js "\")
        with ("\"%char :: "\"%char :: f ++ "\"%char :: r ++ ["\"%char]) in H.
      rewrite !has_dot_dot_cons_other in H by discriminate.
      apply has_dot_dot_sep_inv in H; [|discriminate].
      destruct H as [H|H].
      * apply has_dot_dot_slice in H. exact H.
      * apply has_dot_dot_snoc_inv in H; [|discriminate].
        unfold JS.sliceFrom in H. apply has_dot_dot_skipn in H. exact H.
    + destruct (negb _); [|exact I].
      split; [apply Hunc|discriminate].
  - destruct (_ && _) eqn:Hdev; [|exact I].
    apply andb_true_iff in Hdev. destruct Hdev as [_ Hcolon].
    assert (Hd : exists x, JS.slice p 0 2 = [x; ":"%char]).
    { destruct p as [|x [|y t]]; try discriminate Hcolon.
      change (JS.codeAt (fun c => c =? NodePath.CHAR_COLON)%char
                (x :: y :: t) 1)
        with (y =? NodePath.CHAR_COLON)%char in Hcolon.
      apply Ascii.eqb_eq in Hcolon. subst y. exists x. reflexivity. }
    destruct (_ && _); (split; [apply has_dot_dot_slice|]);
      [discriminate|intros _; exact Hd].
Qed.

Lemma win32_normalize_has_dot_dot (p : jsstring) :
  has_dot_dot (NodePath.win32.normalize p) = true -> has_dot_dot p = true.
Proof.
  unfold NodePath.win32.normalize.
  destruct (JS.length p =? 0)%Z; [discriminate|].
  destruct (JS.length p =? 1)%Z.
  { destruct (JS.codeAt _ p 0); [discriminate|exact (fun H => H)]. }
  pose proof (win32_match_root_has_dot_dot p) as Hroot.
  destruct (NodePath.win32.match_root p) as [s|rootEnd device abs];
    [exact Hroot|].
  set (t0 := if (rootEnd <? JS.length p)%Z
             then NodePath.normalizeString (JS.sliceFrom p rootEnd)
                    (negb abs) "\" NodePath.isPathSeparator
             else []).
  assert (H0 : has_dot_dot t0 = true -> has_dot_dot p = true).
  { unfold t0. destruct (rootEnd <? JS.length p)%Z; [|discriminate].
    intros H. apply normalizeString_has_dot_dot in H;
      [|reflexivity|reflexivity|discriminate].
    unfold JS.sliceFrom in H. apply has_dot_dot_skipn in H. exact H. }
  clearbody t0.
  set (t1 := if (JS.length t0 =? 0)%Z && negb abs then js "." else t0).
  assert (H1 : has_dot_dot t1 = true -> has_dot_dot p = true).
  { unfold t1. destruct (_ && _); [discriminate|exact H0]. }
  clearbody t1. clear H0 t0.
  set (t2 := if (JS.length t1 >? 0)%Z
                && JS.codeAt NodePath.isPathSeparator p (JS.length p - 1)
             then t1 ++ js "\" else t1).
  assert (H2 : has_dot_dot t2 = true -> has_dot_dot p = true).
  { unfold t2. destruct (_ && _); [|exact H1].
    intros H. apply H1.
    apply (has_dot_dot_snoc_inv t1 "\"); [discriminate|exact H]. }
  clearbody t2. clear H1 t1.
  destruct device as [d|].
  - destruct Hroot as [Hd Hshape]. destruct abs.
    + intros H. apply has_dot_dot_sep_inv in H; [|discriminate].
      destruct H as [H|H]; [apply Hd, H|apply H2, H].
    + destruct (Hshape eq_refl) as [x ->]. intros H.
      cbn [app] in H.
      rewrite has_dot_dot_cons in H.
      change (JS.startsWith (":"%char :: t2) (js ".")) with false in H.
      rewrite andb_false_r in H. cbn [orb] in H.
      rewrite has_dot_dot_cons_other in H by discriminate.
      apply H2, H.
  - destruct abs; [|exact H2].
    intros H. rewrite has_dot_dot_cons_other in H by discriminate.
    apply H2, H.
Qed.

Lemma path_normalize_has_dot_dot (host : Host) (p : jsstring) :
  has_dot_dot (path_normalize host p) = true -> has_dot_dot p = true.
Proof.
  unfold path_normalize. destruct (is_win32 host).
  - apply win32_normalize_has_dot_dot.
  - apply posix_normalize_has_dot_dot.
Qed.

Lemma normalizePath_has_dot_dot (host : Host) (p : jsstring)
  (options : NormalizationOptions) :
  has_dot_dot (normalizePath host p options) = true -> has_dot_dot p = true.
Proof.
  destruct p as [|c t]; [discriminate|].
  rewrite normalizePath_nonempty_eq by discriminate. cbv zeta.
  destruct (jsstring_eqb _ (js ".")); [exact (fun H => H)|].
  intros H. apply (path_normalize_has_dot_dot host).
  destruct (nullish (toLowerCase options) _);
    rewrite ?has_dot_dot_lower in H;
    destruct (nullish (removeTrailingSlash options) true && _);
    rewrite ?has_dot_dot_replace_trailing_separator in H;
    destruct (nullish (forceForwardSlash options) true);
    rewrite ?has_dot_dot_replace_backslashes in H; exact H.
Qed.

(** X19: [isPathTraversal] is true only of a path that has two dots in
    a row, and [validatePath] asked to forbid traversal (the default)
    rejects every such path with a [TRAVERSAL] error: what
    [isPathTraversal] flags never passes [validatePath]. *)
Theorem isPathTraversal_then_validatePath_rejects (host : Host)
  (p : jsstring) (options : ValidationOptions) :
  isPathTraversal host p = true ->
  nullish (allowTraversal options) false = false ->
  JS.includes p (js "..") = true
  /\ In TRAVERSAL (error_codes (validatePath host p options))
  /\ isValid (validatePath host p options) = false.
Proof.
  intros Htrav Hallow.
  assert (Hdd : JS.includes p (js "..") = true).
  { unfold isPathTraversal in Htrav. destruct p as [|c t];
      [discriminate|].
    apply (normalizePath_has_dot_dot host (c :: t)
             no_normalization_options), Htrav. }
  destruct p as [|c t]; [discriminate Htrav|].
  assert (Hin : In TRAVERSAL (check_codes host (c :: t) options)).
  { unfold check_codes. cbv zeta. rewrite Hallow, Hdd. cbn [negb andb].
    apply in_or_app. right. apply in_or_app. right. left. reflexivity. }
  split; [exact Hdd|]. split.
  - rewrite validatePath_error_codes. exact Hin.
  - destruct (isValid (validatePath host (c :: t) options)) eqn:E;
      [|reflexivity].
    apply validatePath_isValid in E. rewrite E in Hin. destruct Hin.
Qed.

(** For instance ['a/../../b'] on a POSIX host *)
Lemma isPathTraversal_then_validatePath_rejects_witness :
  isPathTraversal posix_host (js "a/../../b") = true
  /\ nullish (allowTraversal no_validation_options) false = false
  /\ isValid (validatePath posix_host (js "a/../../b")
                no_validation_options) = false.
Proof.
  refine (conj eq_refl (conj eq_refl _)).
  exact (proj2 (proj2 (isPathTraversal_then_validatePath_rejects posix_host
                         (js "a/../../b") no_validation_options
                         eq_refl eq_refl))).
Defined.

(** ** What [isPathTraversal] looks at *)

Lemma has_dot_dot_join_in (sep : ascii) (stack : list jsstring)
  (s : jsstring) :
  In s stack -> has_dot_dot s = true ->
  has_dot_dot (join_stack sep stack) = true.
Proof.
  intros Hin Hd. induction stack as [|top rest IH]; [destruct Hin|].
  rewrite join_stack_cons. destruct Hin as [->|Hin].
  - apply has_dot_dot_app_r, Hd.
  - apply has_dot_dot_app_l. destruct rest as [|next rest]; [destruct Hin|].
    change (stack_base sep (next :: rest))
      with (join_stack sep (next :: rest) ++ [sep]).
    apply has_dot_dot_app_l, IH, Hin.
Qed.

Lemma has_dot_dot_join_existsb (sep : ascii) (stack : list jsstring) :
  sep <> "."%char ->
  has_dot_dot (join_stack sep stack) = existsb has_dot_dot stack.
Proof.
  intros Hsep. destruct (existsb has_dot_dot stack) eqn:E.
  - apply existsb_exists in E. destruct E as (s & Hs & Hd).
    apply (has_dot_dot_join_in sep stack s Hs Hd).
  - destruct (has_dot_dot (join_stack sep stack)) eqn:H; [|reflexivity].
    apply has_dot_dot_join_stack in H; [|exact Hsep].
    destruct H as (s & Hs & Hd).
    assert (existsb has_dot_dot stack = true)
      by (apply existsb_exists; exists s; split; assumption).
    congruence.
Qed.

Lemma posix_text_has_dot_dot (abs trailing : bool)
  (stack : list jsstring) :
  has_dot_dot (posix_text abs trailing stack) = existsb has_dot_dot stack.
Proof.
  destruct stack as [|top below].
  - destruct abs, trailing; reflexivity.
  - rewrite <- (has_dot_dot_join_existsb "/") by discriminate.
    unfold posix_text.
    set (j := join_stack "/" (top :: below)).
    assert (Hsuf : has_dot_dot (j ++ sep_if trailing "/") = has_dot_dot j).
    { destruct trailing; cbn [sep_if]; [|rewrite app_nil_r; reflexivity].
      destruct (has_dot_dot j) eqn:Hj.
      - apply has_dot_dot_app_l, Hj.
      - destruct (has_dot_dot (j ++ ["/"%char])) eqn:H; [|reflexivity].
        apply has_dot_dot_snoc_inv in H; [congruence|discriminate]. }
    destruct abs; cbn [app js list_ascii_of_string];
      rewrite ?has_dot_dot_cons_other by discriminate; exact Hsuf.
Qed.

Lemma normalizePath_has_dot_dot_eq (host : Host) (p : jsstring)
  (options : NormalizationOptions) :
  p <> [] -> path_normalize host p <> js "." ->
  has_dot_dot (normalizePath host p options)
  = has_dot_dot (path_normalize host p).
Proof.
  intros Hp Hn. rewrite normalizePath_nonempty_eq by exact Hp. cbv zeta.
  apply jsstring_eqb_neq in Hn. rewrite Hn.
  destruct (nullish (toLowerCase options) _);
    rewrite ?has_dot_dot_lower;
    destruct (nullish (removeTrailingSlash options) true && _);
    rewrite ?has_dot_dot_replace_trailing_separator;
    destruct (nullish (forceForwardSlash options) true);
    rewrite ?has_dot_dot_replace_backslashes; reflexivity.
Qed.

(** On a POSIX host [isPathTraversal] looks for two dots in a row in
    the segments the path resolves to, unless it resolves to ['.']:
    then it looks in the path itself. *)
Lemma isPathTraversal_posix_segments (host : Host) (p : jsstring) :
  is_win32 host = false -> p <> [] ->
  isPathTraversal host p
  = if jsstring_eqb (NodePath.posix.normalize p) (js ".")
    then has_dot_dot p
    else existsb has_dot_dot (posix_segments p).
Proof.
  intros Hhost Hp. destruct p as [|c t]; [congruence|].
  unfold isPathTraversal. fold (has_dot_dot
    (normalizePath host (c :: t) no_normalization_options)).
  destruct (jsstring_eqb (NodePath.posix.normalize (c :: t)) (js "."))
    eqn:E.
  - rewrite normalizePath_nonempty_eq by exact Hp. cbv zeta.
    rewrite (path_normalize_posix host Hhost), E. reflexivity.
  - rewrite normalizePath_has_dot_dot_eq;
      rewrite ?(path_normalize_posix host Hhost);
      [|exact Hp|apply jsstring_eqb_neq, E].
    rewrite (posix_normalize_eq (c :: t) Hp).
    apply posix_text_has_dot_dot.
Qed.

Lemma push_segment_below_root (stack : list jsstring) (seg s : jsstring) :
  In s (push_segment false stack seg) ->
  In s stack \/ (s = seg /\ seg <> js "..").
Proof.
  unfold push_segment.
  destruct (_ || _); [intros H; left; exact H|].
  destruct (jsstring_eqb seg (js "..")) eqn:E.
  - destruct stack as [|top rest]; [intros []|].
    destruct (jsstring_eqb top (js ".."));
      intros H; left; [exact H|right; exact H].
  - apply jsstring_eqb_neq in E.
    intros [H|H]; [right; split; [symmetry; exact H|exact E]|left; exact H].
Qed.

Lemma resolve_from_below_root (isSep : ascii -> bool) (rest : jsstring) :
  forall (stack : list jsstring) (cur s : jsstring),
    In s (resolve_from false isSep stack cur rest) ->
    In s stack \/ (In s (segments_from isSep cur rest) /\ s <> js "..").
Proof.
  induction rest as [|c t IH]; intros stack cur s Hin.
  - cbn [resolve_from] in Hin. cbn [segments_from].
    destruct (push_segment_below_root _ _ _ Hin) as [H|[-> H]].
    + left. exact H.
    + right. split; [left; reflexivity|exact H].
  - cbn [resolve_from] in Hin. cbn [segments_from]. destruct (isSep c).
    + destruct (IH _ _ _ Hin) as [H|[H1 H2]].
      * destruct (push_segment_below_root _ _ _ H) as [H'|[-> H']].
        -- left. exact H'.
        -- right. split; [left; reflexivity|exact H'].
      * right. split; [right; exact H1|exact H2].
    + apply IH, Hin.
Qed.

Lemma posix_normalize_absolute (p : jsstring) :
  starts_with_slash p = true -> NodePath.posix.normalize p <> js ".".
Proof.
  intros Habs. assert (Hp : p <> []) by (intros ->; discriminate Habs).
  rewrite (posix_normalize_eq p Hp), Habs. unfold posix_text.
  destruct (posix_segments p); discriminate.
Qed.

(** X20: on a POSIX host [isPathTraversal] is true of every path that
    climbs above the directory it starts from: one that still has a
    ['..'] segment when it is resolved. *)
Theorem isPathTraversal_flags_climbing (host : Host) (p : jsstring) :
  is_win32 host = false ->
  In (js "..") (posix_segments p) ->
  isPathTraversal host p = true.
Proof.
  intros Hhost Hin.
  assert (Hp : p <> []) by (intros ->; destruct Hin).
  assert (Hex : existsb has_dot_dot (posix_segments p) = true).
  { apply existsb_exists. exists (js ".."). split; [exact Hin|reflexivity]. }
  rewrite (isPathTraversal_posix_segments host p Hhost Hp).
  destruct (jsstring_eqb (NodePath.posix.normalize p) (js ".")) eqn:E;
    [|exact Hex].
  apply jsstring_eqb_eq in E.
  rewrite (posix_normalize_eq p Hp) in E.
  assert (H : has_dot_dot (posix_text (starts_with_slash p)
                             (ends_with_slash p) (posix_segments p))
              = true)
    by (rewrite posix_text_has_dot_dot; exact Hex).
  rewrite E in H. discriminate H.
Qed.

(** For instance ['a/../../b'], which resolves to ['../b'] *)
Lemma isPathTraversal_flags_climbing_witness :
  is_win32 posix_host = false
  /\ In (js "..") (posix_segments (js "a/../../b"))
  /\ isPathTraversal posix_host (js "a/../../b") = true.
Proof.
  assert (H : In (js "..") (posix_segments (js "a/../../b")))
    by (right; left; reflexivity).
  refine (conj eq_refl (conj H _)).
  exact (isPathTraversal_flags_climbing posix_host (js "a/../../b")
           eq_refl H).
Defined.

(** X21: on a POSIX host [isPathTraversal] is false of every absolute
    path in which two dots in a row only stand as whole ['..']
    segments, however many of them there are: those are resolved at
    the root and leave no trace. *)
Theorem isPathTraversal_absolute_not_flagged (host : Host) (p : jsstring) :
  is_win32 host = false ->
  starts_with_slash p = true ->
  Forall (fun s => s = js ".." \/ has_dot_dot s = false)
    (posix_path_segments p) ->
  isPathTraversal host p = false.
Proof.
  intros Hhost Habs Hall.
  assert (Hp : p <> []) by (intros ->; discriminate Habs).
  rewrite (isPathTraversal_posix_segments host p Hhost Hp).
  pose proof (posix_normalize_absolute p Habs) as Hn.
  apply jsstring_eqb_neq in Hn. rewrite Hn.
  destruct (existsb has_dot_dot (posix_segments p)) eqn:E; [|reflexivity].
  apply existsb_exists in E. destruct E as (s & Hs & Hd).
  unfold posix_segments in Hs. rewrite Habs in Hs. cbn [negb] in Hs.
  apply resolve_from_below_root in Hs. destruct Hs as [[]|[Hs Hne]].
  rewrite Forall_forall in Hall.
  destruct (Hall s Hs) as [H|H]; congruence.
Qed.

(** For instance ['/../../etc/passwd'] *)
Lemma isPathTraversal_absolute_not_flagged_witness :
  is_win32 posix_host = false
  /\ starts_with_slash (js "/../../etc/passwd") = true
  /\ Forall (fun s => s = js ".." \/ has_dot_dot s = false)
       (posix_path_segments (js "/../../etc/passwd"))
  /\ isPathTraversal posix_host (js "/../../etc/passwd") = false.
Proof.
  assert (H : Forall (fun s => s = js ".." \/ has_dot_dot s = false)
                (posix_path_segments (js "/../../etc/passwd"))).
  { repeat (apply Forall_cons;
              [first [left; reflexivity|right; reflexivity]|]).
    apply Forall_nil. }
  refine (conj eq_refl (conj eq_refl (conj H _))).
  exact (isPathTraversal_absolute_not_flagged posix_host
           (js "/../../etc/passwd") eq_refl eq_refl H).
Defined.

(** ** No slash at the end *)

Lemma ends_with_slash_last (q : jsstring) (d : ascii) :
  ends_with_slash (q ++ [d]) = (d =? "/")%char.
Proof. unfold ends_with_slash. rewrite codeAt_last. reflexivity. Qed.

Lemma ends_with_slash_lower (s : jsstring) :
  ends_with_slash (JS.toLowerCase s) = ends_with_slash s.
Proof.
  destruct s as [|c t]; [reflexivity|].
  destruct (@exists_last _ (c :: t) ltac:(discriminate)) as (q & d & E).
  rewrite E, toLowerCase_app.
  change (JS.toLowerCase [d]) with [JS.lowerCode d].
  rewrite !ends_with_slash_last. apply lowerCode_slash.
Qed.

(** A normalized path has no two slashes at its end. *)
Lemma posix_text_one_slash (abs trailing : bool) (stack : list jsstring)
  (q : jsstring) :
  stack_ok NodePath.isPosixPathSeparator stack ->
  posix_text abs trailing stack = q ++ ["/"%char] ->
  ends_with_slash q = false.
Proof.
  intros Hok E. destruct stack as [|top below].
  - destruct abs; [|destruct trailing].
    + destruct q as [|x [|y q]]; [reflexivity|discriminate E..].
    + destruct q as [|x [|y [|z q]]]; try discriminate E.
      injection E as <-. reflexivity.
    + destruct q as [|x [|y q]]; discriminate E.
  - destruct (join_stack_last "/" _ (top :: below) Hok ltac:(discriminate))
      as (front & c & Ej & Hc & _).
    unfold posix_text in E. rewrite Ej in E.
    destruct trailing; cbn [sep_if] in E.
    + rewrite !app_assoc in E. apply app_inj_tail in E. destruct E as [<- _].
      rewrite ends_with_slash_last. exact Hc.
    + rewrite app_nil_r, app_assoc in E. apply app_inj_tail in E.
      destruct E as [_ ->]. discriminate Hc.
Qed.

Lemma posix_text_dot (abs trailing : bool) (stack : list jsstring) :
  posix_text abs trailing stack = js "." -> trailing = false.
Proof.
  intros E. destruct trailing; [|reflexivity]. exfalso.
  destruct stack as [|top below].
  - destruct abs; discriminate E.
  - unfold posix_text in E. cbn [sep_if] in E.
    rewrite app_assoc in E.
    change (js ".") with ([] ++ ["."%char]) in E.
    apply app_inj_tail in E. destruct E as [_ E]. discriminate E.
Qed.

(** X22: on a POSIX host, with [removeTrailingSlash] (the default),
    [normalizePath] gives a path without backslashes a result that has
    no slash at its end, the root ['/'] apart. *)
Theorem normalizePath_no_trailing_slash (host : Host) (p : jsstring)
  (options : NormalizationOptions) :
  is_win32 host = false ->
  backslash_free p ->
  nullish (removeTrailingSlash options) true = true ->
  ends_with_slash (normalizePath host p options) = true ->
  normalizePath host p options = js "/".
Proof.
  intros Hhost Hfree Hrts. destruct p as [|c t]; [discriminate|].
  assert (Hp : c :: t <> []) by discriminate.
  rewrite normalizePath_nonempty_eq by exact Hp.
  rewrite (path_normalize_posix host Hhost). cbv zeta. rewrite Hrts.
  pose proof (posix_normalize_eq (c :: t) Hp) as En.
  pose proof (normal_stack_ok _ _ _ (posix_segments_normal (c :: t))) as Hok.
  assert (Hnfree : backslash_free (NodePath.posix.normalize (c :: t))).
  { apply posix_normalize_chars; [discriminate|discriminate|exact Hfree]. }
  pose proof (posix_normalize_nonempty (c :: t)) as Hne.
  set (n := NodePath.posix.normalize (c :: t)) in *.
  destruct (jsstring_eqb n (js ".")) eqn:Edot.
  - apply jsstring_eqb_eq in Edot. rewrite Edot in En. symmetry in En.
    apply posix_text_dot in En. congruence.
  - assert (E1 : (if nullish (forceForwardSlash options) true
                  then JS.replace_backslashes n else n) = n).
    { destruct (nullish (forceForwardSlash options) true);
        [apply replace_backslashes_free, Hnfree|reflexivity]. }
    rewrite E1. cbn [andb].
    destruct (@exists_last _ n Hne) as (q & d & Eq).
    assert (Hstrip :
              ends_with_slash
                (if (JS.length n >? 1)%Z
                 then JS.replace_trailing_separator n else n) = true ->
              n = js "/").
    { destruct (JS.length n >? 1)%Z eqn:Hlen.
      - rewrite Eq, replace_trailing_separator_snoc.
        destruct (Ascii.eqb_spec d "/") as [->|Hd].
        + cbn [orb]. rewrite Eq in En. symmetry in En.
          apply posix_text_one_slash in En; [congruence|exact Hok].
        + destruct (Ascii.eqb_spec d "\") as [->|Hd'].
          * exfalso. rewrite Eq in Hnfree. unfold backslash_free in Hnfree.
            rewrite Forall_app in Hnfree. destruct Hnfree as [_ H].
            inversion H as [|? ? Hx _]; subst. congruence.
          * cbn [orb]. rewrite ends_with_slash_last.
            destruct (Ascii.eqb_spec d "/"); [congruence|discriminate].
      - rewrite Eq, ends_with_slash_last. intros Hd.
        apply Ascii.eqb_eq in Hd. subst d.
        destruct q as [|x q]; [reflexivity|].
        exfalso. rewrite Eq in Hlen. rewrite JS_length_app in Hlen.
        rewrite JS_length_cons in Hlen.
        pose proof (JS_length_nonneg q).
        change (JS.length ["/"%char]) with 1%Z in Hlen.
        rewrite Z.gtb_ltb, Z.ltb_ge in Hlen. lia. }
    intros Hend.
    assert (Hn : n = js "/").
    { apply Hstrip.
      destruct (nullish (toLowerCase options) _);
        rewrite ?ends_with_slash_lower in Hend; exact Hend. }
    rewrite Hn. destruct (nullish (toLowerCase options) _); reflexivity.
Qed.

(** For instance the root itself, written ['//'] *)
Lemma normalizePath_no_trailing_slash_witness :
  is_win32 posix_host = false
  /\ backslash_free (js "//")
  /\ ends_with_slash
       (normalizePath posix_host (js "//") no_normalization_options) = true
  /\ normalizePath posix_host (js "//") no_normalization_options = js "/".
Proof.
  assert (H : backslash_free (js "//"))
    by (repeat constructor; discriminate).
  refine (conj eq_refl (conj H (conj eq_refl _))).
  exact (normalizePath_no_trailing_slash posix_host (js "//")
           no_normalization_options eq_refl H eq_refl eq_refl).
Defined.

(** ** [sanitizePath] twice *)

Lemma replace_global_empty_legal (cls : ascii -> bool) (s : jsstring) :
  Forall (fun c => cls c = false) s -> JS.replace_global_empty cls s = s.
Proof.
  unfold JS.replace_global_empty. induction 1 as [|c s Hc _ IH];
    [reflexivity|].
  cbn [filter]. rewrite Hc, IH. reflexivity.
Qed.

Lemma replace_global_empty_backslash_free (cls : ascii -> bool)
  (s : jsstring) :
  backslash_free s -> backslash_free (JS.replace_global_empty cls s).
Proof.
  unfold backslash_free, JS.replace_global_empty. intros H.
  apply Forall_forall. intros c Hc. apply filter_In in Hc.
  rewrite Forall_forall in H. apply H, Hc.
Qed.

(** X23: on a POSIX host [sanitizePath] is idempotent on the paths
    without backslashes: sanitizing its result again changes nothing. *)
Theorem sanitizePath_idempotent (host : Host) (p : jsstring)
  (os : option OSType) :
  is_win32 host = false ->
  backslash_free p ->
  sanitizePath host (sanitizePath host p os) os = sanitizePath host p os.
Proof.
  intros Hhost Hfree.
  assert (Hos : os = Some auto -> is_win32 host = false)
    by (intros _; exact Hhost).
  pose proof (sanitizePath_no_illegal_char host p os Hos) as Hlegal.
  apply has_char_false in Hlegal.
  set (o := match os with Some o => o | None => getCurrentOS host end).
  assert (Hcls : illegal_chars_of (resolve_os host os) = illegal_chars_of o).
  { unfold o, resolve_os, getCurrentOS. rewrite Hhost.
    destruct os as [[| |]|]; reflexivity. }
  rewrite Hcls in Hlegal.
  destruct (sanitizePath host p os) as [|c t] eqn:E; [reflexivity|].
  unfold sanitizePath at 1. fold o.
  rewrite (replace_global_empty_legal _ _ Hlegal), <- E.
  unfold sanitizePath. fold o. destruct p as [|d p]; [reflexivity|].
  apply normalizePath_idempotent_posix; [exact Hhost|].
  apply replace_global_empty_backslash_free, Hfree.
Qed.

(** For instance [sanitizePath('a<b//c/')] on a POSIX host, for Windows *)
Lemma sanitizePath_idempotent_witness :
  is_win32 posix_host = false
  /\ backslash_free (js "a<b//c/")
  /\ sanitizePath posix_host (js "ab/c") (Some windows)
     = sanitizePath posix_host (js "a<b//c/") (Some windows).
Proof.
  assert (H : backslash_free (js "a<b//c/"))
    by (repeat constructor; discriminate).
  refine (conj eq_refl (conj H _)).
  exact (sanitizePath_idempotent posix_host (js "a<b//c/") (Some windows)
           eq_refl H).
Defined.

(** ** [path.posix.resolve] *)

(** What Node documents and tests [resolve] and [relative] to return,
    in the directory [/home/user]. *)
Example posix_resolve_examples :
  map (fun args => NodePath.posix.resolve (js "/home/user") (map js args))
    [ ["/var/lib"; "../"; "file/"]; ["a/b/c/"; "../../.."]; ["."];
      ["/some/dir"; "."; "/absolute/"];
      ["/foo/tmp.3/"; "../tmp.3/cycles/root.js"];
      ["/foo/bar"; "./baz"]; ["/foo/bar"; "/tmp/file/"];
      ["wwwroot"; "static_files/png/"; "../gif/image.gif"]; [] ]%string
  = map js
      [ "/var/file"; "/home/user"; "/home/user";
        "/absolute";
        "/foo/tmp.3/cycles/root.js";
        "/foo/bar/baz"; "/tmp/file";
        "/home/user/wwwroot/static_files/gif/image.gif";
        "/home/user" ]%string.
Proof. reflexivity. Qed.

Example posix_relative_examples :
  map (fun '(from, to) =>
         PosixHost.getRelativePath (js "/home/user") (js from) (js to))
    [ ("/var/lib", "/var"); ("/var/lib", "/bin");
      ("/var/lib", "/var/lib"); ("/var/lib", "/var/apache");
      ("/var/", "/var/lib"); ("/", "/var/lib");
      ("/foo/test", "/foo/test/bar/package.json");
      ("/Users/a/web/b/test/mails", "/Users/a/web/b");
      ("/foo/bar/baz-quux", "/foo/bar/baz");
      ("/foo/bar/baz", "/foo/bar/baz-quux");
      ("/baz-quux", "/baz"); ("/baz", "/baz-quux");
      ("/page1/page2/foo", "/");
      ("/data/orandea/test/aaa", "/data/orandea/impl/bbb") ]%string
  = map js
      [ ".."; "../../bin";
        ""; "../apache";
        "lib"; "var/lib";
        "bar/package.json";
        "../..";
        "../baz";
        "../baz-quux";
        "../baz"; "../baz-quux";
        "../../..";
        "../../impl/bbb" ]%string.
Proof. reflexivity. Qed.

Lemma resolve_loop_absolute (paths : list jsstring) (r : jsstring) :
  NodePath.posix.resolve_loop paths r true = (r, true).
Proof. destruct paths; reflexivity. Qed.

Lemma resolve_loop_app (paths : list jsstring) :
  forall r : jsstring,
    NodePath.posix.resolve_loop paths r false
    = (fst (NodePath.posix.resolve_loop paths [] false) ++ r,
       snd (NodePath.posix.resolve_loop paths [] false)).
Proof.
  induction paths as [|path rest IH]; intros r; [reflexivity|].
  cbn [NodePath.posix.resolve_loop].
  destruct (JS.length path =? 0)%Z; [apply IH|].
  destruct (JS.codeAt _ path 0).
  - rewrite !resolve_loop_absolute. cbn [fst snd].
    rewrite <- app_assoc. reflexivity.
  - rewrite (IH (path ++ "/"%char :: r)), (IH (path ++ ["/"%char])).
    cbn [fst snd]. rewrite <- !app_assoc. reflexivity.
Qed.

(** With an absolute current directory the loop ends with an absolute
    path, which ends with a slash. *)
Lemma resolve_loop_cwd (cwd : jsstring) (paths : list jsstring) :
  starts_with_slash cwd = true ->
  exists x,
    NodePath.posix.resolve_loop (paths ++ [cwd]) [] false
    = (x ++ ["/"%char], true).
Proof.
  intros Hcwd. induction paths as [|path rest IH].
  - exists cwd. cbn [app NodePath.posix.resolve_loop].
    destruct cwd as [|c t]; [discriminate Hcwd|].
    change (JS.length (c :: t) =? 0)%Z with false. cbv iota.
    unfold starts_with_slash in Hcwd.
    change (JS.codeAt (fun c0 => (c0 =? NodePath.CHAR_FORWARD_SLASH)%char))
      with (JS.codeAt NodePath.isPosixPathSeparator).
    rewrite Hcwd. reflexivity.
  - cbn [app NodePath.posix.resolve_loop].
    destruct (JS.length path =? 0)%Z; [exact IH|].
    destruct (JS.codeAt _ path 0).
    + exists path. apply resolve_loop_absolute.
    + destruct IH as [x Hx]. exists (x ++ "/"%char :: path).
      rewrite resolve_loop_app, Hx. cbn [fst snd].
      rewrite <- !app_assoc. reflexivity.
Qed.

Lemma resolved_segments_normal (cwd : jsstring) (args : list jsstring) :
  normal_stack false NodePath.isPosixPathSeparator
    (resolved_segments cwd args).
Proof. apply resolve_from_normal; [exact I|constructor]. Qed.

(** What [resolve] returns when the current directory is absolute. *)
Lemma resolve_eq (cwd : jsstring) (args : list jsstring) :
  starts_with_slash cwd = true ->
  NodePath.posix.resolve cwd args
  = "/"%char :: join_stack "/" (resolved_segments cwd args).
Proof.
  intros Hcwd. unfold NodePath.posix.resolve, resolved_segments.
  destruct (resolve_loop_cwd cwd (rev args) Hcwd) as [x Hx].
  rewrite Hx. cbn [fst negb].
  rewrite normalizeString_resolve by reflexivity. reflexivity.
Qed.

(** One more argument, relative: it is resolved from where the others
    lead. *)
Lemma resolved_segments_snoc (cwd : jsstring) (args : list jsstring)
  (rel : jsstring) :
  starts_with_slash cwd = true ->
  starts_with_slash rel = false ->
  resolved_segments cwd (args ++ [rel])
  = resolve_from false NodePath.isPosixPathSeparator
      (resolved_segments cwd args) [] rel.
Proof.
  intros Hcwd Hrel. unfold resolved_segments.
  rewrite rev_app_distr. cbn [rev app].
  destruct (resolve_loop_cwd cwd (rev args) Hcwd) as [x Hx].
  cbn [NodePath.posix.resolve_loop].
  destruct rel as [|c t].
  - change (JS.length [] =? 0)%Z with true. cbv iota.
    cbn [resolve_from]. rewrite push_segment_nil. reflexivity.
  - change (JS.length (c :: t) =? 0)%Z with false. cbv iota.
    unfold starts_with_slash in Hrel.
    change (JS.codeAt (fun c0 => (c0 =? NodePath.CHAR_FORWARD_SLASH)%char))
      with (JS.codeAt NodePath.isPosixPathSeparator).
    rewrite Hrel, resolve_loop_app, Hx. cbn [fst].
    rewrite <- app_assoc. cbn [app].
    rewrite (resolve_from_app_sep false _ "/" x) by reflexivity.
    rewrite (resolve_from_snoc_sep false _ "/" x) by reflexivity.
    apply (resolve_from_snoc_sep false _ "/" (c :: t)). reflexivity.
Qed.

(** ** The loops of [path.posix.relative] *)

Lemma charCodeAt_app_r (s t : jsstring) (k : Z) :
  (0 <= k)%Z ->
  JS.charCodeAt (s ++ t) (JS.length s + k) = JS.charCodeAt t k.
Proof.
  intros Hk. unfold JS.charCodeAt.
  pose proof (JS_length_nonneg s).
  destruct (Z.ltb_spec (JS.length s + k) 0); [lia|].
  destruct (Z.ltb_spec k 0); [lia|].
  unfold JS.length in *.
  replace (Z.to_nat (Z.of_nat (List.length s) + k))
    with (List.length s + Z.to_nat k)%nat by lia.
  rewrite nth_error_app2 by lia.
  replace (List.length s + Z.to_nat k - List.length s)%nat
    with (Z.to_nat k) by lia.
  reflexivity.
Qed.

Lemma charCodeAt_app_head (s : jsstring) (c : ascii) (t : jsstring) :
  JS.charCodeAt (s ++ c :: t) (JS.length s) = Some c.
Proof.
  replace (JS.length s) with (JS.length s + 0)%Z by lia.
  rewrite charCodeAt_app_r by lia. reflexivity.
Qed.

Lemma charCodeAt_app_end (s : jsstring) :
  JS.charCodeAt s (JS.length s) = None.
Proof.
  rewrite <- (app_nil_r s) at 1.
  replace (JS.length s) with (JS.length s + 0)%Z by lia.
  rewrite charCodeAt_app_r by lia. reflexivity.
Qed.

(** The first loop, on indices, does what [common_scan] does on what
    is left of the two paths. *)
Lemma common_loop_scan (f : jsstring) :
  forall (t pre_f pre_t : jsstring) (i lcs : Z) (rounds : nat),
    JS.length pre_f = (1 + i)%Z -> JS.length pre_t = (1 + i)%Z ->
    rounds = Nat.min (List.length f) (List.length t) ->
    NodePath.posix.common_loop (pre_f ++ f) (pre_t ++ t) 1 1 rounds i lcs
    = common_scan f t i lcs.
Proof.
  induction f as [|a f IH]; intros t pre_f pre_t i lcs rounds Hf Ht ->.
  - reflexivity.
  - destruct t as [|b t]; [reflexivity|].
    cbn [List.length Nat.min NodePath.posix.common_loop common_scan].
    assert (E1 : JS.charCodeAt (pre_f ++ a :: f) (1 + i) = Some a)
      by (rewrite <- Hf; apply charCodeAt_app_head).
    assert (E2 : JS.charCodeAt (pre_t ++ b :: t) (1 + i) = Some b)
      by (rewrite <- Ht; apply charCodeAt_app_head).
    rewrite !E1, E2.
    cbn [NodePath.posix.code_differs].
    destruct (a =? b)%char eqn:Eab; cbn [negb]; [|reflexivity].
    assert (Hf' : JS.length (pre_f ++ [a]) = (1 + (i + 1))%Z)
      by (rewrite JS_length_app, Hf; change (JS.length [a]) with 1%Z; lia).
    assert (Ht' : JS.length (pre_t ++ [b]) = (1 + (i + 1))%Z)
      by (rewrite JS_length_app, Ht; change (JS.length [b]) with 1%Z; lia).
    pose proof (IH t (pre_f ++ [a]) (pre_t ++ [b]) (i + 1)%Z) as H.
    rewrite <- !app_assoc in H. cbn [app] in H.
    change NodePath.CHAR_FORWARD_SLASH with "/"%char.
    destruct (a =? "/")%char; cbn [negb]; apply H; auto.
Qed.

(** What the scan finds: a common prefix of [i' - i] characters, after
    which the paths differ or one of them ends... *)
Lemma common_scan_prefix (f : jsstring) :
  forall (t : jsstring) (i lcs : Z),
    exists c f1 t1,
      f = c ++ f1 /\ t = c ++ t1
      /\ fst (common_scan f t i lcs) = (i + JS.length c)%Z
      /\ (f1 = [] \/ t1 = []
          \/ exists a b f2 t2, f1 = a :: f2 /\ t1 = b :: t2 /\ a <> b).
Proof.
  induction f as [|a f IH]; intros t i lcs.
  - exists [], [], t. cbn. repeat split; [lia|left; reflexivity].
  - destruct t as [|b t].
    + exists [], (a :: f), []. cbn. repeat split; [lia|].
      right; left; reflexivity.
    + cbn [common_scan]. destruct (Ascii.eqb_spec a b) as [->|Hab].
      * destruct (IH t (i + 1)%Z (if (b =? "/")%char then i else lcs))
          as (c & f1 & t1 & -> & -> & Hi & Hstop).
        exists (b :: c), f1, t1. repeat split; [|exact Hstop].
        rewrite Hi, JS_length_cons. lia.
      * exists [], (a :: f), (b :: t). cbn. repeat split; [lia|].
        right; right. exists a, b, f, t. repeat split. exact Hab.
Qed.

(** ... and the last slash of that prefix, when there is one. *)
Lemma common_scan_sep (f : jsstring) :
  forall (t : jsstring) (i lcs : Z),
    snd (common_scan f t i lcs) = lcs
    \/ exists c fs ts,
         f = c ++ "/"%char :: fs /\ t = c ++ "/"%char :: ts
         /\ snd (common_scan f t i lcs) = (i + JS.length c)%Z.
Proof.
  induction f as [|a f IH]; intros t i lcs; [left; reflexivity|].
  destruct t as [|b t]; [left; reflexivity|].
  cbn [common_scan]. destruct (Ascii.eqb_spec a b) as [->|Hab];
    [|left; reflexivity].
  destruct (IH t (i + 1)%Z (if (b =? "/")%char then i else lcs))
    as [H|(c & fs & ts & -> & -> & H)].
  - rewrite H. destruct (Ascii.eqb_spec b "/") as [->|_];
      [|left; reflexivity].
    right. exists [], f, t. repeat split. cbn. lia.
  - right. exists (b :: c), fs, ts. repeat split.
    rewrite H, JS_length_cons. lia.
Qed.

Lemma dot_dots_succ (k : nat) :
  dot_dots (S k)
  = dot_dots k ++ (if (JS.length (dot_dots k) =? 0)%Z
                   then js ".." else js "/..").
Proof.
  destruct k as [|k]; [reflexivity|].
  change (dot_dots (S (S k))) with (dot_dots (S k) ++ js "/..").
  f_equal. destruct k as [|k]; [reflexivity|].
  change (dot_dots (S (S k))) with (dot_dots (S k) ++ js "/..").
  rewrite JS_length_app. pose proof (JS_length_nonneg (dot_dots (S k))).
  change (JS.length (js "/..")) with 3%Z.
  destruct (Z.eqb_spec (JS.length (dot_dots (S k)) + 3) 0); [lia|].
  reflexivity.
Qed.

(** The second loop adds one [..] for the end of [from] and one for
    each slash before it. *)
Lemma out_loop_count (fs : jsstring) :
  forall (pre : jsstring) (k : nat),
    NodePath.posix.out_loop (pre ++ fs) (JS.length (pre ++ fs))
      (S (List.length fs)) (JS.length pre) (dot_dots k)
    = dot_dots (k + 1 + count_slashes fs).
Proof.
  induction fs as [|c fs IH]; intros pre k.
  - cbn [List.length NodePath.posix.out_loop]. rewrite app_nil_r.
    rewrite Z.eqb_refl. cbn [orb].
    rewrite <- dot_dots_succ. unfold count_slashes.
    cbn [filter List.length].
    replace (k + 1 + 0)%nat with (S k) by lia. reflexivity.
  - cbn [List.length]. change (NodePath.posix.out_loop (pre ++ c :: fs)
      (JS.length (pre ++ c :: fs)) (S (S (List.length fs)))
      (JS.length pre) (dot_dots k))
      with (NodePath.posix.out_loop (pre ++ c :: fs)
              (JS.length (pre ++ c :: fs)) (S (List.length fs))
              (JS.length pre + 1)
              (if (JS.length pre =? JS.length (pre ++ c :: fs))%Z
                  || JS.codeAt (fun d => (d =? NodePath.CHAR_FORWARD_SLASH)%char)
                       (pre ++ c :: fs) (JS.length pre)
               then dot_dots k
                    ++ (if (JS.length (dot_dots k) =? 0)%Z
                        then js ".." else js "/..")
               else dot_dots k)).
    assert (Hne : (JS.length pre =? JS.length (pre ++ c :: fs))%Z = false).
    { apply Z.eqb_neq. rewrite JS_length_app, JS_length_cons.
      pose proof (JS_length_nonneg fs). lia. }
    rewrite Hne. cbn [orb].
    replace (JS.length pre) with (JS.length pre + 0)%Z at 2 by lia.
    rewrite codeAt_app_r by lia.
    change (JS.codeAt (fun d => (d =? NodePath.CHAR_FORWARD_SLASH)%char)
              (c :: fs) 0) with (NodePath.isPosixPathSeparator c).
    rewrite <- dot_dots_succ.
    pose proof (IH (pre ++ [c])) as H.
    assert (E : (pre ++ [c]) ++ fs = pre ++ c :: fs)
      by (rewrite <- app_assoc; reflexivity).
    assert (EL : JS.length (pre ++ [c]) = (JS.length pre + 1)%Z)
      by (rewrite JS_length_app; reflexivity).
    rewrite E, EL in H.
    unfold count_slashes. cbn [filter].
    destruct (NodePath.isPosixPathSeparator c).
    + rewrite (H (S k)). cbn [List.length]. unfold count_slashes.
      f_equal. lia.
    + rewrite (H k). reflexivity.
Qed.

(** ** Normalized paths, cut at a slash *)

Lemma normal_stack_app_r (allow : bool) (isSep : ascii -> bool)
  (upper lower : list jsstring) :
  normal_stack allow isSep (upper ++ lower) -> normal_stack allow isSep lower.
Proof.
  induction upper as [|s upper IH]; [exact (fun H => H)|].
  cbn [app normal_stack]. intros (_ & _ & H). apply IH, H.
Qed.

Lemma normal_stack_no_dot_dot (isSep : ascii -> bool)
  (stack : list jsstring) :
  normal_stack false isSep stack -> Forall (fun s => s <> js "..") stack.
Proof.
  induction stack as [|s below IH]; [constructor|].
  cbn [normal_stack]. intros (Hpush & _ & Hbelow).
  constructor; [|apply IH, Hbelow].
  intros ->. unfold push_segment in Hpush.
  change (jsstring_eqb (js "..") [] || jsstring_eqb (js "..") (js "."))
    with false in Hpush.
  change (jsstring_eqb (js "..") (js "..")) with true in Hpush.
  cbv iota in Hpush.
  destruct below as [|top rest]; [discriminate Hpush|].
  destruct (jsstring_eqb top (js ".."));
    apply (f_equal (@List.length jsstring)) in Hpush;
    cbn [List.length] in Hpush; lia.
Qed.

(** The segments of a normalized path are read back from it. *)
Lemma resolve_of_join (allow : bool) (stack : list jsstring) :
  normal_stack allow NodePath.isPosixPathSeparator stack ->
  resolve_from allow NodePath.isPosixPathSeparator [] []
    (join_stack "/" stack) = stack.
Proof.
  intros Hn. destruct stack as [|top below]; [reflexivity|].
  pose proof (resolve_normal "/" _ eq_refl allow (top :: below) false
                ltac:(discriminate) Hn) as H.
  cbn [sep_if] in H. rewrite app_nil_r in H. exact H.
Qed.

Lemma join_stack_inj (allow : bool) (s1 s2 : list jsstring) :
  normal_stack allow NodePath.isPosixPathSeparator s1 ->
  normal_stack allow NodePath.isPosixPathSeparator s2 ->
  join_stack "/" s1 = join_stack "/" s2 -> s1 = s2.
Proof.
  intros H1 H2 E.
  rewrite <- (resolve_of_join allow s1 H1), <- (resolve_of_join allow s2 H2).
  rewrite E. reflexivity.
Qed.

Lemma split_at_last_slash (x top p fs : jsstring) :
  separator_free NodePath.isPosixPathSeparator top ->
  x ++ "/"%char :: top = p ++ "/"%char :: fs ->
  (x = p /\ top = fs)
  \/ exists fs', fs = fs' ++ "/"%char :: top /\ x = p ++ "/"%char :: fs'.
Proof.
  intros Htop E. apply app_eq_app in E.
  destruct E as [l [[E1 E2]|[E1 E2]]].
  - destruct l as [|c l].
    + left. rewrite app_nil_r in E1. cbn [app] in E2.
      injection E2 as E2. split; [exact E1|symmetry; exact E2].
    + right. cbn [app] in E2. injection E2 as <- E2.
      exists l. split; assumption.
  - destruct l as [|c l].
    + left. rewrite app_nil_r in E1. cbn [app] in E2.
      injection E2 as E2. split; [symmetry; exact E1|exact E2].
    + exfalso. cbn [app] in E2. injection E2 as _ E2.
      rewrite E2 in Htop. unfold separator_free in Htop.
      rewrite Forall_app in Htop. destruct Htop as [_ Htop].
      inversion Htop as [|? ? Hc _]; subst. discriminate Hc.
Qed.

(** A normalized path cut at one of its slashes: the lower segments
    and the upper ones. *)
Lemma join_stack_split (stack : list jsstring) :
  stack_ok NodePath.isPosixPathSeparator stack ->
  forall p fs : jsstring,
    join_stack "/" stack = p ++ "/"%char :: fs ->
    exists upper lower,
      stack = upper ++ lower /\ upper <> [] /\ lower <> []
      /\ join_stack "/" lower = p /\ join_stack "/" upper = fs.
Proof.
  induction stack as [|top rest IH]; intros Hok p fs E.
  - destruct p; discriminate E.
  - inversion Hok as [|? ? [Htop Hfree] Hrest]; subst.
    rewrite join_stack_cons in E. destruct rest as [|next rest].
    + exfalso. cbn [stack_base app] in E. rewrite E in Hfree.
      unfold separator_free in Hfree. rewrite Forall_app in Hfree.
      destruct Hfree as [_ Hfree].
      inversion Hfree as [|? ? Hc _]; subst. discriminate Hc.
    + change (stack_base "/" (next :: rest))
        with (join_stack "/" (next :: rest) ++ ["/"%char]) in E.
      rewrite <- app_assoc in E. cbn [app] in E.
      apply split_at_last_slash in E; [|exact Hfree].
      destruct E as [[E1 E2]|(fs' & E1 & E2)].
      * exists [top], (next :: rest).
        repeat split; [discriminate|discriminate|exact E1|exact E2].
      * destruct (IH Hrest p fs' E2)
          as (upper & lower & Es & Hu & Hl & Ep & Ef).
        exists (top :: upper), lower. rewrite Es.
        repeat split; [discriminate|exact Hl|exact Ep|].
        rewrite join_stack_cons. destruct upper as [|u upper];
          [congruence|].
        change (stack_base "/" (u :: upper))
          with (join_stack "/" (u :: upper) ++ ["/"%char]).
        rewrite Ef, E1, <- app_assoc. reflexivity.
Qed.

Lemma stack_ok_app (isSep : ascii -> bool) (upper lower : list jsstring) :
  stack_ok isSep (upper ++ lower) ->
  stack_ok isSep upper /\ stack_ok isSep lower.
Proof. unfold stack_ok. apply Forall_app. Qed.

Lemma count_slashes_app (a b : jsstring) :
  count_slashes (a ++ b) = (count_slashes a + count_slashes b)%nat.
Proof. unfold count_slashes. rewrite filter_app, length_app. reflexivity. Qed.

Lemma count_slashes_free (s : jsstring) :
  separator_free NodePath.isPosixPathSeparator s -> count_slashes s = 0%nat.
Proof.
  unfold count_slashes. induction 1 as [|c s Hc _ IH]; [reflexivity|].
  cbn [filter]. rewrite Hc. exact IH.
Qed.

(** One slash less than segments. *)
Lemma count_slashes_join (stack : list jsstring) :
  stack_ok NodePath.isPosixPathSeparator stack -> stack <> [] ->
  S (count_slashes (join_stack "/" stack)) = List.length stack.
Proof.
  induction stack as [|top rest IH]; intros Hok Hne; [congruence|].
  inversion Hok as [|? ? [_ Hfree] Hrest]; subst.
  rewrite join_stack_cons, count_slashes_app, (count_slashes_free top Hfree).
  destruct rest as [|next rest]; [reflexivity|].
  change (stack_base "/" (next :: rest))
    with (join_stack "/" (next :: rest) ++ ["/"%char]).
  rewrite count_slashes_app.
  change (count_slashes ["/"%char]) with 1%nat.
  specialize (IH Hrest ltac:(discriminate)).
  cbn [List.length] in *. lia.
Qed.

Lemma dot_dots_cons (k : nat) :
  dot_dots (S (S k)) = js "../" ++ dot_dots (S k).
Proof.
  induction k as [|k IH]; [reflexivity|].
  change (dot_dots (S (S (S k)))) with (dot_dots (S (S k)) ++ js "/..").
  rewrite IH at 1. rewrite <- app_assoc. reflexivity.
Qed.

Lemma dot_dots_head (k : nat) :
  exists rest, dot_dots (S k) = "."%char :: rest.
Proof.
  destruct k as [|k]; [exists (js "."); reflexivity|].
  rewrite dot_dots_cons. eexists. reflexivity.
Qed.

Lemma push_dot_dot (top : jsstring) (rest : list jsstring) :
  top <> js ".." -> push_segment false (top :: rest) (js "..") = rest.
Proof.
  intros H. apply jsstring_eqb_neq in H. unfold push_segment.
  change (jsstring_eqb (js "..") [] || jsstring_eqb (js "..") (js "."))
    with false.
  change (jsstring_eqb (js "..") (js "..")) with true. cbv iota.
  rewrite H. reflexivity.
Qed.

(** As many [..] as there are upper segments lead down to the lower
    ones. *)
Lemma resolve_dot_dots (upper lower : list jsstring) :
  Forall (fun s => s <> js "..") upper -> upper <> [] ->
  resolve_from false NodePath.isPosixPathSeparator (upper ++ lower) []
    (dot_dots (List.length upper)) = lower.
Proof.
  induction upper as [|top upper IH]; intros Hall Hne; [congruence|].
  inversion Hall as [|? ? Htop Hupper]; subst.
  destruct upper as [|next upper].
  - cbn. change (push_segment false (top :: lower) (js "..") = lower).
    apply push_dot_dot, Htop.
  - change (List.length (top :: next :: upper))
      with (S (S (List.length upper))).
    rewrite dot_dots_cons.
    change (js "../" ++ dot_dots (S (List.length upper)))
      with ("."%char :: "."%char :: "/"%char
              :: dot_dots (List.length (next :: upper))).
    cbn [resolve_from app].
    change (NodePath.isPosixPathSeparator ".") with false.
    change (NodePath.isPosixPathSeparator "/") with true. cbv iota.
    change (push_segment false (top :: (next :: upper) ++ lower) (js ".."))
      with (push_segment false (top :: (next :: upper) ++ lower) (js "..")).
    rewrite push_dot_dot by exact Htop.
    apply IH; [exact Hupper|discriminate].
Qed.

(** ** What [path.posix.relative] returns *)

Lemma sliceFrom_app (a b : jsstring) :
  JS.sliceFrom (a ++ b) (JS.length a) = b.
Proof.
  unfold JS.sliceFrom, JS.length. rewrite Nat2Z.id.
  rewrite skipn_app, skipn_all, Nat.sub_diag. reflexivity.
Qed.

Lemma starts_with_slash_dot_dots (k : nat) (rest : jsstring) :
  starts_with_slash (dot_dots (S k) ++ rest) = false
  /\ dot_dots (S k) ++ rest <> [].
Proof.
  destruct (dot_dots_head k) as [r ->]. split; [reflexivity|discriminate].
Qed.

Lemma ends_with_slash_dot_dots (k : nat) :
  ends_with_slash (dot_dots (S k)) = false.
Proof.
  destruct k as [|k]; [reflexivity|].
  change (dot_dots (S (S k))) with (dot_dots (S k) ++ js "/..").
  rewrite ends_with_slash_app by discriminate. reflexivity.
Qed.

Lemma ends_with_slash_join (stack : list jsstring) :
  stack_ok NodePath.isPosixPathSeparator stack ->
  ends_with_slash (join_stack "/" stack) = false.
Proof.
  intros Hok. destruct stack as [|top below]; [reflexivity|].
  destruct (join_stack_last "/" _ (top :: below) Hok ltac:(discriminate))
    as (front & c & E & Hc & _).
  rewrite E, ends_with_slash_last. exact Hc.
Qed.

(** The usual end of [relative]: the paths part after a common slash,
    or have nothing in common. *)
Lemma relative_tail_general (F T : list jsstring) (lcs : Z) :
  normal_stack false NodePath.isPosixPathSeparator F ->
  normal_stack false NodePath.isPosixPathSeparator T ->
  F <> [] -> T <> [] ->
  (lcs = (-1)%Z
   \/ exists c fs ts,
        join_stack "/" F = c ++ "/"%char :: fs
        /\ join_stack "/" T = c ++ "/"%char :: ts
        /\ lcs = JS.length c) ->
  let from := "/"%char :: join_stack "/" F in
  let to := "/"%char :: join_stack "/" T in
  let first := (1 + lcs + 1)%Z in
  let rel :=
    NodePath.posix.out_loop from (JS.length from)
      (Z.to_nat (JS.length from + 1 - first)) first []
    ++ JS.sliceFrom to (1 + lcs) in
  resolve_from false NodePath.isPosixPathSeparator F [] rel = T
  /\ (starts_with_slash rel = false /\ rel <> [])
  /\ ends_with_slash rel = false.
Proof.
  intros HF HT Hne HneT Hlcs from to first rel.
  pose proof (normal_stack_ok _ _ _ HF) as HokF.
  pose proof (normal_stack_ok _ _ _ HT) as HokT.
  pose proof (ends_with_slash_join T HokT) as HendT.
  pose proof (normal_stack_no_dot_dot _ _ HF) as HddF.
  destruct Hlcs as [->|(c & fs & ts & Ef & Et & ->)].
  - assert (Eout : NodePath.posix.out_loop from (JS.length from)
                     (Z.to_nat (JS.length from + 1 - first)) first []
                   = dot_dots (List.length F)).
    { pose proof (out_loop_count (join_stack "/" F) ["/"%char] 0) as H.
      rewrite <- (count_slashes_join F HokF Hne).
      replace (Z.to_nat (JS.length from + 1 - first))
        with (S (List.length (join_stack "/" F)))
        by (unfold first, from, JS.length; cbn [List.length]; lia).
      exact H. }
    unfold rel. rewrite Eout.
    change (JS.sliceFrom to (1 + -1)) with to.
    destruct F as [|top below]; [congruence|].
    split; [|split; [apply starts_with_slash_dot_dots|]].
    + unfold to.
      rewrite (resolve_from_app_sep false _ "/") by reflexivity.
      pose proof (resolve_dot_dots (top :: below) [] HddF Hne) as H.
      rewrite app_nil_r in H. rewrite H.
      apply resolve_of_join, HT.
    + unfold to.
      destruct (join_stack_head "/" _ T HokT HneT) as (x & r & Ex & _).
      change ("/"%char :: join_stack "/" T)
        with (["/"%char] ++ join_stack "/" T).
      rewrite app_assoc, ends_with_slash_app; [exact HendT|].
      rewrite Ex. discriminate.
  - destruct (join_stack_split F HokF c fs Ef)
      as (upper & lower & Es & Hu & Hl & Ec & Efs).
    subst F. apply stack_ok_app in HokF. destruct HokF as [HokU HokL].
    apply Forall_app in HddF. destruct HddF as [HddU _].
    pose proof (normal_stack_app_r _ _ _ _ HF) as HL.
    assert (Eout : NodePath.posix.out_loop from (JS.length from)
                     (Z.to_nat (JS.length from + 1 - first)) first []
                   = dot_dots (List.length upper)).
    { pose proof (out_loop_count fs ("/"%char :: c ++ ["/"%char]) 0) as H.
      rewrite <- (count_slashes_join upper HokU Hu), Efs.
      assert (Efrom : from = ("/"%char :: c ++ ["/"%char]) ++ fs).
      { unfold from. rewrite Ef. cbn [app]. rewrite <- app_assoc.
        reflexivity. }
      assert (Efirst : first = JS.length ("/"%char :: c ++ ["/"%char])).
      { unfold first. rewrite JS_length_cons, JS_length_app.
        change (JS.length ["/"%char]) with 1%Z. lia. }
      rewrite Efrom, Efirst.
      replace (Z.to_nat (JS.length (("/"%char :: c ++ ["/"%char]) ++ fs) + 1
                         - JS.length ("/"%char :: c ++ ["/"%char])))
        with (S (List.length fs))
        by (rewrite JS_length_app; unfold JS.length; lia).
      exact H. }
    unfold rel. rewrite Eout.
    assert (Eto : JS.sliceFrom to (1 + JS.length c) = "/"%char :: ts).
    { unfold to. rewrite Et.
      change ("/"%char :: c ++ "/"%char :: ts)
        with (("/"%char :: c) ++ "/"%char :: ts).
      rewrite <- (JS_length_cons "/" c). apply sliceFrom_app. }
    rewrite Eto.
    destruct upper as [|u upper]; [congruence|].
    split; [|split; [apply starts_with_slash_dot_dots|]].
    + rewrite (resolve_from_app_sep false _ "/") by reflexivity.
      rewrite (resolve_dot_dots (u :: upper) lower HddU Hu).
      rewrite <- (resolve_of_join false T HT), Et.
      rewrite (resolve_from_app_sep false _ "/") by reflexivity.
      rewrite <- Ec, (resolve_of_join false lower HL). reflexivity.
    + destruct (join_stack_split T HokT c ts Et)
        as (upperT & lowerT & EsT & HuT & _ & _ & EtsT).
      rewrite EsT in HokT. apply stack_ok_app in HokT.
      destruct HokT as [HokUT _].
      destruct (join_stack_head "/" _ upperT HokUT HuT)
        as (x & r & Ex & _).
      change ("/"%char :: ts) with (["/"%char] ++ ts).
      rewrite app_assoc, ends_with_slash_app;
        [|rewrite <- EtsT, Ex; discriminate].
      rewrite <- EtsT. apply ends_with_slash_join, HokUT.
Qed.

(** [to] is the base of [from]. *)
Lemma relative_tail_base (F T : list jsstring) (fs : jsstring) :
  normal_stack false NodePath.isPosixPathSeparator F ->
  normal_stack false NodePath.isPosixPathSeparator T ->
  join_stack "/" F = join_stack "/" T ++ "/"%char :: fs ->
  let from := "/"%char :: join_stack "/" F in
  let to := "/"%char :: join_stack "/" T in
  let lcs := JS.length (join_stack "/" T) in
  let first := (1 + lcs + 1)%Z in
  let rel :=
    NodePath.posix.out_loop from (JS.length from)
      (Z.to_nat (JS.length from + 1 - first)) first []
    ++ JS.sliceFrom to (1 + lcs) in
  resolve_from false NodePath.isPosixPathSeparator F [] rel = T
  /\ (starts_with_slash rel = false /\ rel <> [])
  /\ ends_with_slash rel = false.
Proof.
  intros HF HT Ef from to lcs first rel.
  pose proof (normal_stack_ok _ _ _ HF) as HokF.
  pose proof (normal_stack_no_dot_dot _ _ HF) as HddF.
  destruct (join_stack_split F HokF _ fs Ef)
    as (upper & lower & Es & Hu & Hl & Ec & Efs).
  subst F. apply stack_ok_app in HokF. destruct HokF as [HokU HokL].
  apply Forall_app in HddF. destruct HddF as [HddU _].
  pose proof (normal_stack_app_r _ _ _ _ HF) as HL.
  assert (lower = T) by (apply (join_stack_inj false); assumption).
  subst lower.
  set (t := join_stack "/" T) in *.
  assert (Eout : NodePath.posix.out_loop from (JS.length from)
                   (Z.to_nat (JS.length from + 1 - first)) first []
                 = dot_dots (List.length upper)).
  { pose proof (out_loop_count fs ("/"%char :: t ++ ["/"%char]) 0) as H.
    rewrite <- (count_slashes_join upper HokU Hu), Efs.
    assert (Efrom : from = ("/"%char :: t ++ ["/"%char]) ++ fs).
    { unfold from. rewrite Ef. cbn [app]. rewrite <- app_assoc.
      reflexivity. }
    assert (Efirst : first = JS.length ("/"%char :: t ++ ["/"%char])).
    { unfold first, lcs. rewrite JS_length_cons, JS_length_app.
      change (JS.length ["/"%char]) with 1%Z. lia. }
    rewrite Efrom, Efirst.
    replace (Z.to_nat (JS.length (("/"%char :: t ++ ["/"%char]) ++ fs) + 1
                       - JS.length ("/"%char :: t ++ ["/"%char])))
      with (S (List.length fs))
      by (rewrite JS_length_app; unfold JS.length; lia).
    exact H. }
  unfold rel. rewrite Eout.
  assert (Eto : JS.sliceFrom to (1 + lcs) = []).
  { unfold to, lcs. rewrite <- (app_nil_r ("/"%char :: t)).
    rewrite <- (JS_length_cons "/" t). apply sliceFrom_app. }
  rewrite Eto.
  destruct upper as [|u upper]; [congruence|].
  split; [|split; [apply starts_with_slash_dot_dots|]].
  - rewrite app_nil_r. apply (resolve_dot_dots (u :: upper) T HddU Hu).
  - rewrite app_nil_r. apply ends_with_slash_dot_dots.
Qed.

(** [to] is the root. *)
Lemma relative_tail_root (F : list jsstring) :
  normal_stack false NodePath.isPosixPathSeparator F ->
  F <> [] ->
  let from := "/"%char :: join_stack "/" F in
  let rel :=
    NodePath.posix.out_loop from (JS.length from)
      (Z.to_nat (JS.length from + 1 - 2)) 2 []
    ++ JS.sliceFrom (js "/") 1 in
  resolve_from false NodePath.isPosixPathSeparator F [] rel = []
  /\ (starts_with_slash rel = false /\ rel <> [])
  /\ ends_with_slash rel = false.
Proof.
  intros HF Hne from rel.
  pose proof (normal_stack_ok _ _ _ HF) as HokF.
  pose proof (normal_stack_no_dot_dot _ _ HF) as HddF.
  destruct (join_stack_head "/" _ F HokF Hne) as (a & f2 & Ef & Ha).
  assert (Eout : NodePath.posix.out_loop from (JS.length from)
                   (Z.to_nat (JS.length from + 1 - 2)) 2 []
                 = dot_dots (List.length F)).
  { pose proof (out_loop_count f2 ["/"%char; a] 0) as H.
    rewrite <- (count_slashes_join F HokF Hne), Ef.
    assert (Ecount : count_slashes (a :: f2) = count_slashes f2).
    { unfold count_slashes. cbn [filter]. rewrite Ha. reflexivity. }
    rewrite Ecount. unfold from. rewrite Ef.
    replace (Z.to_nat (JS.length ("/"%char :: a :: f2) + 1 - 2))
      with (S (List.length f2))
      by (unfold JS.length; cbn [List.length]; lia).
    exact H. }
  unfold rel. rewrite Eout.
  change (JS.sliceFrom (js "/") 1) with (@nil ascii).
  destruct F as [|top below]; [congruence|].
  split; [|split; [apply starts_with_slash_dot_dots|]].
  - rewrite app_nil_r.
    pose proof (resolve_dot_dots (top :: below) [] HddF Hne) as H.
    rewrite app_nil_r in H. exact H.
  - rewrite app_nil_r. apply ends_with_slash_dot_dots.
Qed.

Lemma codeAt_app_head (g : ascii -> bool) (s : jsstring) (c : ascii)
  (t : jsstring) :
  JS.codeAt g (s ++ c :: t) (JS.length s) = g c.
Proof. unfold JS.codeAt. rewrite charCodeAt_app_head. reflexivity. Qed.

(** From one resolved path to another: what [relative] returns leads
    from the first to the second, has no slash at its start or its end,
    and is empty only when the two are the same. *)
Lemma relative_resolved_spec (F T : list jsstring) :
  normal_stack false NodePath.isPosixPathSeparator F ->
  normal_stack false NodePath.isPosixPathSeparator T ->
  let rel :=
    NodePath.posix.relative_resolved
      ("/"%char :: join_stack "/" F) ("/"%char :: join_stack "/" T) in
  resolve_from false NodePath.isPosixPathSeparator F [] rel = T
  /\ starts_with_slash rel = false
  /\ (rel = [] <-> F = T)
  /\ ends_with_slash rel = false.
Proof.
  intros HF HT.
  pose proof (normal_stack_ok _ _ _ HF) as HokF.
  pose proof (normal_stack_ok _ _ _ HT) as HokT.
  pose proof (resolve_of_join false F HF) as HrF.
  pose proof (resolve_of_join false T HT) as HrT.
  set (f := join_stack "/" F) in *. set (t := join_stack "/" T) in *.
  unfold NodePath.posix.relative_resolved.
  destruct (jsstring_eqb ("/"%char :: f) ("/"%char :: t)) eqn:Eeq.
  { apply jsstring_eqb_eq in Eeq. injection Eeq as Eft.
    assert (E : F = T) by (apply (join_stack_inj false); assumption).
    cbv zeta. cbn [resolve_from]. rewrite push_segment_nil.
    split; [exact E|]. split; [reflexivity|].
    split; [split; intros _; [exact E|reflexivity]|reflexivity]. }
  apply jsstring_eqb_neq in Eeq.
  assert (Hft : f <> t) by (intros E; apply Eeq; rewrite E; reflexivity).
  assert (HFT : F <> T) by (intros E; apply Hft; unfold f, t; rewrite E;
                            reflexivity).
  cbv zeta.
  enough (Hgoal :
    let rel :=
      let '(i, lastCommonSep) :=
        NodePath.posix.common_loop ("/"%char :: f) ("/"%char :: t) 1 1
          (Z.to_nat
             (if (JS.length ("/"%char :: f) - 1
                  <? JS.length ("/"%char :: t) - 1)%Z
              then (JS.length ("/"%char :: f) - 1)%Z
              else (JS.length ("/"%char :: t) - 1)%Z)) 0 (-1) in
      match
        (if (i =? (if (JS.length ("/"%char :: f) - 1
                       <? JS.length ("/"%char :: t) - 1)%Z
                   then JS.length ("/"%char :: f) - 1
                   else JS.length ("/"%char :: t) - 1))%Z
         then
           if (JS.length ("/"%char :: t) - 1
               >? (if (JS.length ("/"%char :: f) - 1
                       <? JS.length ("/"%char :: t) - 1)%Z
                   then JS.length ("/"%char :: f) - 1
                   else JS.length ("/"%char :: t) - 1))%Z
           then
             if JS.codeAt
                  (fun c => (c =? NodePath.CHAR_FORWARD_SLASH)%char)
                  ("/"%char :: t) (1 + i)
             then inl (JS.sliceFrom ("/"%char :: t) (1 + i + 1))
             else if (i =? 0)%Z
                  then inl (JS.sliceFrom ("/"%char :: t) (1 + i))
                  else inr lastCommonSep
           else
             if (JS.length ("/"%char :: f) - 1
                 >? (if (JS.length ("/"%char :: f) - 1
                         <? JS.length ("/"%char :: t) - 1)%Z
                     then JS.length ("/"%char :: f) - 1
                     else JS.length ("/"%char :: t) - 1))%Z
             then
               if JS.codeAt
                    (fun c => (c =? NodePath.CHAR_FORWARD_SLASH)%char)
                    ("/"%char :: f) (1 + i)
               then inr i
               else if (i =? 0)%Z then inr 0%Z else inr lastCommonSep
             else inr lastCommonSep
         else inr lastCommonSep)
      with
      | inl result => result
      | inr lastCommonSep =>
          NodePath.posix.out_loop ("/"%char :: f)
            (JS.length ("/"%char :: f))
            (Z.to_nat (JS.length ("/"%char :: f) + 1
                       - (1 + lastCommonSep + 1)))
            (1 + lastCommonSep + 1) []
          ++ JS.sliceFrom ("/"%char :: t) (1 + lastCommonSep)
      end in
    resolve_from false NodePath.isPosixPathSeparator F [] rel = T
    /\ (starts_with_slash rel = false /\ rel <> [])
    /\ ends_with_slash rel = false).
  { cbv zeta in Hgoal. destruct Hgoal as (H1 & (H2 & H3) & H4).
    split; [exact H1|]. split; [exact H2|].
    split; [split; intros H; contradiction|exact H4]. }
  assert (Elf : (JS.length ("/"%char :: f) - 1)%Z = JS.length f)
    by (rewrite JS_length_cons; lia).
  assert (Elt : (JS.length ("/"%char :: t) - 1)%Z = JS.length t)
    by (rewrite JS_length_cons; lia).
  rewrite !Elf, !Elt.
  set (len := if (JS.length f <? JS.length t)%Z
              then JS.length f else JS.length t).
  assert (Escan : NodePath.posix.common_loop ("/"%char :: f) ("/"%char :: t)
                    1 1 (Z.to_nat len) 0 (-1)
                  = common_scan f t 0 (-1)).
  { apply (common_loop_scan f t ["/"%char] ["/"%char] 0 (-1));
      [reflexivity|reflexivity|].
    unfold len, JS.length.
    destruct (Z.ltb_spec (Z.of_nat (List.length f))
                (Z.of_nat (List.length t))); lia. }
  rewrite Escan.
  destruct (common_scan_prefix f t 0 (-1))
    as (c & f1 & t1 & Ef & Et & Hi & Hstop).
  pose proof (common_scan_sep f t 0 (-1)) as Hsep.
  destruct (common_scan f t 0 (-1)) as [i lcs]. cbn [fst snd] in Hi, Hsep.
  rewrite Z.add_0_l in Hi. subst i.
  assert (Hsep' : lcs = (-1)%Z
                  \/ exists c' fs ts,
                       f = c' ++ "/"%char :: fs /\ t = c' ++ "/"%char :: ts
                       /\ lcs = JS.length c').
  { destruct Hsep as [H|(c' & fs & ts & H1 & H2 & H3)]; [left; exact H|].
    right. exists c', fs, ts. repeat split; [exact H1|exact H2|].
    rewrite H3. lia. }
  clear Hsep Escan.
  pose proof (JS_length_nonneg c) as Hc0.
  cbv zeta.
  destruct f1 as [|a f2]; destruct t1 as [|b t2].
  - exfalso. apply Hft. rewrite Ef, Et. reflexivity.
  - (* from is a prefix of to *)
    rewrite app_nil_r in Ef.
    assert (Hlen : len = JS.length c).
    { unfold len. rewrite Ef, Et, JS_length_app, JS_length_cons.
      pose proof (JS_length_nonneg t2).
      destruct (Z.ltb_spec (JS.length c) (JS.length c + (1 + JS.length t2)));
        lia. }
    rewrite Hlen, Z.eqb_refl.
    assert (Hgt : (JS.length t >? JS.length c)%Z = true).
    { rewrite Et, JS_length_app, JS_length_cons.
      pose proof (JS_length_nonneg t2). rewrite Z.gtb_ltb.
      apply Z.ltb_lt. lia. }
    rewrite Hgt.
    assert (Hb : JS.codeAt (fun c0 => (c0 =? NodePath.CHAR_FORWARD_SLASH)%char)
                   ("/"%char :: t) (1 + JS.length c)
                 = (b =? "/")%char).
    { rewrite Et. change ("/"%char :: c ++ b :: t2)
        with (("/"%char :: c) ++ b :: t2).
      rewrite <- (JS_length_cons "/" c), codeAt_app_head. reflexivity. }
    rewrite Hb. destruct (Ascii.eqb_spec b "/") as [->|Hbs].
    + assert (Eslice : JS.sliceFrom ("/"%char :: t) (1 + JS.length c + 1)
                       = t2).
      { rewrite Et.
        change ("/"%char :: c ++ "/"%char :: t2)
          with ("/"%char :: c ++ ["/"%char] ++ t2).
        rewrite app_assoc.
        change ("/"%char :: (c ++ ["/"%char]) ++ t2)
          with (("/"%char :: c ++ ["/"%char]) ++ t2).
        replace (1 + JS.length c + 1)%Z
          with (JS.length ("/"%char :: c ++ ["/"%char]))
          by (rewrite JS_length_cons, JS_length_app;
              change (JS.length ["/"%char]) with 1%Z; lia).
        apply sliceFrom_app. }
      rewrite Eslice.
      destruct (join_stack_split T HokT c t2 Et)
        as (upper & lower & Es & Hu & Hl & Ec & Ets).
      rewrite Es in HokT. apply stack_ok_app in HokT.
      destruct HokT as [HokU _].
      destruct (join_stack_head "/" _ upper HokU Hu)
        as (x & r & Ex & Hx).
      rewrite Ets in Ex. split; [|split].
      * rewrite <- HrT. rewrite Et.
        rewrite (resolve_from_app_sep false _ "/") by reflexivity.
        rewrite <- Ef, HrF. reflexivity.
      * rewrite Ex. split; [exact Hx|discriminate].
      * rewrite <- Ets. apply ends_with_slash_join, HokU.
    + destruct (Z.eqb_spec (JS.length c) 0) as [Hz|Hnz].
      * assert (Hc : c = []) by (destruct c; [reflexivity|discriminate Hz]).
        rewrite Hc in Ef, Et |- *. cbn [app] in Et.
        assert (HF0 : F = [])
          by (apply (join_stack_nil "/" _ F HokF); exact Ef).
        rewrite HF0.
        change (JS.sliceFrom ("/"%char :: t) (1 + JS.length []))
          with t.
        split; [exact HrT|].
        split; [|exact (ends_with_slash_join T HokT)].
        rewrite Et. split; [|discriminate].
        unfold starts_with_slash.
        change (JS.codeAt NodePath.isPosixPathSeparator (b :: t2) 0)
          with (b =? "/")%char.
        destruct (Ascii.eqb_spec b "/"); [congruence|reflexivity].
      * apply (relative_tail_general F T lcs HF HT); [| |exact Hsep'].
        -- intros ->. apply Hnz. fold f in Ef.
           change f with (@nil ascii) in Ef. rewrite <- Ef. reflexivity.
        -- intros HT0. rewrite HT0 in HrT. cbn in HrT.
           assert (Ht0 : t = []) by (unfold t; rewrite HT0; reflexivity).
           rewrite Ht0 in Et. destruct c; discriminate Et.
  - (* to is a prefix of from *)
    rewrite app_nil_r in Et.
    assert (Hlen : len = JS.length c).
    { unfold len. rewrite Ef, Et, JS_length_app, JS_length_cons.
      pose proof (JS_length_nonneg f2).
      destruct (Z.ltb_spec (JS.length c + (1 + JS.length f2)) (JS.length c));
        lia. }
    rewrite Hlen, Z.eqb_refl.
    assert (Hgt : (JS.length t >? JS.length c)%Z = false).
    { rewrite Et, Z.gtb_ltb. apply Z.ltb_irrefl. }
    rewrite Hgt.
    assert (Hgf : (JS.length f >? JS.length c)%Z = true).
    { rewrite Ef, JS_length_app, JS_length_cons.
      pose proof (JS_length_nonneg f2). rewrite Z.gtb_ltb.
      apply Z.ltb_lt. lia. }
    rewrite Hgf.
    assert (Ha : JS.codeAt (fun c0 => (c0 =? NodePath.CHAR_FORWARD_SLASH)%char)
                   ("/"%char :: f) (1 + JS.length c)
                 = (a =? "/")%char).
    { rewrite Ef. change ("/"%char :: c ++ a :: f2)
        with (("/"%char :: c) ++ a :: f2).
      rewrite <- (JS_length_cons "/" c), codeAt_app_head. reflexivity. }
    rewrite Ha.
    assert (HneF : F <> []).
    { intros ->. change f with (@nil ascii) in Ef.
      destruct c; discriminate Ef. }
    destruct (Ascii.eqb_spec a "/") as [->|Has].
    + rewrite <- Et.
      apply (relative_tail_base F T f2 HF HT).
      change (f = t ++ "/"%char :: f2). rewrite Et. exact Ef.
    + destruct (Z.eqb_spec (JS.length c) 0) as [Hz|Hnz].
      * assert (Hc : c = []) by (destruct c; [reflexivity|discriminate Hz]).
        rewrite Hc in Ef, Et.
        assert (HT0 : T = [])
          by (apply (join_stack_nil "/" _ T HokT); exact Et).
        rewrite HT0, Et.
        exact (relative_tail_root F HF HneF).
      * apply (relative_tail_general F T lcs HF HT HneF); [|exact Hsep'].
        intros HT0.
        assert (Ht0 : t = []) by (unfold t; rewrite HT0; reflexivity).
        rewrite Ht0 in Et. apply Hnz. rewrite <- Et. reflexivity.
  - (* the paths differ after the common prefix *)
    assert (Hlen : (JS.length c =? len)%Z = false).
    { apply Z.eqb_neq. unfold len.
      rewrite Ef, Et, !JS_length_app, !JS_length_cons.
      pose proof (JS_length_nonneg f2). pose proof (JS_length_nonneg t2).
      destruct (Z.ltb_spec (JS.length c + (1 + JS.length f2))
                  (JS.length c + (1 + JS.length t2))); lia. }
    rewrite Hlen.
    apply (relative_tail_general F T lcs HF HT); [| |exact Hsep'].
    + intros ->. change f with (@nil ascii) in Ef.
      destruct c; discriminate Ef.
    + intros HT0.
      assert (Ht0 : t = []) by (unfold t; rewrite HT0; reflexivity).
      rewrite Ht0 in Et. destruct c; discriminate Et.
Qed.

(** ** [getRelativePath] *)

Lemma getRelativePath_segments (cwd from to : jsstring) :
  starts_with_slash cwd = true ->
  let rel := PosixHost.getRelativePath cwd from to in
  resolve_from false NodePath.isPosixPathSeparator
    (resolved_segments cwd [from]) [] rel
  = resolved_segments cwd [to]
  /\ starts_with_slash rel = false
  /\ (rel = [] <-> NodePath.posix.resolve cwd [from]
                   = NodePath.posix.resolve cwd [to])
  /\ ends_with_slash rel = false.
Proof.
  intros Hcwd.
  unfold PosixHost.getRelativePath, NodePath.posix.relative.
  destruct (jsstring_eqb from to) eqn:E.
  - apply jsstring_eqb_eq in E. subst to. cbv zeta.
    cbn [resolve_from]. rewrite push_segment_nil.
    repeat split; reflexivity.
  - cbv zeta. rewrite !(resolve_eq cwd _ Hcwd).
    destruct (relative_resolved_spec (resolved_segments cwd [from])
                (resolved_segments cwd [to])
                (resolved_segments_normal cwd [from])
                (resolved_segments_normal cwd [to]))
      as (H1 & H2 & H3 & H4).
    cbv zeta in H1, H2, H3, H4.
    split; [exact H1|]. split; [exact H2|]. split; [|exact H4].
    rewrite H3. split.
    + intros ->. reflexivity.
    + intros H. injection H as H.
      apply (join_stack_inj false);
        [apply resolved_segments_normal..|exact H].
Qed.

(** X24: on a POSIX host what [getRelativePath(from, to)] returns does
    lead from [from] to [to]: resolved from [from] it gives the same
    path as [to].  The current directory is an absolute path. *)
Theorem getRelativePath_leads_to (cwd from to : jsstring) :
  starts_with_slash cwd = true ->
  NodePath.posix.resolve cwd [from; PosixHost.getRelativePath cwd from to]
  = NodePath.posix.resolve cwd [to].
Proof.
  intros Hcwd.
  destruct (getRelativePath_segments cwd from to Hcwd) as (H1 & H2 & _ & _).
  cbv zeta in H1, H2.
  rewrite !(resolve_eq cwd _ Hcwd).
  change [from; PosixHost.getRelativePath cwd from to]
    with ([from] ++ [PosixHost.getRelativePath cwd from to]).
  rewrite (resolved_segments_snoc cwd [from] _ Hcwd H2), H1.
  reflexivity.
Qed.

(** For instance from ['/var/lib'] to ['/var/apache'] *)
Lemma getRelativePath_leads_to_witness :
  starts_with_slash (js "/home/user") = true
  /\ PosixHost.getRelativePath (js "/home/user") (js "/var/lib")
       (js "/var/apache") = js "../apache"
  /\ NodePath.posix.resolve (js "/home/user") [js "/var/lib"; js "../apache"]
     = js "/var/apache".
Proof.
  refine (conj eq_refl (conj eq_refl _)).
  exact (getRelativePath_leads_to (js "/home/user") (js "/var/lib")
           (js "/var/apache") eq_refl).
Defined.

(** X25: on a POSIX host [getRelativePath] never returns an absolute
    path. *)
Theorem getRelativePath_not_absolute (cwd from to : jsstring) :
  starts_with_slash cwd = true ->
  NodePath.posix.isAbsolute (PosixHost.getRelativePath cwd from to) = false.
Proof.
  intros Hcwd.
  destruct (getRelativePath_segments cwd from to Hcwd) as (_ & H & _ & _).
  cbv zeta in H. unfold NodePath.posix.isAbsolute.
  unfold starts_with_slash in H.
  change (JS.codeAt (fun c => (c =? NodePath.CHAR_FORWARD_SLASH)%char))
    with (JS.codeAt NodePath.isPosixPathSeparator).
  rewrite H. apply andb_false_r.
Qed.

(** For instance from ['a'] to ['/'], in ['/home/user'] *)
Lemma getRelativePath_not_absolute_witness :
  starts_with_slash (js "/home/user") = true
  /\ PosixHost.getRelativePath (js "/home/user") (js "a") (js "/")
     = js "../../.."
  /\ NodePath.posix.isAbsolute
       (PosixHost.getRelativePath (js "/home/user") (js "a") (js "/"))
     = false.
Proof.
  refine (conj eq_refl (conj eq_refl _)).
  exact (getRelativePath_not_absolute (js "/home/user") (js "a") (js "/")
           eq_refl).
Defined.

(** X26: on a POSIX host [getRelativePath] returns the empty string
    exactly when the two paths resolve to the same path. *)
Theorem getRelativePath_empty_iff (cwd from to : jsstring) :
  starts_with_slash cwd = true ->
  PosixHost.getRelativePath cwd from to = []
  <-> NodePath.posix.resolve cwd [from] = NodePath.posix.resolve cwd [to].
Proof.
  intros Hcwd.
  destruct (getRelativePath_segments cwd from to Hcwd) as (_ & _ & H & _).
  exact H.
Qed.

(** For instance ['a/../b'] and ['./b/'] *)
Lemma getRelativePath_empty_iff_witness :
  starts_with_slash (js "/home/user") = true
  /\ PosixHost.getRelativePath (js "/home/user") (js "a/../b") (js "./b/")
     = [].
Proof.
  refine (conj eq_refl _).
  apply (getRelativePath_empty_iff (js "/home/user") (js "a/../b")
           (js "./b/") eq_refl).
  reflexivity.
Defined.

Lemma resolved_segments_absolute (cwd from : jsstring) :
  starts_with_slash from = true ->
  resolved_segments cwd [from]
  = resolve_from false NodePath.isPosixPathSeparator [] [] from.
Proof.
  intros Hfrom. unfold resolved_segments.
  destruct from as [|c t]; [discriminate Hfrom|].
  change (NodePath.posix.resolve_loop (rev [c :: t] ++ [cwd]) [] false)
    with (NodePath.posix.resolve_loop [cwd] ((c :: t) ++ ["/"%char])
            (JS.codeAt NodePath.isPosixPathSeparator (c :: t) 0)).
  unfold starts_with_slash in Hfrom.
  rewrite Hfrom, resolve_loop_absolute. cbn [fst].
  apply (resolve_from_snoc_sep false _ "/"). reflexivity.
Qed.

(** X27: on a POSIX host, for an absolute [from] and paths that do not
    resolve to the same, [joinPaths(from, getRelativePath(from, to))]
    is the resolved [to]: the two functions fit together. *)
Theorem joinPaths_getRelativePath (host : Host) (cwd from to : jsstring) :
  is_win32 host = false ->
  starts_with_slash cwd = true ->
  starts_with_slash from = true ->
  PosixHost.getRelativePath cwd from to <> [] ->
  joinPaths host [from; PosixHost.getRelativePath cwd from to]
  = NodePath.posix.resolve cwd [to].
Proof.
  intros Hhost Hcwd Hfrom Hrel.
  destruct (getRelativePath_segments cwd from to Hcwd)
    as (H1 & _ & _ & H4).
  cbv zeta in H1, H4.
  set (rel := PosixHost.getRelativePath cwd from to) in *.
  rewrite (resolved_segments_absolute cwd from Hfrom) in H1.
  assert (Hne : from <> []) by (intros ->; discriminate Hfrom).
  unfold joinPaths, path_join. rewrite Hhost.
  rewrite (posix_join_cons [from; rel] from [rel]).
  2:{ cbn [filter]. destruct from as [|c t]; [congruence|].
      destruct rel as [|d r]; [congruence|]. reflexivity. }
  change (join_with "/" [from; rel]) with (from ++ "/"%char :: rel).
  rewrite posix_normalize_eq
    by (intros H; apply app_eq_nil in H; destruct H; congruence).
  rewrite (starts_with_slash_app from _ Hne), Hfrom.
  assert (Hend : ends_with_slash (from ++ "/"%char :: rel) = false).
  { change (from ++ "/"%char :: rel) with (from ++ ["/"%char] ++ rel).
    rewrite app_assoc, ends_with_slash_app by exact Hrel. exact H4. }
  assert (Hseg : posix_segments (from ++ "/"%char :: rel)
                 = resolved_segments cwd [to]).
  { unfold posix_segments.
    rewrite (starts_with_slash_app from _ Hne), Hfrom. cbn [negb].
    rewrite (resolve_from_app_sep false _ "/") by reflexivity.
    exact H1. }
  rewrite Hend, Hseg, (resolve_eq cwd [to] Hcwd).
  unfold posix_text.
  destruct (resolved_segments cwd [to]); [reflexivity|].
  cbn [sep_if app js list_ascii_of_string]. rewrite app_nil_r.
  reflexivity.
Qed.

(** For instance from ['/var/lib/'] to ['../etc'], in ['/var/www'] *)
Lemma joinPaths_getRelativePath_witness :
  is_win32 posix_host = false
  /\ starts_with_slash (js "/var/www") = true
  /\ starts_with_slash (js "/var/lib/") = true
  /\ PosixHost.getRelativePath (js "/var/www") (js "/var/lib/")
       (js "../etc") = js "../etc"
  /\ joinPaths posix_host [js "/var/lib/"; js "../etc"] = js "/var/etc".
Proof.
  assert (Hrel : PosixHost.getRelativePath (js "/var/www") (js "/var/lib/")
                   (js "../etc") <> [])
    by (vm_compute; discriminate).
  refine (conj eq_refl (conj eq_refl (conj eq_refl (conj eq_refl _)))).
  exact (joinPaths_getRelativePath posix_host (js "/var/www")
           (js "/var/lib/") (js "../etc") eq_refl eq_refl eq_refl Hrel).
Defined.

(** ** A valid path, normalized, is valid *)

Lemma normalizePath_legal (host : Host) (p : jsstring)
  (options : NormalizationOptions) (os : OSType) :
  has_char (illegal_chars_of os) p = false ->
  has_char (illegal_chars_of os) (normalizePath host p options) = false.
Proof.
  intros H. apply has_char_false. apply has_char_false in H.
  apply normalizePath_chars; [| | | |exact H].
  - unfold illegal_chars_of. destruct (OSType_eqb os windows); reflexivity.
  - unfold illegal_chars_of. destruct (OSType_eqb os windows); reflexivity.
  - unfold illegal_chars_of. destruct (OSType_eqb os windows); reflexivity.
  - intros x. unfold illegal_chars_of. destruct (OSType_eqb os windows).
    + rewrite lowerCode_windows_illegal. trivial.
    + rewrite lowerCode_posix_illegal. trivial.
Qed.

Lemma starts_with_slash_lower (s : jsstring) :
  starts_with_slash (JS.toLowerCase s) = starts_with_slash s.
Proof. destruct s as [|c t]; [reflexivity|]. apply lowerCode_slash. Qed.

Lemma starts_with_slash_strip (s : jsstring) :
  (JS.length s >? 1)%Z = true ->
  starts_with_slash (JS.replace_trailing_separator s) = starts_with_slash s.
Proof. destruct s as [|a [|b t]]; [discriminate..|reflexivity]. Qed.

(** On a POSIX host [normalizePath] keeps a path without backslashes
    absolute or relative, as it was. *)
Lemma normalizePath_starts_with_slash (host : Host) (p : jsstring)
  (options : NormalizationOptions) :
  is_win32 host = false ->
  backslash_free p ->
  starts_with_slash (normalizePath host p options) = starts_with_slash p.
Proof.
  intros Hhost Hfree. destruct p as [|c t]; [reflexivity|].
  assert (Hp : c :: t <> []) by discriminate.
  rewrite normalizePath_nonempty_eq by exact Hp.
  rewrite (path_normalize_posix host Hhost). cbv zeta.
  destruct (posix_normalize_segments (c :: t) Hp) as [Habs _].
  assert (Hnfree : backslash_free (NodePath.posix.normalize (c :: t))).
  { apply posix_normalize_chars; [discriminate|discriminate|exact Hfree]. }
  set (n := NodePath.posix.normalize (c :: t)) in *.
  destruct (jsstring_eqb n (js ".")); [reflexivity|].
  assert (E1 : (if nullish (forceForwardSlash options) true
                then JS.replace_backslashes n else n) = n).
  { destruct (nullish (forceForwardSlash options) true);
      [apply replace_backslashes_free, Hnfree|reflexivity]. }
  rewrite E1, <- Habs.
  destruct (nullish (toLowerCase options) _);
    rewrite ?starts_with_slash_lower;
    destruct (nullish (removeTrailingSlash options) true);
    cbn [andb]; try reflexivity;
    destruct (JS.length n >? 1)%Z eqn:Hlen; try reflexivity;
    apply starts_with_slash_strip, Hlen.
Qed.

Lemma posix_isAbsolute_starts_with_slash (p : jsstring) :
  NodePath.posix.isAbsolute p = starts_with_slash p.
Proof. destruct p as [|c t]; reflexivity. Qed.

(** X28: on a POSIX host, when the resolved OS is POSIX (so that
    [validatePath] normalizes without lower-casing), the normalized
    path that [validatePath] returns for a valid path without
    backslashes is valid again, under the same options. *)
Theorem validatePath_normalizedPath_valid (host : Host) (p : jsstring)
  (options : ValidationOptions) :
  is_win32 host = false ->
  resolve_os host (vo_os options) = posix ->
  backslash_free p ->
  isValid (validatePath host p options) = true ->
  isValid
    (validatePath host
       (normalizePath host p (only_os (resolve_os host (vo_os options))))
       options) = true.
Proof.
  intros Hhost Hos Hfree Hvalid.
  destruct p as [|c t]; [discriminate Hvalid|].
  set (no := only_os (resolve_os host (vo_os options))).
  assert (Hlow : nullish (toLowerCase no)
                   (OSType_eqb (resolve_os host (no_os no)) windows)
                 = false).
  { unfold no. rewrite Hos. reflexivity. }
  pose proof (normalizePath_nonempty host c t no) as Hne.
  pose proof (normalizePath_length_posix host (c :: t) no Hhost Hlow)
    as Hlen.
  pose proof (normalizePath_starts_with_slash host (c :: t) no Hhost Hfree)
    as Habs.
  pose proof (normalizePath_legal host (c :: t) no
                (resolve_os host (vo_os options))) as Hlegal.
  pose proof (normalizePath_has_dot_dot host (c :: t) no) as Hdd.
  apply validatePath_valid_checks in Hvalid.
  destruct Hvalid as (H1 & H2 & H3 & H4 & H5).
  destruct (normalizePath host (c :: t) no) as [|c' t'] eqn:E; [congruence|].
  apply validatePath_valid_checks.
  assert (Ha : path_isAbsolute host (c' :: t')
               = path_isAbsolute host (c :: t)).
  { unfold path_isAbsolute. rewrite Hhost.
    rewrite !posix_isAbsolute_starts_with_slash. exact Habs. }
  unfold checks_pass. rewrite Ha.
  split; [lia|]. split; [apply Hlegal, H2|].
  split; [|split; assumption].
  destruct H3 as [H3|H3]; [left; exact H3|right].
  fold (has_dot_dot (c' :: t')). fold (has_dot_dot (c :: t)) in H3.
  destruct (has_dot_dot (c' :: t')); [|reflexivity].
  rewrite (Hdd eq_refl) in H3. discriminate H3.
Qed.

(** For instance ['/Var//Log/./app/'], valid, normalized to ['/Var/Log/app'] *)
Lemma validatePath_normalizedPath_valid_witness :
  is_win32 posix_host = false
  /\ resolve_os posix_host (vo_os no_validation_options) = posix
  /\ backslash_free (js "/Var//Log/./app/")
  /\ validatePath posix_host (js "/Var//Log/./app/") no_validation_options
     = {| isValid := true; errors := None;
          normalizedPath := Some (js "/Var/Log/app") |}
  /\ isValid (validatePath posix_host (js "/Var/Log/app")
                no_validation_options) = true.
Proof.
  assert (H : backslash_free (js "/Var//Log/./app/"))
    by (repeat constructor; discriminate).
  refine (conj eq_refl (conj eq_refl (conj H (conj eq_refl _)))).
  exact (validatePath_normalizedPath_valid posix_host
           (js "/Var//Log/./app/") no_validation_options eq_refl eq_refl H
           eq_refl).
Defined.
